(** * WhatsApp-Music-Bot: the media request pipeline

    A shallow embedding of the parts of [src/queue.js], [src/index.js],
    [src/downloader.js], [src/utils.js] and [src/config.js] that carry the
    state, the ordering and the failure handling of the bot, and the
    properties the specification states about them.

    Modelling conventions.
    - The JavaScript numbers that flow through this code (seconds, pixel
      heights, CRF values, kbps, byte sizes, epoch milliseconds) are integer
      valued and are modelled as [Z].  A value that [Number(...)] turns into
      [NaN] ([undefined], a non numeric string) is [None].
    - A JavaScript string is the list of its code units; the code units
      modelled are the 256 below U+0100, one [ascii] each.  Paths, error codes
      and messages, which the code only compares or passes on, are [string]s.
    - Effects are explicit.  The file system, the two child processes and the
      transport live in a [world] that is threaded through a state and
      exception monad; what the environment answers to each call is read from
      a tape in the world, so a run is a function of the world it starts in.
    - The event loop is explicit.  A [DownloadQueue] is a state machine whose
      steps are the calls of [add] and the settlements of the awaited task
      promises; between two steps no code of the queue runs. *)

From stdpp Require Import gmap strings list pretty.
From Stdlib Require Import ZArith Ascii.
From Stdlib Require QArith Qround.

Local Open Scope Z_scope.

(* ===================================================================== *)
(** ** JavaScript numbers *)
(* ===================================================================== *)

Module Js.

(** [Number(x) || d]: [NaN] and [0] are falsy, so both yield [d]. *)
Definition number_or (x : option Z) (d : Z) : Z :=
  match x with
  | Some v => if v =? 0 then d else v
  | None => d
  end.

End Js.

(* ===================================================================== *)
(** ** downloader.js: compression profiles *)
(* ===================================================================== *)

Module Profile.

Record profile := mkProfile {
  maxHeight : Z;
  crf : Z;
  audioBitrateKbps : Z
}.

(** The three fields of [options] that [buildVideoCompressionProfile]
    reads. *)
Record video_options := mkVideoOptions {
  videoMaxHeight : option Z;
  videoCrf : option Z;
  videoAudioBitrateKbps : option Z
}.

(** [Math.max(min, Math.min(max, value))] *)
Definition clampNumber (value min max : Z) : Z :=
  Z.max min (Z.min max value).

Definition buildVideoCompressionProfile
    (durationSeconds : option Z) (options : video_options) : profile :=
  let baseHeight := clampNumber (Js.number_or (videoMaxHeight options) 480) 240 720 in
  let baseCrf := clampNumber (Js.number_or (videoCrf options) 30) 18 40 in
  let baseAudioBitrate :=
    clampNumber (Js.number_or (videoAudioBitrateKbps options) 64) 32 192 in
  let duration := Z.max 0 (Js.number_or durationSeconds 0) in
  if 7200 <=? duration then
    {| maxHeight := Z.min baseHeight 240;
       crf := clampNumber (baseCrf + 2) 18 40;
       audioBitrateKbps := Z.min baseAudioBitrate 48 |}
  else if 3600 <=? duration then
    {| maxHeight := Z.min baseHeight 360;
       crf := clampNumber (baseCrf + 1) 18 40;
       audioBitrateKbps := Z.min baseAudioBitrate 56 |}
  else if 1800 <=? duration then
    {| maxHeight := Z.min baseHeight 480;
       crf := clampNumber (baseCrf + 1) 18 40;
       audioBitrateKbps := Z.min baseAudioBitrate 64 |}
  else
    {| maxHeight := baseHeight;
       crf := baseCrf;
       audioBitrateKbps := baseAudioBitrate |}.

(** [a !== b] on numbers. *)
Definition neqb (a b : Z) : bool := negb (a =? b).

(** Returns [None] where the source returns [null]. *)
Definition buildFallbackVideoCompressionProfile (p : profile) : option profile :=
  let fallback :=
    {| maxHeight := Z.max 240 (Z.min (maxHeight p) 360);
       crf := clampNumber (crf p + 2) 18 40;
       audioBitrateKbps := Z.max 32 (Z.min (audioBitrateKbps p) 48) |} in
  let changed :=
    neqb (maxHeight fallback) (maxHeight p)
    || neqb (crf fallback) (crf p)
    || neqb (audioBitrateKbps fallback) (audioBitrateKbps p) in
  if changed then Some fallback else None.

(** The bounds every profile built by [buildVideoCompressionProfile]
    satisfies. *)
Definition in_bounds (p : profile) : Prop :=
  240 <= maxHeight p <= 720 ∧ 18 <= crf p <= 40 ∧ 32 <= audioBitrateKbps p <= 192.

End Profile.

(* ===================================================================== *)
(** ** Errors, the world and the effect monad *)
(* ===================================================================== *)

Module Fx.

(** The three kinds of exception objects the code tells apart with
    [instanceof]: [YoutubeError], [DownloadError], and every other [Error]
    (file system errors, transport errors). *)
Inductive error_class := PlainError | YoutubeError | DownloadError.

Record error := mkError {
  cls : error_class;
  code : option string;
  message : string
}.

(** [new DownloadError(code, message)] *)
Definition newDownloadError (c m : string) : error := mkError DownloadError (Some c) m.

(** [new YoutubeError(code, message)] *)
Definition newYoutubeError (c m : string) : error := mkError YoutubeError (Some c) m.

(** The ways a system call on an existing file can be refused.  ENOENT is
    not among them: it is what a call on a missing file fails with. *)
Inductive errno := EPERM | EACCES | EBUSY | EIO.

Definition errno_code (e : errno) : string :=
  match e with
  | EPERM => "EPERM"
  | EACCES => "EACCES"
  | EBUSY => "EBUSY"
  | EIO => "EIO"
  end.

(** An error raised by [fs.promises]: a plain [Error] with an errno code. *)
Definition fsError (c : string) : error := mkError PlainError (Some c) c.

(** An error raised by the transport: a plain [Error]; the transport never
    builds a [YoutubeError] or a [DownloadError]. *)
Record transport_error := mkTransportError {
  te_message : string;
  te_code : option string
}.

Definition ofTransport (t : transport_error) : error :=
  mkError PlainError (te_code t) (te_message t).

Inductive result (A : Type) :=
| Ok (a : A)
| Throw (e : error).
Arguments Ok {A} a.
Arguments Throw {A} e.

(** How one run of the ffmpeg child process ends. *)
Inductive ffmpeg_outcome :=
| FfmpegSpawnENOENT
| FfmpegSpawnError
| FfmpegExit (exit_code : Z) (written : option Z).

(** A file path in the form [path.parse] recovers: [dir], [name] and [ext]
    (the extension with its dot). *)
Record parsed_path := mkPath { dir : string; name : string; ext : string }.

(** How the yt-dlp phase of [downloadWithArgs] ends (everything up to and
    including [resolveOutputPath]): with a classified error, or with the
    path of the file yt-dlp wrote and its size. *)
Inductive ytdlp_outcome :=
| YtDlpFailed (e : error)
| YtDlpWrote (p : parsed_path) (size : Z).

(** What the reply capabilities are asked to send. *)
Inductive text :=
| TxtDownloadingVideo
| TxtDownloadingAudio
| TxtVideoSent
| TxtAudioSent
| TxtFailure (line : string).

Inductive event :=
| EvYtDlp (requestedHeight : option Z)
| EvFfmpeg (input output : string) (p : Profile.profile)
| EvStat (path : string)
| EvUnlink (path : string)
| EvWarn (path : string)
| EvReplyText (t : text)
| EvReplyVideo (path : string)
| EvReplyAudio (path : string).

(** The world: the download directory (path to size), the effects performed
    so far (oldest first), the answers the environment will give to the next
    calls of each kind (an exhausted tape answers with the default noted at
    each primitive), and the local variable [outputFile] of
    [processSelectedMedia]. *)
Record world := mkWorld {
  files : gmap string Z;
  trace : list event;
  ytdlp_tape : list ytdlp_outcome;
  ffmpeg_tape : list ffmpeg_outcome;
  stat_tape : list (option errno);
  unlink_tape : list (option errno);
  send_tape : list (option transport_error);
  outputFile : option string
}.

Definition M (A : Type) : Type := world → result A * world.

Definition ret {A} (a : A) : M A := fun w => (Ok a, w).

Definition throw {A} (e : error) : M A := fun w => (Throw e, w).

Definition bind {A B} (m : M A) (k : A → M B) : M B :=
  fun w => match m w with
           | (Ok a, w') => k a w'
           | (Throw e, w') => (Throw e, w')
           end.

(** [try { body } catch (e) { handler(e) }] *)
Definition try_catch {A} (body : M A) (handler : error → M A) : M A :=
  fun w => match body w with
           | (Ok a, w') => (Ok a, w')
           | (Throw e, w') => handler e w'
           end.

(** [try { body } finally { fin }]: [fin] runs on every exit of [body]; an
    exception of [fin] replaces the outcome of [body]. *)
Definition try_finally {A} (body : M A) (fin : M unit) : M A :=
  fun w => match body w with
           | (r, w1) =>
             match fin w1 with
             | (Ok _, w2) => (r, w2)
             | (Throw e, w2) => (Throw e, w2)
             end
           end.

(** The monad is used through stdpp's [x ← m; k] notation. *)
#[global] Instance M_ret : MRet M := @ret.
#[global] Instance M_bind : MBind M := fun A B k m => bind m k.

Definition log (e : event) (w : world) : world :=
  mkWorld (files w) (trace w ++ [e]) (ytdlp_tape w) (ffmpeg_tape w)
          (stat_tape w) (unlink_tape w) (send_tape w) (outputFile w).

Definition set_files (f : gmap string Z) (w : world) : world :=
  mkWorld f (trace w) (ytdlp_tape w) (ffmpeg_tape w)
          (stat_tape w) (unlink_tape w) (send_tape w) (outputFile w).

Definition with_outputFile (v : option string) (w : world) : world :=
  mkWorld (files w) (trace w) (ytdlp_tape w) (ffmpeg_tape w)
          (stat_tape w) (unlink_tape w) (send_tape w) v.

(** [outputFile = v] *)
Definition set_outputFile (v : option string) : M unit :=
  fun w => (Ok tt, with_outputFile v w).

Definition get_outputFile : M (option string) := fun w => (Ok (outputFile w), w).

Definition emit (e : event) : M unit := fun w => (Ok tt, log e w).

(** [path.join(dir, name + ext)] on a POSIX host. *)
Definition format (p : parsed_path) : string :=
  dir p +:+ "/" +:+ name p +:+ ext p.

(** [path.join(parsedRawPath.dir, `${parsedRawPath.name}-wa.mp4`)] *)
Definition convertedPathOf (raw : parsed_path) : string :=
  dir raw +:+ "/" +:+ (name raw +:+ "-wa.mp4").

(** *** File system primitives *)

(** [fs.promises.unlink(path)].  The next answer of the unlink tape says
    whether the system refuses the call, and with which errno (default: it
    does not); otherwise the call removes the file, or fails with ENOENT when
    there is no such file. *)
Definition unlink (path : string) : M unit :=
  fun w =>
    let w1 := log (EvUnlink path) w in
    let w2 := mkWorld (files w1) (trace w1) (ytdlp_tape w1) (ffmpeg_tape w1)
                      (stat_tape w1) (tail (unlink_tape w1)) (send_tape w1)
                      (outputFile w1) in
    match head (unlink_tape w) with
    | Some (Some refusal) => (Throw (fsError (errno_code refusal)), w2)
    | _ =>
      match files w !! path with
      | Some _ => (Ok tt, set_files (delete path (files w)) w2)
      | None => (Throw (fsError "ENOENT"), w2)
      end
    end.

(** [fs.promises.stat(path)], of which only [.size] is used. *)
Definition stat (path : string) : M Z :=
  fun w =>
    let w1 := log (EvStat path) w in
    let w2 := mkWorld (files w1) (trace w1) (ytdlp_tape w1) (ffmpeg_tape w1)
                      (tail (stat_tape w1)) (unlink_tape w1) (send_tape w1)
                      (outputFile w1) in
    match head (stat_tape w) with
    | Some (Some refusal) => (Throw (fsError (errno_code refusal)), w2)
    | _ =>
      match files w !! path with
      | Some size => (Ok size, w2)
      | None => (Throw (fsError "ENOENT"), w2)
      end
    end.

(** utils.js [safeUnlink]: a falsy path ([null], the empty string) is
    ignored; a failure of [unlink] is swallowed, with a warning unless it is
    ENOENT. *)
Definition safeUnlink (filePath : option string) : M unit :=
  match filePath with
  | None => ret tt
  | Some "" => ret tt
  | Some p =>
    try_catch (unlink p)
      (fun error =>
         if bool_decide (code error ≠ Some "ENOENT") then emit (EvWarn p) else ret tt)
  end.

End Fx.

(* ===================================================================== *)
(** ** downloader.js: acquisition and transcoding *)
(* ===================================================================== *)

Module Downloader.
Import Fx.

Record raw_result := mkRaw { rawPath : parsed_path; rawSize : Z }.

(** [{ filePath, fileSize }] *)
Record download_result := mkResult { filePath : string; fileSize : Z }.

(** The options of [downloadVideo] that matter here. *)
Record options := mkOptions {
  maxFileSize : Z;
  videoOptions : Profile.video_options
}.

Definition set_ffmpeg (f : gmap string Z) (w : world) : world :=
  mkWorld f (trace w) (ytdlp_tape w) (tail (ffmpeg_tape w))
          (stat_tape w) (unlink_tape w) (send_tape w) (outputFile w).

(** [runFfmpeg(inputPath, outputPath, ffmpegLocation, profile)].  The profile
    is clamped once more before it reaches the command line.  The child
    process ends as the ffmpeg tape says (default: the binary is missing);
    [-y] lets it overwrite [outputPath]. *)
Definition runFfmpeg (inputPath outputPath : string) (p : Profile.profile) : M unit :=
  fun w =>
    let maxHeight := Profile.clampNumber (Js.number_or (Some (Profile.maxHeight p)) 480) 240 720 in
    let crf := Profile.clampNumber (Js.number_or (Some (Profile.crf p)) 30) 18 40 in
    let audioBitrateKbps :=
      Profile.clampNumber (Js.number_or (Some (Profile.audioBitrateKbps p)) 64) 32 192 in
    let w1 := log (EvFfmpeg inputPath outputPath
                     (Profile.mkProfile maxHeight crf audioBitrateKbps)) w in
    match head (ffmpeg_tape w) with
    | None | Some FfmpegSpawnENOENT =>
      (Throw (newDownloadError "FFMPEG_NOT_FOUND" "ffmpeg nao encontrado no sistema."),
       set_ffmpeg (files w1) w1)
    | Some FfmpegSpawnError =>
      (Throw (newDownloadError "FFMPEG_ERROR" "Falha ao iniciar o ffmpeg."),
       set_ffmpeg (files w1) w1)
    | Some (FfmpegExit exit_code written) =>
      let files' := match written with
                    | Some size => <[outputPath := size]> (files w1)
                    | None => files w1
                    end in
      if exit_code =? 0 then (Ok tt, set_ffmpeg files' w1)
      else (Throw (newDownloadError "FFMPEG_ERROR"
                     "Falha na conversao de video para formato compativel."),
            set_ffmpeg files' w1)
    end.

(** The yt-dlp phase of [downloadWithArgs]: from [ensureDirectory] to
    [resolveOutputPath].  Its outcome is the next answer of the yt-dlp tape
    (default: the generic downloader failure). *)
Definition ytDlpPhase (videoMaxHeight : option Z) : M parsed_path :=
  fun w =>
    let w1 := log (EvYtDlp videoMaxHeight) w in
    let w2 f := mkWorld f (trace w1) (tail (ytdlp_tape w1)) (ffmpeg_tape w1)
                        (stat_tape w1) (unlink_tape w1) (send_tape w1)
                        (outputFile w1) in
    match head (ytdlp_tape w) with
    | None =>
      (Throw (newDownloadError "YTDLP_ERROR" "yt-dlp retornou erro durante o download."),
       w2 (files w1))
    | Some (YtDlpFailed e) => (Throw e, w2 (files w1))
    | Some (YtDlpWrote p size) => (Ok p, w2 (<[format p := size]> (files w1)))
    end.

Definition fileTooLarge : error :=
  newDownloadError "FILE_TOO_LARGE" "Arquivo acima do limite de tamanho permitido.".

(** [downloadWithArgs]: after the yt-dlp phase, stat the output and, unless
    [skipSizeValidation], enforce the size ceiling. *)
Definition downloadWithArgs (videoMaxHeight : option Z) (skipSizeValidation : bool)
    (maxFileSize : Z) : M raw_result :=
  p ← ytDlpPhase videoMaxHeight;
  size ← stat (format p);
  if negb skipSizeValidation && (size >? maxFileSize) then
    _ ← safeUnlink (Some (format p));
    throw fileTooLarge
  else
    mret (mkRaw p size).

Definition downloadAudio (opts : options) : M download_result :=
  r ← downloadWithArgs None false (maxFileSize opts);
  mret (mkResult (format (rawPath r)) (rawSize r)).

(** The body of the [try] block of [downloadVideo]. *)
Definition transcode (rawFile convertedPath : string)
    (compressionProfile : Profile.profile) (maxFileSize : Z) : M download_result :=
  _ ← runFfmpeg rawFile convertedPath compressionProfile;
  size ← stat convertedPath;
  size ← (if size >? maxFileSize then
            match Profile.buildFallbackVideoCompressionProfile compressionProfile with
            | Some fallbackProfile =>
              _ ← safeUnlink (Some convertedPath);
              _ ← runFfmpeg rawFile convertedPath fallbackProfile;
              stat convertedPath
            | None => mret size
            end
          else mret size);
  if size >? maxFileSize then
    _ ← safeUnlink (Some convertedPath);
    throw fileTooLarge
  else
    mret (mkResult convertedPath size).

Definition downloadVideo (durationSeconds : option Z) (opts : options) : M download_result :=
  let compressionProfile :=
    Profile.buildVideoCompressionProfile durationSeconds (videoOptions opts) in
  rawResult ← downloadWithArgs (Some (Profile.maxHeight compressionProfile)) true
                               (maxFileSize opts);
  let rawFile := format (rawPath rawResult) in
  let convertedPath := convertedPathOf (rawPath rawResult) in
  try_finally
    (transcode rawFile convertedPath compressionProfile (maxFileSize opts))
    (safeUnlink (Some rawFile)).

(** The number of transcoder runs in a trace. *)
Definition is_ffmpeg (e : event) : bool :=
  match e with EvFfmpeg _ _ _ => true | _ => false end.

Definition ffmpeg_runs (t : list event) : nat := length (filter is_ffmpeg t).

(** A world with nothing on disk and the given answers. *)
Definition fresh (yt : list ytdlp_outcome) (ff : list ffmpeg_outcome)
    (st ul : list (option errno)) : world :=
  mkWorld ∅ [] yt ff st ul [] None.

End Downloader.

(* ===================================================================== *)
(** ** JavaScript strings *)
(* ===================================================================== *)

Module Str.

(** A string as the list of its code units. *)
Abbreviation jsstring := (list ascii).

Definition str (s : string) : jsstring := String.list_ascii_of_string s.

Definition in_range (lo hi : N) (c : ascii) : bool :=
  ((lo <=? N_of_ascii c) && (N_of_ascii c <=? hi))%N.

(** [\d] (no [u] flag): the ten ASCII digits. *)
Definition is_digit (c : ascii) : bool := in_range 48 57 c.

(** [[a-z]] *)
Definition is_lower (c : ascii) : bool := in_range 97 122 c.

(** [\s], and what [trim] strips: TAB, LF, VT, FF, CR, SPACE and NBSP are the
    white space and line terminator code units below U+0100. *)
Definition is_space (c : ascii) : bool :=
  in_range 9 13 c || (N_of_ascii c =? 32)%N || (N_of_ascii c =? 160)%N.

(** [toLowerCase] on one code unit below U+0100: A-Z and the accented capitals
    U+00C0-U+00DE (the multiplication sign U+00D7 apart) move up by 32. *)
Definition lower_char (c : ascii) : ascii :=
  if in_range 65 90 c || (in_range 192 222 c && negb (N_of_ascii c =? 215)%N)
  then ascii_of_N (N_of_ascii c + 32)
  else c.

Definition toLowerCase (s : jsstring) : jsstring := map lower_char s.

Fixpoint drop_while (f : ascii → bool) (s : jsstring) : jsstring :=
  match s with
  | [] => []
  | c :: r => if f c then drop_while f r else s
  end.

Fixpoint take_while (f : ascii → bool) (s : jsstring) : jsstring :=
  match s with
  | [] => []
  | c :: r => if f c then c :: take_while f r else []
  end.

Definition trim (s : jsstring) : jsstring :=
  rev (drop_while is_space (rev (drop_while is_space s))).

Fixpoint starts_with (needle hay : jsstring) : bool :=
  match needle, hay with
  | [], _ => true
  | _ :: _, [] => false
  | a :: n, b :: h => bool_decide (a = b) && starts_with n h
  end.

(** [hay.includes(needle)] *)
Fixpoint includes (hay needle : jsstring) : bool :=
  starts_with needle hay ||
  match hay with
  | [] => false
  | _ :: h => includes h needle
  end.

Definition digit_value (c : ascii) : Z := Z.of_N (N_of_ascii c) - 48.

(** [Number(ds)] for a string of decimal digits that spells a number below
    [2^53]: up to there every whole number is a double and [Number] is exact.
    A larger number it rounds to a double, and to [Infinity] from about 309
    digits on, which this definition does not follow: it gives the number
    spelled.  What is stated of an index is stated below [2^53]. *)
Definition number_of_digits (ds : jsstring) : Z :=
  fold_left (fun acc c => 10 * acc + digit_value c) ds 0.

(** [s === t] *)
Definition eqb (s t : jsstring) : bool := bool_decide (s = t).

End Str.

(* ===================================================================== *)
(** ** config.js *)
(* ===================================================================== *)

Module Config.

(** The environment variables that the modelled settings read, after
    [Number(...)]: [None] is a variable that is unset or not a finite
    number. *)
Record environment := mkEnv {
  MAX_DURATION : option Z;
  MAX_AUDIO_DURATION : option Z;
  MAX_VIDEO_DURATION : option Z;
  MAX_FILE_SIZE : option Z;
  MAX_AUDIO_FILE_SIZE : option Z;
  MAX_VIDEO_FILE_SIZE : option Z;
  SELECTION_TIMEOUT_SECONDS : option Z
}.

Definition toPositiveNumber (value : option Z) (fallback : Z) : Z :=
  match value with
  | None => fallback
  | Some parsed => if parsed <=? 0 then fallback else parsed
  end.

Record config := mkConfig {
  maxAudioDuration : Z;
  maxVideoDuration : Z;
  maxAudioFileSize : Z;
  maxVideoFileSize : Z;
  selectionTimeoutSeconds : Z
}.

(** [legacyMaxDuration || 1800] *)
Definition or_default (v d : Z) : Z := if v =? 0 then d else v.

Definition load (env : environment) : config :=
  let legacyMaxDuration := toPositiveNumber (MAX_DURATION env) 0 in
  let legacyMaxFileSize := toPositiveNumber (MAX_FILE_SIZE env) (20 * 1024 * 1024) in
  {| maxAudioDuration :=
       toPositiveNumber (MAX_AUDIO_DURATION env) (or_default legacyMaxDuration 1800);
     maxVideoDuration := toPositiveNumber (MAX_VIDEO_DURATION env) 1200;
     maxAudioFileSize := toPositiveNumber (MAX_AUDIO_FILE_SIZE env) legacyMaxFileSize;
     maxVideoFileSize :=
       toPositiveNumber (MAX_VIDEO_FILE_SIZE env)
                        (Z.max legacyMaxFileSize (100 * 1024 * 1024));
     selectionTimeoutSeconds := toPositiveNumber (SELECTION_TIMEOUT_SECONDS env) 120 |}.

End Config.

(* ===================================================================== *)
(** ** index.js: selection store, reply parsing, duration policy *)
(* ===================================================================== *)

Module Bot.
Import Fx.

(** [MEDIA_AUDIO = 'audio'], [MEDIA_VIDEO = 'video'] *)
Inductive media := MEDIA_AUDIO | MEDIA_VIDEO.

#[global] Instance media_eq_dec : EqDecision media.
Proof. solve_decision. Defined.

Inductive kind := KindVideo | KindPlaylist.

(** A search result or playlist track. *)
Record candidate := mkCandidate {
  c_kind : kind;
  title : string;
  url : string;
  durationSeconds : option Z
}.

Inductive mode := search_results | playlist_tracks.

(** What [setPendingSelection] is given. *)
Record payload := mkPayload {
  p_mode : mode;
  p_options : list candidate;
  p_defaultMediaType : media
}.

(** [{ ...payload, expiresAt }] *)
Record pending := mkPending {
  selection : payload;
  expiresAt : Z
}.

(** *** The selection store: [pendingSelections], a [Map] keyed by chat id.
    [now] is the value of [Date.now()] at the call. *)

Definition setPendingSelection (cfg : Config.config) (now : Z) (chatId : string)
    (p : payload) (store : gmap string pending) : gmap string pending :=
  <[chatId := mkPending p (now + Config.selectionTimeoutSeconds cfg * 1000)]> store.

Definition getPendingSelection (now : Z) (chatId : string)
    (store : gmap string pending) : option pending * gmap string pending :=
  match store !! chatId with
  | None => (None, store)
  | Some p =>
    if now >? expiresAt p then (None, delete chatId store)
    else (Some p, store)
  end.

Definition clearPendingSelection (chatId : string)
    (store : gmap string pending) : gmap string pending :=
  delete chatId store.

(** *** Reply parsing *)

Definition normalizeMediaToken (token : Str.jsstring) : option media :=
  let value := Str.toLowerCase token in
  if Str.eqb value (Str.str "a") || Str.eqb value (Str.str "audio") then Some MEDIA_AUDIO
  else if Str.eqb value (Str.str "v") || Str.eqb value (Str.str "video") then Some MEDIA_VIDEO
  else None.

Definition nonempty (s : Str.jsstring) : bool :=
  match s with [] => false | _ => true end.

(** [/^\d+$/.test(value)] *)
Definition all_digits (value : Str.jsstring) : bool :=
  nonempty value && forallb Str.is_digit value.

(** [value.match(/^([a-z]+)\s*(\d+)$/)]: the two groups.  The three character
    classes are disjoint, so the match is the greedy one: the longest run of
    letters, then the longest run of white space, then digits to the end. *)
Definition match_mediaFirst (value : Str.jsstring) : option (Str.jsstring * Str.jsstring) :=
  let letters := Str.take_while Str.is_lower value in
  let rest := Str.drop_while Str.is_lower value in
  let digits := Str.drop_while Str.is_space rest in
  if nonempty letters && all_digits digits then Some (letters, digits) else None.

(** [value.match(/^(\d+)\s*([a-z]+)$/)] *)
Definition match_indexFirst (value : Str.jsstring) : option (Str.jsstring * Str.jsstring) :=
  let digits := Str.take_while Str.is_digit value in
  let rest := Str.drop_while Str.is_digit value in
  let letters := Str.drop_while Str.is_space rest in
  if nonempty digits && nonempty letters && forallb Str.is_lower letters
  then Some (digits, letters) else None.

(** [{ index, mediaType }], or [None] for [null]. *)
Definition parseSelectionChoice (text : Str.jsstring) (defaultMediaType : media)
    : option (Z * media) :=
  let value := Str.toLowerCase (Str.trim text) in
  if negb (nonempty value) then None
  else if all_digits value then Some (Str.number_of_digits value, defaultMediaType)
  else
    match match_mediaFirst value with
    | Some (token, digits) =>
      match normalizeMediaToken token with
      | None => None
      | Some mediaType => Some (Str.number_of_digits digits, mediaType)
      end
    | None =>
      match match_indexFirst value with
      | Some (digits, token) =>
        match normalizeMediaToken token with
        | None => None
        | Some mediaType => Some (Str.number_of_digits digits, mediaType)
        end
      | None => None
      end
    end.

(** *** Duration policy *)

Record support := mkSupport { s_audio : bool; s_video : bool }.

Definition getVideoSupport (cfg : Config.config) (video : candidate) : support :=
  let duration := Js.number_or (durationSeconds video) 0 in
  {| s_audio := (duration >? 0) && (duration <=? Config.maxAudioDuration cfg);
     s_video := (duration >? 0) && (duration <=? Config.maxVideoDuration cfg) |}.

Definition invalidDuration : error :=
  newYoutubeError "INVALID_DURATION" "Nao foi possivel determinar a duracao do video.".

Definition durationLimit (mediaType : media) : error :=
  newYoutubeError
    (match mediaType with
     | MEDIA_VIDEO => "VIDEO_DURATION_LIMIT"
     | MEDIA_AUDIO => "AUDIO_DURATION_LIMIT"
     end)
    "Duracao acima do limite permitido.".

(** Returns normally ([Ok tt]) or throws. *)
Definition assertDurationForMedia (cfg : Config.config) (video : candidate)
    (mediaType : media) : result unit :=
  let duration := Js.number_or (durationSeconds video) 0 in
  let limit := match mediaType with
               | MEDIA_VIDEO => Config.maxVideoDuration cfg
               | MEDIA_AUDIO => Config.maxAudioDuration cfg
               end in
  if (duration =? 0) || (duration <=? 0) then Throw invalidDuration
  else if duration >? limit then Throw (durationLimit mediaType)
  else Ok tt.

End Bot.

(* ===================================================================== *)
(** ** index.js: running one queued job *)
(* ===================================================================== *)

Module Pipeline.
Import Fx Bot.

(** [String(n).padStart(2, '0')] *)
Definition pad2 (n : Z) : string :=
  let s := pretty n in
  if (String.length s <? 2)%nat then "0" +:+ s else s.

(** utils.js [formatSeconds] *)
Definition formatSeconds (totalSeconds : Z) : string :=
  let seconds := Z.max 0 (Js.number_or (Some totalSeconds) 0) in
  let hours := seconds / 3600 in
  let minutes := (seconds mod 3600) / 60 in
  let remainingSeconds := seconds mod 60 in
  if hours >? 0 then pad2 hours +:+ ":" +:+ pad2 minutes +:+ ":" +:+ pad2 remainingSeconds
  else pad2 minutes +:+ ":" +:+ pad2 remainingSeconds.

Definition getMaxSearchDuration (cfg : Config.config) : Z :=
  Z.max (Config.maxAudioDuration cfg) (Config.maxVideoDuration cfg).

(** [error.code === c] *)
Definition has_code (e : error) (c : string) : bool := bool_decide (code e = Some c).

Definition mapPlayError (cfg : Config.config) (e : error) : string :=
  match cls e with
  | YoutubeError =>
    if has_code e "INVALID_URL" then
      "URL invalida. Envie um link valido do YouTube ou um termo de busca."
    else if has_code e "NOT_FOUND" then "Nada encontrado para essa busca."
    else if has_code e "DURATION_LIMIT" then
      "Duracao acima do limite de busca (" +:+ formatSeconds (getMaxSearchDuration cfg) +:+ ")."
    else if has_code e "AUDIO_DURATION_LIMIT" then
      "Audio acima do limite de " +:+ formatSeconds (Config.maxAudioDuration cfg) +:+ "."
    else if has_code e "VIDEO_DURATION_LIMIT" then
      "Video acima do limite de " +:+ formatSeconds (Config.maxVideoDuration cfg)
        +:+ ". Escolha audio para esse item."
    else if has_code e "PLAYLIST_NOT_FOUND" then "Playlist nao encontrada."
    else if has_code e "PLAYLIST_NO_VALID_VIDEOS" then
      "Playlist sem faixas validas para os limites configurados."
    else "Falha ao consultar o YouTube."
  | DownloadError =>
    if has_code e "YTDLP_NOT_FOUND" then "yt-dlp nao encontrado no servidor."
    else if has_code e "FFMPEG_NOT_FOUND" then "ffmpeg nao encontrado no servidor."
    else if has_code e "FFMPEG_ERROR" then
      "Falha ao converter o video para formato compativel do WhatsApp."
    else if has_code e "FILE_TOO_LARGE" then
      "O arquivo final ficou muito grande para envio no WhatsApp."
    else "Erro ao baixar/converter midia com yt-dlp."
  | PlainError =>
    if has_code e "WHATSAPP_NOT_CONNECTED" then
      "WhatsApp temporariamente desconectado. Tente novamente em instantes."
    else if has_code e "WHATSAPP_SEND_AUDIO_FAILED" then "Falha ao enviar o audio no WhatsApp."
    else if has_code e "WHATSAPP_SEND_VIDEO_FAILED" then "Falha ao enviar o video no WhatsApp."
    else "Erro interno ao processar sua solicitacao."
  end.

Definition isWhatsAppSizeError (e : error) : bool :=
  let rawMessage := Str.toLowerCase (Str.str (message e)) in
  Str.includes rawMessage (Str.str "too large")
  || Str.includes rawMessage (Str.str "media too big")
  || Str.includes rawMessage (Str.str "413").

(** One reply capability: the transport accepts the message or rejects it
    with the next answer of the send tape (default: accepted). *)
Definition send (e : event) : M unit :=
  fun w =>
    let w1 := log e w in
    let w2 := mkWorld (files w1) (trace w1) (ytdlp_tape w1) (ffmpeg_tape w1)
                      (stat_tape w1) (unlink_tape w1) (tail (send_tape w1))
                      (outputFile w1) in
    match head (send_tape w) with
    | Some (Some failure) => (Throw (ofTransport failure), w2)
    | _ => (Ok tt, w2)
    end.

Definition replyText (t : text) : M unit := send (EvReplyText t).

(** [replyVideo(outputFile, caption)]; [outputFile] is a path when it is
    called. *)
Definition replyVideo (file : option string) : M unit :=
  send (EvReplyVideo (default "" file)).

Definition replyAudio (file : option string) : M unit :=
  send (EvReplyAudio (default "" file)).

(** The send-failed code of each media type. *)
Definition sendFailedCode (mediaType : media) : string :=
  match mediaType with
  | MEDIA_VIDEO => "WHATSAPP_SEND_VIDEO_FAILED"
  | MEDIA_AUDIO => "WHATSAPP_SEND_AUDIO_FAILED"
  end.

(** The two [catch (sendError)] blocks of [processSelectedMedia]: what is
    thrown on to the outer [catch]. *)
Definition rethrowSendError (mediaType : media) (sendError : error) : error :=
  if isWhatsAppSizeError sendError then
    newDownloadError "FILE_TOO_LARGE" "Arquivo excede o limite de envio do WhatsApp."
  else
    mkError (cls sendError) (Some (sendFailedCode mediaType)) (message sendError).

(** The download of each media type, as [processSelectedMedia] calls it: only
    [downloadPath] and [maxFileSize] are passed. *)
Definition download (cfg : Config.config) (video : candidate) (mediaType : media)
    : M Downloader.download_result :=
  match mediaType with
  | MEDIA_VIDEO =>
    Downloader.downloadVideo (durationSeconds video)
      (Downloader.mkOptions (Config.maxVideoFileSize cfg)
                            (Profile.mkVideoOptions None None None))
  | MEDIA_AUDIO =>
    Downloader.downloadAudio
      (Downloader.mkOptions (Config.maxAudioFileSize cfg)
                            (Profile.mkVideoOptions None None None))
  end.

Definition processSelectedMedia (cfg : Config.config) (video : candidate)
    (mediaType : media) : M unit :=
  _ ← set_outputFile None;
  try_finally
    (try_catch
       (match mediaType with
        | MEDIA_VIDEO =>
          _ ← replyText TxtDownloadingVideo;
          downloadResult ← download cfg video MEDIA_VIDEO;
          _ ← set_outputFile (Some (Downloader.filePath downloadResult));
          file ← get_outputFile;
          _ ← try_catch (replyVideo file)
                (fun sendError => throw (rethrowSendError MEDIA_VIDEO sendError));
          replyText TxtVideoSent
        | MEDIA_AUDIO =>
          _ ← replyText TxtDownloadingAudio;
          downloadResult ← download cfg video MEDIA_AUDIO;
          _ ← set_outputFile (Some (Downloader.filePath downloadResult));
          file ← get_outputFile;
          _ ← try_catch (replyAudio file)
                (fun sendError => throw (rethrowSendError MEDIA_AUDIO sendError));
          replyText TxtAudioSent
        end)
       (fun error => replyText (TxtFailure (mapPlayError cfg error))))
    (file ← get_outputFile; safeUnlink file).

(** The failure lines reported to the user in a trace, oldest first. *)
Definition failure_line (e : event) : option string :=
  match e with EvReplyText (TxtFailure line) => Some line | _ => None end.

Definition reported (t : list event) : list string := omap failure_line t.

End Pipeline.

(* ===================================================================== *)
(** ** queue.js: DownloadQueue *)
(* ===================================================================== *)

Module Queue.
Local Open Scope nat_scope.

(** What calling [task()] does: it throws before returning, or it returns a
    promise (or a plain value), which [await] then waits for. *)
Inductive behaviour := ThrowsOnCall | ReturnsPromise.

Record task := mkTask { label : nat; onCall : behaviour }.

(** How a completion handle settles: [resolveTask] or [rejectTask]. *)
Inductive outcome := Resolved | Rejected.

(** The queue object and what is observable of its runs.
    - [items], [running]: the two fields of the object;
    - [awaiting]: the suspended invocations of [process], each by the task in
      its local variable [current], whose promise it awaits; these are the
      tasks that have been called and have not finished;
    - [settled]: the completion handles settled so far, oldest first;
    - [enqueued]: the tasks passed to [add] so far, oldest first. *)
Record queue := mkQueue {
  items : list task;
  running : bool;
  awaiting : list task;
  settled : list (task * outcome);
  enqueued : list task
}.

(** [new DownloadQueue()] *)
Definition empty : queue := mkQueue [] false [] [] [].

(** The [while] loop of [process], from its test: it runs until it awaits a
    task or finds [items] empty, where it clears [running].  A task that
    throws on call is rejected and shifted without a suspension. *)
Fixpoint loop (its awaiting : list task) (settled : list (task * outcome))
    (enqueued : list task) : queue :=
  match its with
  | [] => mkQueue [] false awaiting settled enqueued
  | current :: rest =>
    match onCall current with
    | ThrowsOnCall => loop rest awaiting (settled ++ [(current, Rejected)]) enqueued
    | ReturnsPromise => mkQueue its true (awaiting ++ [current]) settled enqueued
    end
  end.

(** [process()] up to its first suspension. *)
Definition process (q : queue) : queue :=
  if running q then q
  else loop (items q) (awaiting q) (settled q) (enqueued q).

(** [items.push(job)]: appends and returns the new length. *)
Definition push (t : task) (q : queue) : nat * queue :=
  let items' := items q ++ [t] in
  (length items',
   mkQueue items' (running q) (awaiting q) (settled q) (enqueued q ++ [t])).

(** [add(task)]: the position and the queue after the call returned. *)
Definition add (t : task) (q : queue) : nat * queue :=
  let '(position, q1) := push t q in
  (position, process q1).

(** The promise awaited by the oldest suspended invocation of [process]
    settles: the invocation resumes, settles the handle of its [current],
    shifts [items] and goes on with the loop.  With nothing awaited nothing
    can settle. *)
Definition settle (o : outcome) (q : queue) : queue :=
  match awaiting q with
  | [] => q
  | current :: others =>
    loop (tail (items q)) others (settled q ++ [(current, o)]) (enqueued q)
  end.

Inductive event := Add (t : task) | Settle (o : outcome).

Definition step (q : queue) (e : event) : queue :=
  match e with
  | Add t => (add t q).2
  | Settle o => settle o q
  end.

Definition run (evs : list event) : queue := fold_left step evs empty.

(** The positions returned by the [add] calls of a run, oldest first. *)
Fixpoint positions (q : queue) (evs : list event) : list nat :=
  match evs with
  | [] => []
  | Add t :: r => (add t q).1 :: positions (add t q).2 r
  | Settle o :: r => positions (settle o q) r
  end.

(** The invariant of the reachable queues. *)

Record inv (q : queue) : Prop := mkInv {
  inv_running : running q = match items q with [] => false | _ => true end;
  inv_awaiting : awaiting q = take 1 (items q);
  inv_order : map fst (settled q) ++ items q = enqueued q
}.

End Queue.

(* ===================================================================== *)
(** ** commands.js *)
(* ===================================================================== *)

Module Commands.

(** The query of a [/play] or [/video] command: [{ error: 'EMPTY_QUERY' }] or
    [{ query }]. *)
Inductive query := EMPTY_QUERY | Query (text : Str.jsstring).

(** The result of [parseCommand], by its [type]. *)
Inductive parsed :=
| none
| help
| cancel
| play (q : query)
| video (q : query)
| unknown (command : Str.jsstring).

(** The code unit U+0020, the only one [indexOf(' ')] looks for. *)
Definition is_blank (c : ascii) : bool := (N_of_ascii c =? 32)%N.

Definition not_blank (c : ascii) : bool := negb (is_blank c).

(** [text.startsWith('/')] *)
Definition starts_with_slash (text : Str.jsstring) : bool :=
  Str.starts_with (Str.str "/") text.

(** [firstSpace === -1 ? text : text.slice(0, firstSpace)] *)
Definition rawCommand (text : Str.jsstring) : Str.jsstring :=
  Str.take_while not_blank text.

(** [firstSpace === -1 ? '' : text.slice(firstSpace + 1)] *)
Definition afterCommand (text : Str.jsstring) : Str.jsstring :=
  tail (Str.drop_while not_blank text).

(** [{ type, error: 'EMPTY_QUERY' }] when the trimmed rest is empty,
    [{ type, query }] otherwise. *)
Definition queryOf (text : Str.jsstring) : query :=
  let q := Str.trim (afterCommand text) in
  match q with
  | [] => EMPTY_QUERY
  | _ => Query q
  end.

(** [rawText] is a string here; the empty one is falsy. *)
Definition parseCommand (rawText : Str.jsstring) : parsed :=
  match rawText with
  | [] => none
  | _ =>
    let text := Str.trim rawText in
    if negb (starts_with_slash text) then none
    else
      let command := Str.toLowerCase (rawCommand text) in
      if Str.eqb command (Str.str "/help") then help
      else if Str.eqb command (Str.str "/cancel") then cancel
      else if Str.eqb command (Str.str "/play") then play (queryOf text)
      else if Str.eqb command (Str.str "/video") then video (queryOf text)
      else unknown command
  end.

End Commands.

(* ===================================================================== *)
(** ** youtube.js: the pure parts *)
(* ===================================================================== *)

Module Youtube.

(** [assertVideoDuration(video, maxDurationSeconds)] on a video that is there:
    a duration that is missing, zero or negative is INVALID_DURATION, one over
    the ceiling is DURATION_LIMIT. *)
Definition assertVideoDuration (video : Bot.candidate) (maxDurationSeconds : Z)
    : Fx.result unit :=
  match Bot.durationSeconds video with
  | None => Fx.Throw Bot.invalidDuration
  | Some d =>
    if (d =? 0) || (d <=? 0) then Fx.Throw Bot.invalidDuration
    else if d >? maxDurationSeconds then
      Fx.Throw (Fx.newYoutubeError "DURATION_LIMIT" "Video acima do limite permitido.")
    else Fx.Ok tt
  end.

(** The [while] loop of [combineSearchResults], by the room left in [mixed]
    (the number of options that can still be pushed before [mixed.length]
    reaches [maxTotalOptions]) and the options not yet taken: each turn takes
    a video if there is one, stops if [mixed] is full, and takes a playlist if
    there is one. *)
Fixpoint interleave {A} (room : nat) (videoOptions playlistOptions : list A) : list A :=
  match room with
  | O => []
  | S room' =>
    match videoOptions with
    | v :: videos =>
      v :: match room' with
           | O => []
           | S room'' =>
             match playlistOptions with
             | p :: playlists => p :: interleave room'' videos playlists
             | [] => interleave room' videos []
             end
           end
    | [] =>
      match playlistOptions with
      | p :: playlists => p :: interleave room' [] playlists
      | [] => []
      end
    end
  end.

(** [maxTotalOptions] is a finite number, not always a whole one
    ([toPositiveNumber] does not round): here a rational.  The two tests,
    [mixed.length < maxTotalOptions] and [mixed.length >= maxTotalOptions],
    compare a length with it, so the room at the start is [maxTotalOptions]
    rounded up, and none for a ceiling of zero or less. *)
Definition combineSearchResults {A} (videoOptions playlistOptions : list A)
    (maxTotalOptions : QArith_base.Q) : list A :=
  interleave (Z.to_nat (Qround.Qceiling maxTotalOptions)) videoOptions playlistOptions.

End Youtube.

(* ===================================================================== *)
(** ** index.js: the support label *)
(* ===================================================================== *)

Module Label.

Definition getVideoSupportLabel (cfg : Config.config) (video : Bot.candidate) : string :=
  let support := Bot.getVideoSupport cfg video in
  if Bot.s_audio support && Bot.s_video support then "A/V"
  else if Bot.s_audio support then "A"
  else if Bot.s_video support then "V"
  else "-".

(** The support flag of a media type. *)
Definition supports (cfg : Config.config) (video : Bot.candidate) (m : Bot.media) : bool :=
  match m with
  | Bot.MEDIA_AUDIO => Bot.s_audio (Bot.getVideoSupport cfg video)
  | Bot.MEDIA_VIDEO => Bot.s_video (Bot.getVideoSupport cfg video)
  end.

End Label.

(* ===================================================================== *)
(** ** config.js: bounded settings *)
(* ===================================================================== *)

Module Range.

(** [toRangeNumber(value, fallback, min, max)], on what [Number(value)]
    gave: a finite number, here a rational, or [None] for [NaN] and the
    infinities.  [Math.floor] is taken before the bounds are checked. *)
Definition toRangeNumber (value : option QArith_base.Q) (fallback min max : Z) : Z :=
  match value with
  | None => fallback
  | Some parsed =>
    let bounded := Qround.Qfloor parsed in
    if (bounded <? min) || (bounded >? max) then fallback else bounded
  end.

(** [audioQuality: toRangeNumber(process.env.AUDIO_QUALITY, 5, 0, 9)] *)
Definition audioQuality (AUDIO_QUALITY : option QArith_base.Q) : Z :=
  toRangeNumber AUDIO_QUALITY 5 0 9.

End Range.

(* ===================================================================== *)
(** ** index.js: the message handler *)
(* ===================================================================== *)

(** One invocation of [handleIncomingCommand], run to its end.  What it calls
    outside the process is given with it: the functions of youtube.js, which
    ask the network and answer with options or an error, [isLikelyUrl], and
    the two readings of the clock; each is consulted at most once in an
    invocation.  The transport answers the replies of the invocation, in
    order, from a tape, as in [Pipeline.send].  The job handed to the queue
    is an [async] function: it returns a promise when called.

    What a job does once it is in the queue is no part of the invocation: it
    starts inside [queue.add] when the queue is idle, so that its announcement
    reaches the transport before the reply with the position, and it runs on
    while the handler waits for the transport.  The session holds what the
    steps of the handler themselves do: nothing is stated of the queue after a
    job was handed over, nor of the order of the replies of the handler and
    those of the jobs. *)
Module Chat.
Import Fx Bot.

(** The texts the handler replies with. *)
Inductive reply :=
| NothingToCancel
| Cancelled
| Prompt
| Help
| InvalidCommand
| Usage (mediaType : media)
| Failure (line : string)
| InvalidOption (count : nat)
| LoadingPlaylist
| PlaylistOptions (options : list candidate) (defaultMediaType : media)
| Validating
| Searching
| SearchOptions (options : list candidate) (defaultMediaType : media)
| Received (position : nat).

Record services := mkServices {
  isLikelyUrl : Str.jsstring → bool;
  getVideoFromInput : Str.jsstring → result candidate;
  searchMediaOptions : Str.jsstring → result (list candidate);
  getPlaylistOptions : Str.jsstring → result (list candidate);
  (** [Date.now()] in [getPendingSelection] and in [setPendingSelection] *)
  now : Z;
  later : Z
}.

(** The module state and what is observable of the invocation:
    [pendingSelections] and [queue] are the two module constants, [queue] as
    the calls of the handler leave it; [jobs] are the jobs handed to the
    queue so far, the label of a task being its index here; [replies] are the
    texts the handler gives to [replyText], oldest first; [answers] are the
    answers of the transport to them. *)
Record session := mkSession {
  pendingSelections : gmap string pending;
  queue : Queue.queue;
  jobs : list (candidate * media);
  replies : list reply;
  answers : list (option transport_error)
}.

Definition M (A : Type) : Type := session → result A * session.

Definition ret {A} (a : A) : M A := fun s => (Ok a, s).

Definition throw {A} (e : error) : M A := fun s => (Throw e, s).

Definition bind {A B} (m : M A) (k : A → M B) : M B :=
  fun s => match m s with
           | (Ok a, s') => k a s'
           | (Throw e, s') => (Throw e, s')
           end.

Definition try_catch {A} (body : M A) (handler : error → M A) : M A :=
  fun s => match body s with
           | (Ok a, s') => (Ok a, s')
           | (Throw e, s') => handler e s'
           end.

#[global] Instance M_ret : MRet M := @ret.
#[global] Instance M_bind : MBind M := fun A B k m => bind m k.

(** A call that returns or throws and leaves the session as it is. *)
Definition call {A} (r : result A) : M A := fun s => (r, s).

Definition set_store (store : gmap string pending) (s : session) : session :=
  mkSession store (queue s) (jobs s) (replies s) (answers s).

(** [await replyText(text)] *)
Definition replyText (text : reply) : M unit :=
  fun s =>
    let s' := mkSession (pendingSelections s) (queue s) (jobs s) (replies s ++ [text])
                        (tail (answers s)) in
    match head (answers s) with
    | Some (Some failure) => (Throw (ofTransport failure), s')
    | _ => (Ok tt, s')
    end.

Definition getPending (sv : services) (chatId : string) : M (option pending) :=
  fun s =>
    let '(found, store) := getPendingSelection (now sv) chatId (pendingSelections s) in
    (Ok found, set_store store s).

Definition setPending (cfg : Config.config) (sv : services) (chatId : string)
    (p : payload) : M unit :=
  fun s => (Ok tt, set_store (setPendingSelection cfg (later sv) chatId p
                                (pendingSelections s)) s).

Definition clearPending (chatId : string) : M unit :=
  fun s => (Ok tt, set_store (clearPendingSelection chatId (pendingSelections s)) s).

(** [enqueueMediaJob]: [queue.add] of the job, then the reply with the
    position.  The queue is the one [queue.add] returns with; the job itself
    is not run here. *)
Definition enqueueMediaJob (video : candidate) (mediaType : media) : M unit :=
  fun s =>
    let '(position, q) :=
      Queue.add (Queue.mkTask (length (jobs s)) Queue.ReturnsPromise) (queue s) in
    replyText (Received position)
      (mkSession (pendingSelections s) q (jobs s ++ [(video, mediaType)])
                 (replies s) (answers s)).

Definition showPlaylistTracks (cfg : Config.config) (sv : services) (chatId : string)
    (playlistInput : Str.jsstring) (defaultMediaType : media) : M unit :=
  _ ← replyText LoadingPlaylist;
  videoOptions ← call (getPlaylistOptions sv playlistInput);
  _ ← setPending cfg sv chatId (mkPayload playlist_tracks videoOptions defaultMediaType);
  replyText (PlaylistOptions videoOptions defaultMediaType).

(** [error instanceof YoutubeError && error.code === 'PLAYLIST_URL_DETECTED'] *)
Definition isPlaylistUrlDetected (e : error) : bool :=
  match cls e with
  | YoutubeError => Pipeline.has_code e "PLAYLIST_URL_DETECTED"
  | _ => false
  end.

Definition handlePlayCommand (cfg : Config.config) (sv : services) (chatId : string)
    (query : Str.jsstring) (defaultMediaType : media) : M unit :=
  _ ← clearPending chatId;
  if isLikelyUrl sv query then
    _ ← replyText Validating;
    try_catch
      (video ← call (getVideoFromInput sv query);
       _ ← call (assertDurationForMedia cfg video defaultMediaType);
       enqueueMediaJob video defaultMediaType)
      (fun error =>
         if isPlaylistUrlDetected error
         then showPlaylistTracks cfg sv chatId query defaultMediaType
         else throw error)
  else
    _ ← replyText Searching;
    options ← call (searchMediaOptions sv query);
    _ ← setPending cfg sv chatId (mkPayload search_results options defaultMediaType);
    replyText (SearchOptions options defaultMediaType).

(** [pending.options[index - 1]] *)
Definition optionAt (options : list candidate) (index : Z) : option candidate :=
  if index - 1 <? 0 then None else options !! Z.to_nat (index - 1).

Definition handlePendingSelection (cfg : Config.config) (sv : services) (chatId : string)
    (p : pending) (choice : Z * media) : M unit :=
  let '(index, mediaType) := choice in
  let options := p_options (selection p) in
  match optionAt options index with
  | None => replyText (InvalidOption (length options))
  | Some option =>
    match p_mode (selection p), c_kind option with
    | search_results, KindPlaylist =>
      _ ← clearPending chatId;
      showPlaylistTracks cfg sv chatId (Str.str (url option)) mediaType
    | _, _ =>
      _ ← call (assertDurationForMedia cfg option mediaType);
      _ ← clearPending chatId;
      enqueueMediaJob option mediaType
    end
  end.

(** The [catch] blocks of [handleIncomingCommand]. *)
Definition replyFailure (cfg : Config.config) (error : error) : M unit :=
  replyText (Failure (Pipeline.mapPlayError cfg error)).

(** [handleIncomingCommand] from the test of [parsed.type === 'none'] on. *)
Definition handleCommand (cfg : Config.config) (sv : services) (chatId : string)
    (parsed : Commands.parsed) : M unit :=
  match parsed with
  | Commands.none => ret tt
  | Commands.help => replyText Help
  | Commands.unknown _ => replyText InvalidCommand
  | Commands.play Commands.EMPTY_QUERY => replyText (Usage MEDIA_AUDIO)
  | Commands.video Commands.EMPTY_QUERY => replyText (Usage MEDIA_VIDEO)
  | Commands.play (Commands.Query query) =>
    try_catch (handlePlayCommand cfg sv chatId query MEDIA_AUDIO) (replyFailure cfg)
  | Commands.video (Commands.Query query) =>
    try_catch (handlePlayCommand cfg sv chatId query MEDIA_VIDEO) (replyFailure cfg)
  | Commands.cancel => ret tt
  end.

Definition handleIncomingCommand (cfg : Config.config) (sv : services) (chatId : string)
    (text : Str.jsstring) : M unit :=
  let normalizedText := Str.trim text in
  found ← getPending sv chatId;
  let parsed := Commands.parseCommand normalizedText in
  match parsed, found with
  | Commands.cancel, None => replyText NothingToCancel
  | Commands.cancel, Some _ =>
    _ ← clearPending chatId;
    replyText Cancelled
  | _, Some p =>
    match parseSelectionChoice normalizedText (p_defaultMediaType (selection p)) with
    | Some choice => try_catch (handlePendingSelection cfg sv chatId p choice) (replyFailure cfg)
    | None =>
      if negb (Commands.starts_with_slash normalizedText) then replyText Prompt
      else handleCommand cfg sv chatId parsed
    end
  | _, None => handleCommand cfg sv chatId parsed
  end.

End Chat.

(* ===================================================================== *)
(** ** The vocabulary of the properties *)
(* ===================================================================== *)

(** *** Runs of the queue *)

(** The tasks passed to [add] in a run, oldest first. *)
Definition added (evs : list Queue.event) : list Queue.task :=
  omap (fun e => match e with Queue.Add t => Some t | Queue.Settle _ => None end) evs.

(** *** Runs of the downloader *)

(** [m] keeps the property [P] of the world, however it ends. *)
Definition preserves {A} (P : Fx.world → Prop) (m : Fx.M A) : Prop :=
  ∀ w, P w → P (m w).2.

(** No unlink is refused by the file system from here on. *)
Definition unlink_allowed (w : Fx.world) : Prop :=
  Forall (λ answer, answer = None) (Fx.unlink_tape w).

(** [w] is a later world of the run that was in [w0]: the trace has only
    grown, and if no unlink was going to be refused none is going to be. *)
Definition later_than (w0 w : Fx.world) : Prop :=
  (∃ more, Fx.trace w = Fx.trace w0 ++ more)
  ∧ (unlink_allowed w0 → unlink_allowed w).

(** *** Transport failures *)

(** [needle] occurs in [msg] up to letter case. *)
Definition contains_ci (msg needle : Str.jsstring) : Prop :=
  ∃ pre mid post, msg = pre ++ mid ++ post ∧ Str.toLowerCase mid = needle.

(** The line reported for a send failure of each media type. *)
Definition sendFailedLine (mediaType : Bot.media) : string :=
  match mediaType with
  | Bot.MEDIA_VIDEO => "Falha ao enviar o video no WhatsApp."
  | Bot.MEDIA_AUDIO => "Falha ao enviar o audio no WhatsApp."
  end.

(** The announcement that opens a job of each media type. *)
Definition announcement (mediaType : Bot.media) : Fx.text :=
  match mediaType with
  | Bot.MEDIA_VIDEO => Fx.TxtDownloadingVideo
  | Bot.MEDIA_AUDIO => Fx.TxtDownloadingAudio
  end.

(** *** Replies *)

(** Every code unit of [s] is in the class [f]. *)
Definition all (f : ascii → bool) (s : Str.jsstring) : Prop := Forall (λ c, f c = true) s.

(** [s] does not start with a member of [f]. *)
Definition stops (f : ascii → bool) (s : Str.jsstring) : Prop :=
  match s with [] => True | c :: _ => f c = false end.


(** [value] is [token], white space, [digits]. *)
Definition media_first (value token digits : Str.jsstring) : Prop :=
  ∃ ws, value = token ++ ws ++ digits
        ∧ token ≠ [] ∧ all Str.is_lower token
        ∧ all Str.is_space ws
        ∧ digits ≠ [] ∧ all Str.is_digit digits.

(** [value] is [digits], white space, [token]. *)
Definition index_first (value digits token : Str.jsstring) : Prop :=
  ∃ ws, value = digits ++ ws ++ token
        ∧ digits ≠ [] ∧ all Str.is_digit digits
        ∧ all Str.is_space ws
        ∧ token ≠ [] ∧ all Str.is_lower token.

(** The media type a letter token names. *)
Definition names (token : Str.jsstring) (m : Bot.media) : Prop :=
  match m with
  | Bot.MEDIA_AUDIO => token = Str.str "a" ∨ token = Str.str "audio"
  | Bot.MEDIA_VIDEO => token = Str.str "v" ∨ token = Str.str "video"
  end.

(** The result for a reply with a media token: the index the digits spell,
    with the media type the token names, or [null] where it names none. *)
Definition with_token (digits token : Str.jsstring) : option (Z * Bot.media) :=
  (λ mediaType, (Str.number_of_digits digits, mediaType)) <$> Bot.normalizeMediaToken token.

(* ===================================================================== *)
(** ** The vocabulary of the further properties *)
(* ===================================================================== *)

#[global] Instance kind_eq_dec : EqDecision Bot.kind.
Proof. solve_decision. Defined.

(** The videos and the playlists among search options. *)
Definition videos_of (options : list Bot.candidate) : list Bot.candidate :=
  filter (λ c, Bot.c_kind c = Bot.KindVideo) options.

Definition playlists_of (options : list Bot.candidate) : list Bot.candidate :=
  filter (λ c, Bot.c_kind c = Bot.KindPlaylist) options.

(** The profiles ffmpeg was run with in a trace, oldest first. *)
Definition ffmpeg_profiles (t : list Fx.event) : list Profile.profile :=
  omap (λ e, match e with Fx.EvFfmpeg _ _ p => Some p | _ => None end) t.

(** The number of times a trace enters the yt-dlp phase of
    [downloadWithArgs], in which yt-dlp is started at most once. *)
Definition ytdlp_runs (t : list Fx.event) : nat :=
  length (omap (λ e, match e with Fx.EvYtDlp h => Some h | _ => None end) t).

(** An extension as [path.parse] yields it: empty, or starting with a dot. *)
Definition parsed_ext (e : string) : Prop :=
  e = "" ∨ ∃ rest, e = String "."%char rest.


(** Since the world [w0], the run has given ffmpeg the profiles [ps], in this
    order, and has entered the yt-dlp phase [n] times. *)
Definition ran (w0 : Fx.world) (ps : list Profile.profile) (n : nat) (w : Fx.world) : Prop :=
  ffmpeg_profiles (Fx.trace w) = ffmpeg_profiles (Fx.trace w0) ++ ps
  ∧ ytdlp_runs (Fx.trace w) = (ytdlp_runs (Fx.trace w0) + n)%nat.

(** *** Jobs *)

(** The events of the host: child processes, file system calls and
    warnings; the others are the replies. *)
Definition internal (e : Fx.event) : bool :=
  match e with
  | Fx.EvReplyText _ | Fx.EvReplyVideo _ | Fx.EvReplyAudio _ => false
  | _ => true
  end.

(** The replies attempted in a trace, oldest first. *)
Definition replies (t : list Fx.event) : list Fx.event :=
  omap (λ e, if internal e then None else Some e) t.

(** The media messages attempted in a trace: kind and file. *)
Definition media_of (e : Fx.event) : option (Bot.media * string) :=
  match e with
  | Fx.EvReplyVideo file => Some (Bot.MEDIA_VIDEO, file)
  | Fx.EvReplyAudio file => Some (Bot.MEDIA_AUDIO, file)
  | _ => None
  end.

Definition media_sent (t : list Fx.event) : list (Bot.media * string) := omap media_of t.

(** The reply capability that carries the file of each media type. *)
Definition replyMedia (mediaType : Bot.media) : option string → Fx.M unit :=
  match mediaType with
  | Bot.MEDIA_VIDEO => Pipeline.replyVideo
  | Bot.MEDIA_AUDIO => Pipeline.replyAudio
  end.

(** The confirmation that closes a job of each media type. *)
Definition confirmation (mediaType : Bot.media) : Fx.text :=
  match mediaType with
  | Bot.MEDIA_VIDEO => Fx.TxtVideoSent
  | Bot.MEDIA_AUDIO => Fx.TxtAudioSent
  end.

(** The [finally] block of [processSelectedMedia]. *)
Definition cleanup : Fx.M unit := file ← Fx.get_outputFile; Fx.safeUnlink file.

(** Its [catch] block, followed by the [finally] block. *)
Definition report (cfg : Config.config) (error : Fx.error) : Fx.M unit :=
  Fx.try_finally (Pipeline.replyText (Fx.TxtFailure (Pipeline.mapPlayError cfg error))) cleanup.

(** The exits of [processSelectedMedia], by the stage that fails. *)
Definition stages (cfg : Config.config) (video : Bot.candidate) (mediaType : Bot.media)
    (w : Fx.world) : Fx.result unit * Fx.world :=
  let a := Pipeline.replyText (announcement mediaType) (Fx.with_outputFile None w) in
  match a.1 with
  | Fx.Throw e => report cfg e a.2
  | Fx.Ok _ =>
    let d := Pipeline.download cfg video mediaType a.2 in
    match d.1 with
    | Fx.Throw e => report cfg e d.2
    | Fx.Ok r =>
      let file := Some (Downloader.filePath r) in
      let s := replyMedia mediaType file (Fx.with_outputFile file d.2) in
      match s.1 with
      | Fx.Throw e => report cfg (Pipeline.rethrowSendError mediaType e) s.2
      | Fx.Ok _ =>
        let c := Pipeline.replyText (confirmation mediaType) s.2 in
        match c.1 with
        | Fx.Throw e => report cfg e c.2
        | Fx.Ok _ => Fx.try_finally (Fx.ret tt) cleanup c.2
        end
      end
    end
  end.

(** Since the world [w0] the run has stayed inside the host, as [f] sees its
    trace: nothing was asked of the transport, the local variable of the job
    is as it was, and [f] sees no more than it saw. *)
Definition untouched {X} (f : Fx.event → option X) (w0 w : Fx.world) : Prop :=
  Fx.send_tape w = Fx.send_tape w0 ∧ Fx.outputFile w = Fx.outputFile w0
  ∧ omap f (Fx.trace w) = omap f (Fx.trace w0).


(** *** Invocations of the message handler *)

(** The transport accepts the next reply. *)
Definition accepts (answers : list (option Fx.transport_error)) : bool :=
  match head answers with
  | Some (Some _) => false
  | _ => true
  end.

(** What the [catch] block of the handler adds when the transport rejects
    the reply made in its [try] block: the failure line of the rejection. *)
Definition rejection_line (cfg : Config.config) (answers : list (option Fx.transport_error))
    : list Chat.reply :=
  match head answers with
  | Some (Some failure) => [Chat.Failure (Pipeline.mapPlayError cfg (Fx.ofTransport failure))]
  | _ => []
  end.

(** The pending selection of the chat that the invocation finds. *)
Definition found (sv : Chat.services) (chatId : string) (s : Chat.session)
    : option Bot.pending :=
  (Bot.getPendingSelection (Chat.now sv) chatId (Chat.pendingSelections s)).1.

(** The command [/play] or [/video] with a query, by the media type it
    makes the default. *)
Definition search_command (defaultMediaType : Bot.media) (query : Str.jsstring)
    : Commands.parsed :=
  match defaultMediaType with
  | Bot.MEDIA_AUDIO => Commands.play (Commands.Query query)
  | Bot.MEDIA_VIDEO => Commands.video (Commands.Query query)
  end.

(** *** Commands *)

(** What [parseCommand] does with the trimmed text. *)
Definition dispatch (text : Str.jsstring) : Commands.parsed :=
  if negb (Commands.starts_with_slash text) then Commands.none
  else
    let command := Str.toLowerCase (Commands.rawCommand text) in
    if Str.eqb command (Str.str "/help") then Commands.help
    else if Str.eqb command (Str.str "/cancel") then Commands.cancel
    else if Str.eqb command (Str.str "/play") then Commands.play (Commands.queryOf text)
    else if Str.eqb command (Str.str "/video") then Commands.video (Commands.queryOf text)
    else Commands.unknown command.

(** A word that lower-cases to one of the four command words: it starts with
    the slash, holds no white space and ends on a letter. *)
Definition command_word (word : Str.jsstring) : Prop :=
  Str.toLowerCase word = Str.str "/help" ∨ Str.toLowerCase word = Str.str "/cancel"
  ∨ Str.toLowerCase word = Str.str "/play" ∨ Str.toLowerCase word = Str.str "/video".

(** The query the text after the command word gives. *)
Definition query_of_rest (rest : Str.jsstring) : Commands.query :=
  match Str.trim rest with
  | [] => Commands.EMPTY_QUERY
  | q => Commands.Query q
  end.

(* ===================================================================== *)
(** * Facts about the embedding *)
(* ===================================================================== *)

Module JsFacts.
Import Js.

Lemma number_or_zero d : number_or (Some 0) d = d.
Proof. reflexivity. Qed.

Lemma number_or_nonzero v d : v ≠ 0 → number_or (Some v) d = v.
Proof. intros Hv. unfold number_or. destruct (Z.eqb_spec v 0); [done | done]. Qed.
End JsFacts.

Module ProfileFacts.
Import Profile.

Lemma clampNumber_range v lo hi : lo <= hi → lo <= clampNumber v lo hi <= hi.
Proof. unfold clampNumber. lia. Qed.

Lemma build_in_bounds d o : in_bounds (buildVideoCompressionProfile d o).
Proof.
  unfold buildVideoCompressionProfile, in_bounds.
  pose proof (clampNumber_range (Js.number_or (videoMaxHeight o) 480) 240 720).
  pose proof (clampNumber_range (Js.number_or (videoCrf o) 30) 18 40).
  pose proof (clampNumber_range (Js.number_or (videoAudioBitrateKbps o) 64) 32 192).
  repeat case_match; simpl; unfold clampNumber in *; lia.
Qed.

Lemma neqb_true a b : neqb a b = true ↔ a ≠ b.
Proof. unfold neqb. destruct (Z.eqb_spec a b); simpl; split; done. Qed.

Lemma fallback_Some_inv p fb :
  buildFallbackVideoCompressionProfile p = Some fb →
  fb = {| maxHeight := Z.max 240 (Z.min (maxHeight p) 360);
          crf := clampNumber (crf p + 2) 18 40;
          audioBitrateKbps := Z.max 32 (Z.min (audioBitrateKbps p) 48) |}
  ∧ (maxHeight fb ≠ maxHeight p ∨ crf fb ≠ crf p
     ∨ audioBitrateKbps fb ≠ audioBitrateKbps p).
Proof.
  unfold buildFallbackVideoCompressionProfile. cbv zeta.
  intros H. case_match eqn:Hc; [|done]. injection H as <-. split; [done|].
  apply orb_true_iff in Hc as [Hc|Hc]; [apply orb_true_iff in Hc as [Hc|Hc]|];
    apply neqb_true in Hc; simpl in *; auto.
Qed.

Lemma fallback_None_inv p :
  buildFallbackVideoCompressionProfile p = None →
  Z.max 240 (Z.min (maxHeight p) 360) = maxHeight p
  ∧ clampNumber (crf p + 2) 18 40 = crf p
  ∧ Z.max 32 (Z.min (audioBitrateKbps p) 48) = audioBitrateKbps p.
Proof.
  unfold buildFallbackVideoCompressionProfile. cbv zeta.
  intros H. case_match eqn:Hc; [done|].
  apply orb_false_iff in Hc as [Hc H3]. apply orb_false_iff in Hc as [H1 H2].
  unfold neqb in *. simpl in *.
  apply negb_false_iff, Z.eqb_eq in H1, H2, H3. done.
Qed.
End ProfileFacts.

Module DownloaderFacts.
Import Fx Downloader.

(** *** How each primitive extends the trace *)

Lemma ffmpeg_runs_snoc t e :
  ffmpeg_runs (t ++ [e]) = (ffmpeg_runs t + (if is_ffmpeg e then 1 else 0))%nat.
Proof.
  unfold ffmpeg_runs. rewrite filter_app, length_app.
  destruct e; reflexivity.
Qed.

Lemma unlink_trace path w :
  trace (unlink path w).2 = trace w ++ [EvUnlink path].
Proof.
  unfold unlink. destruct (head (unlink_tape w)) as [[errno|]|];
    try destruct (files w !! path); reflexivity.
Qed.

Lemma stat_trace path w :
  trace (stat path w).2 = trace w ++ [EvStat path].
Proof.
  unfold stat. destruct (head (stat_tape w)) as [[errno|]|];
    try destruct (files w !! path); reflexivity.
Qed.

Lemma safeUnlink_runs filePath w :
  ffmpeg_runs (trace (safeUnlink filePath w).2) = ffmpeg_runs (trace w).
Proof.
  destruct filePath as [p|]; [|reflexivity].
  unfold safeUnlink. destruct p as [|c p]; [reflexivity|].
  unfold try_catch. pose proof (unlink_trace (String c p) w) as Ht.
  destruct (unlink (String c p) w) as [[[]|e] w1]; simpl in *.
  - rewrite Ht, ffmpeg_runs_snoc. simpl. lia.
  - case_bool_decide; simpl; rewrite ?ffmpeg_runs_snoc, Ht, ffmpeg_runs_snoc; simpl; lia.
Qed.

Lemma safeUnlink_never_throws filePath w :
  (safeUnlink filePath w).1 = Ok tt.
Proof.
  destruct filePath as [p|]; [|reflexivity].
  unfold safeUnlink. destruct p as [|c p]; [reflexivity|].
  unfold try_catch. destruct (unlink (String c p) w) as [[[]|e] w1]; [reflexivity|].
  case_bool_decide; reflexivity.
Qed.

Lemma stat_runs path w :
  ffmpeg_runs (trace (stat path w).2) = ffmpeg_runs (trace w).
Proof. rewrite stat_trace, ffmpeg_runs_snoc. simpl. lia. Qed.

Lemma runFfmpeg_runs i o p w :
  ffmpeg_runs (trace (runFfmpeg i o p w).2) = S (ffmpeg_runs (trace w)).
Proof.
  unfold runFfmpeg. cbv zeta.
  destruct (head (ffmpeg_tape w)) as [[| |c wr]|]; simpl;
    try destruct (c =? 0); simpl; rewrite ffmpeg_runs_snoc; simpl; lia.
Qed.

Lemma ytDlpPhase_runs h w :
  ffmpeg_runs (trace (ytDlpPhase h w).2) = ffmpeg_runs (trace w).
Proof.
  unfold ytDlpPhase. cbv zeta.
  destruct (head (ytdlp_tape w)) as [[e|p s]|]; simpl; rewrite ffmpeg_runs_snoc; simpl; lia.
Qed.

Lemma downloadWithArgs_runs h skip m w :
  ffmpeg_runs (trace (downloadWithArgs h skip m w).2) = ffmpeg_runs (trace w).
Proof.
  unfold downloadWithArgs, mbind, M_bind, bind.
  pose proof (ytDlpPhase_runs h w) as H1.
  destruct (ytDlpPhase h w) as [[p|e] w1]; cbn [fst snd] in *; [|done].
  pose proof (stat_runs (format p) w1) as H2.
  destruct (stat (format p) w1) as [[size|e] w2]; cbn [fst snd] in *; [|congruence].
  destruct (negb skip && (size >? m)); cbn [fst snd]; [|unfold mret, M_ret, ret; simpl; congruence].
  pose proof (safeUnlink_runs (Some (format p)) w2) as H3.
  pose proof (safeUnlink_never_throws (Some (format p)) w2) as H4.
  destruct (safeUnlink (Some (format p)) w2) as [[[]|e] w3]; cbn [fst snd] in *;
    [unfold throw; simpl; congruence|done].
Qed.
End DownloaderFacts.

Module ConfigFacts.
Import Config.

Lemma toPositiveNumber_pos v d : 0 < d → 0 < toPositiveNumber v d.
Proof.
  intros Hd. unfold toPositiveNumber. destruct v as [p|]; [|done].
  destruct (Z.leb_spec p 0); lia.
Qed.

Lemma toPositiveNumber_nonneg v : 0 <= toPositiveNumber v 0.
Proof.
  unfold toPositiveNumber. destruct v as [p|]; [|done].
  destruct (Z.leb_spec p 0); lia.
Qed.

Lemma load_positive env :
  0 < maxAudioDuration (load env) ∧ 0 < maxVideoDuration (load env)
  ∧ 0 < selectionTimeoutSeconds (load env).
Proof.
  unfold load. simpl. split_and!; apply toPositiveNumber_pos; try lia.
  pose proof (toPositiveNumber_nonneg (MAX_DURATION env)).
  unfold or_default. destruct (Z.eqb_spec (toPositiveNumber (MAX_DURATION env) 0) 0); lia.
Qed.
End ConfigFacts.

Module QueueFacts.
Import Queue.
Local Open Scope nat_scope.

Lemma loop_inv its se enq :
  map fst se ++ its = enq → inv (loop its [] se enq).
Proof.
  revert se. induction its as [|t its IH]; intros se Henq.
  - by split.
  - simpl. destruct (onCall t).
    + apply IH. rewrite map_app, <- app_assoc. exact Henq.
    + by split.
Qed.

Lemma add_inv t q : inv q → inv (add t q).2.
Proof.
  intros [Hr Ha Ho]. unfold add, push, process. simpl.
  destruct (running q) eqn:Hrun.
  - destruct (items q) as [|h its]; [done|].
    split; simpl; [done|by rewrite Ha|].
    rewrite <- Ho. by rewrite <- app_assoc.
  - destruct (items q) as [|h its]; [|done].
    rewrite Ha. apply (loop_inv [t] (settled q) (enqueued q ++ [t])).
    rewrite <- Ho. by rewrite app_nil_r.
Qed.

Lemma settle_inv o q : inv q → inv (settle o q).
Proof.
  intros [Hr Ha Ho]. unfold settle. rewrite Ha.
  destruct (items q) as [|h its] eqn:Hits; simpl.
  - split; by rewrite ?Hits.
  - apply loop_inv. rewrite map_app, <- app_assoc. exact Ho.
Qed.

Lemma empty_inv : inv empty.
Proof. by split. Qed.

Lemma run_inv evs : inv (run evs).
Proof.
  unfold run. generalize empty_inv. generalize empty.
  induction evs as [|e evs IH]; intros q Hq; [done|].
  simpl. apply IH. destruct e; [by apply add_inv | by apply settle_inv].
Qed.

(** *** Progress: each settlement shortens a non-empty queue *)

Lemma loop_items_le its aw se enq : length (items (loop its aw se enq)) ≤ length its.
Proof.
  revert se. induction its as [|t its IH]; intros se; [done|].
  simpl. destruct (onCall t); [|done]. specialize (IH (se ++ [(t, Rejected)])). lia.
Qed.

Lemma settle_progress o q :
  inv q → items q ≠ [] → length (items (settle o q)) < length (items q).
Proof.
  intros [Hr Ha Ho] Hne. unfold settle. rewrite Ha.
  destruct (items q) as [|h its]; [done|]. simpl.
  pose proof (loop_items_le its (take 0 its) (settled q ++ [(h, o)]) (enqueued q)). lia.
Qed.

Lemma settle_all os q :
  inv q → length (items q) ≤ length os → items (fold_left step (map Settle os) q) = [].
Proof.
  revert q. induction os as [|o os IH]; intros q Hq Hlen; simpl in *.
  - destruct (items q); [done|simpl in Hlen; lia].
  - apply IH; [by apply settle_inv|].
    destruct (items q) as [|h its] eqn:Hits.
    + unfold settle. rewrite (inv_awaiting q Hq), Hits. simpl. rewrite Hits. simpl. lia.
    + pose proof (settle_progress o q Hq) as Hp. rewrite Hits in Hp.
      specialize (Hp ltac:(done)). simpl in *. lia.
Qed.

(** *** Positions *)

Lemma loop_settled_length its aw se enq :
  length (settled (loop its aw se enq)) + length (items (loop its aw se enq))
  = length se + length its.
Proof.
  revert se. induction its as [|t its IH]; intros se; simpl; [done|].
  destruct (onCall t); [|done]. rewrite IH, length_app. simpl. lia.
Qed.

Lemma loop_unsettled its aw se enq :
  settled (loop its aw se enq) = se → items (loop its aw se enq) = its.
Proof.
  intros Hs. destruct its as [|t its]; [done|]. simpl in *.
  destruct (onCall t); [|done]. exfalso.
  pose proof (loop_settled_length its aw (se ++ [(t, Rejected)]) enq) as Hl.
  pose proof (loop_items_le its aw (se ++ [(t, Rejected)]) enq) as Hi.
  rewrite Hs, length_app in Hl. simpl in Hl. lia.
Qed.
Lemma add_awaited t q :
  inv q → onCall t = ReturnsPromise → items (add t q).2 = items q ++ [t].
Proof.
  intros [Hr Ha Ho] Ht. unfold add, push, process. cbn [fst snd items running].
  destruct (running q); [done|].
  destruct (items q) as [|h its]; [|done].
  cbn [settled awaiting enqueued items app loop]. by rewrite Ht.
Qed.

Lemma positions_adds ts q :
  inv q → Forall (λ t, onCall t = ReturnsPromise) ts →
  positions q (map Add ts) = seq (S (length (items q))) (length ts).
Proof.
  intros Hq Hts. revert q Hq. induction Hts as [|t ts Ht _ IH]; intros q Hq; [done|].
  cbn [map positions length seq]. f_equal.
  - unfold add, push. cbn [fst]. rewrite length_app. simpl. lia.
  - rewrite IH by by apply add_inv. rewrite add_awaited by done.
    rewrite length_app. simpl. f_equal. lia.
Qed.

End QueueFacts.

(** ** The embedding at work *)

(** The three duration tiers and the untiered default, from the defaults of
    the options. *)
Example profile_tiers :
  map (λ d, Profile.buildVideoCompressionProfile (Some d) (Profile.mkVideoOptions None None None))
      [600; 1800; 3600; 7200]
  = [Profile.mkProfile 480 30 64; Profile.mkProfile 480 31 64;
     Profile.mkProfile 360 31 56; Profile.mkProfile 240 32 48].
Proof. reflexivity. Qed.

(** A fallback one step down, and none at the floor. *)
Example fallback_steps :
  Profile.buildFallbackVideoCompressionProfile (Profile.mkProfile 480 30 64)
  = Some (Profile.mkProfile 360 32 48)
  ∧ Profile.buildFallbackVideoCompressionProfile (Profile.mkProfile 240 40 32) = None.
Proof. split; reflexivity. Qed.

(** Three jobs on an idle queue: the second throws when called.  The first is
    called inside its own [add]; it rejects, and the loop goes on to the
    third. *)
Example queue_trace :
  let a := Queue.mkTask 1 Queue.ReturnsPromise in
  let b := Queue.mkTask 2 Queue.ThrowsOnCall in
  let c := Queue.mkTask 3 Queue.ReturnsPromise in
  Queue.positions Queue.empty [Queue.Add a; Queue.Add b; Queue.Add c] = [1; 2; 3]%nat
  ∧ Queue.awaiting (Queue.run [Queue.Add a]) = [a]
  ∧ Queue.run [Queue.Add a; Queue.Add b; Queue.Add c; Queue.Settle Queue.Rejected]
    = Queue.mkQueue [c] true [c] [(a, Queue.Rejected); (b, Queue.Rejected)] [a; b; c].
Proof. split_and!; reflexivity. Qed.

(** A video over the ceiling twice: one retry with the fallback profile, then
    the size error; both files are gone. *)
Example download_retry_then_size_error :
  let raw := Fx.mkPath "/dl" "song-1" ".mp4" in
  let opts := Downloader.mkOptions 100 (Profile.mkVideoOptions None None None) in
  let w := Downloader.fresh [Fx.YtDlpWrote raw 500]
             [Fx.FfmpegExit 0 (Some 150); Fx.FfmpegExit 0 (Some 120)] [] [] in
  (Downloader.downloadVideo (Some 100) opts w).1 = Fx.Throw Downloader.fileTooLarge
  ∧ Downloader.ffmpeg_runs (Fx.trace (Downloader.downloadVideo (Some 100) opts w).2) = 2%nat
  ∧ Fx.files (Downloader.downloadVideo (Some 100) opts w).2 = ∅.
Proof. vm_compute. split_and!; reflexivity. Qed.

(* ===================================================================== *)
(** * Properties *)
(* ===================================================================== *)

(** ** Duration policy *)

(** C3.  Whatever the environment the configuration is loaded from: a
    candidate whose [durationSeconds] is 0 is refused with INVALID_DURATION
    for audio and for video; one whose duration is exactly
    [maxAudioDuration] passes the audio check; one second more is refused with
    AUDIO_DURATION_LIMIT.  [getVideoSupport] draws the same lines. *)
Theorem C3_duration_policy_boundaries
    (env : Config.environment) (k : Bot.kind) (title url : string) :
  let cfg := Config.load env in
  let video := fun d => Bot.mkCandidate k title url (Some d) in
  (∀ mediaType,
     Bot.assertDurationForMedia cfg (video 0) mediaType = Fx.Throw Bot.invalidDuration)
  ∧ Fx.code Bot.invalidDuration = Some "INVALID_DURATION"
  ∧ Bot.assertDurationForMedia cfg (video (Config.maxAudioDuration cfg)) Bot.MEDIA_AUDIO
    = Fx.Ok tt
  ∧ Bot.assertDurationForMedia cfg (video (Config.maxAudioDuration cfg + 1)) Bot.MEDIA_AUDIO
    = Fx.Throw (Bot.durationLimit Bot.MEDIA_AUDIO)
  ∧ Fx.code (Bot.durationLimit Bot.MEDIA_AUDIO) = Some "AUDIO_DURATION_LIMIT"
  ∧ Bot.getVideoSupport cfg (video 0) = Bot.mkSupport false false
  ∧ Bot.s_audio (Bot.getVideoSupport cfg (video (Config.maxAudioDuration cfg))) = true
  ∧ Bot.s_audio (Bot.getVideoSupport cfg (video (Config.maxAudioDuration cfg + 1))) = false.
Proof.
  intros cfg video.
  destruct (ConfigFacts.load_positive env) as (Ha & Hv & _). fold cfg in Ha, Hv.
  split_and!.
  - intros mediaType. reflexivity.
  - reflexivity.
  - unfold Bot.assertDurationForMedia, video. cbn [Bot.durationSeconds].
    rewrite JsFacts.number_or_nonzero by lia.
    destruct (Z.eqb_spec (Config.maxAudioDuration cfg) 0); [lia|].
    destruct (Z.leb_spec (Config.maxAudioDuration cfg) 0); [lia|].
    destruct (Z.gtb_spec (Config.maxAudioDuration cfg) (Config.maxAudioDuration cfg));
      [lia|reflexivity].
  - unfold Bot.assertDurationForMedia, video. cbn [Bot.durationSeconds].
    rewrite JsFacts.number_or_nonzero by lia.
    destruct (Z.eqb_spec (Config.maxAudioDuration cfg + 1) 0); [lia|].
    destruct (Z.leb_spec (Config.maxAudioDuration cfg + 1) 0); [lia|].
    destruct (Z.gtb_spec (Config.maxAudioDuration cfg + 1) (Config.maxAudioDuration cfg));
      [reflexivity|lia].
  - reflexivity.
  - reflexivity.
  - unfold Bot.getVideoSupport, video. cbn [Bot.durationSeconds Bot.s_audio].
    rewrite JsFacts.number_or_nonzero by lia. apply andb_true_iff. split; lia.
  - unfold Bot.getVideoSupport, video. cbn [Bot.durationSeconds Bot.s_audio].
    rewrite JsFacts.number_or_nonzero by lia. apply andb_false_iff. right. lia.
Qed.

(** ** Selection store *)

Lemma getPendingSelection_absent now chatId (store : gmap string Bot.pending) :
  store !! chatId = None → Bot.getPendingSelection now chatId store = (None, store).
Proof. intros H. unfold Bot.getPendingSelection. by rewrite H. Qed.

(** C4.  Reading a pending selection after its [expiresAt] returns nothing and
    deletes the entry; reading again at any later time returns nothing and
    leaves the store as it is. *)
Theorem C4_expired_read_evicts_idempotent
    (store : gmap string Bot.pending) (chatId : string) (p : Bot.pending) (now : Z) :
  store !! chatId = Some p →
  Bot.expiresAt p < now →
  Bot.getPendingSelection now chatId store = (None, delete chatId store)
  ∧ (delete chatId store) !! chatId = None
  ∧ ∀ later, now <= later →
      Bot.getPendingSelection later chatId (Bot.getPendingSelection now chatId store).2
      = (None, (Bot.getPendingSelection now chatId store).2).
Proof.
  intros Hp Hexp.
  assert (Hfirst : Bot.getPendingSelection now chatId store = (None, delete chatId store)).
  { unfold Bot.getPendingSelection. rewrite Hp.
    destruct (Z.gtb_spec now (Bot.expiresAt p)); [reflexivity|lia]. }
  split_and!; [exact Hfirst|apply lookup_delete_eq|].
  intros later _. rewrite Hfirst. cbn [snd].
  apply getPendingSelection_absent, lookup_delete_eq.
Qed.

Lemma C4_witness :
  let p := Bot.mkPending (Bot.mkPayload Bot.search_results [] Bot.MEDIA_AUDIO) 120000 in
  Bot.getPendingSelection 120001 "chat" {["chat" := p]}
  = (None, delete "chat" ({["chat" := p]} : gmap string Bot.pending)).
Proof.
  intros p.
  apply (C4_expired_read_evicts_idempotent {["chat" := p]} "chat" p 120001).
  - apply lookup_singleton_eq.
  - simpl. lia.
Defined.

(** C10.  The expiry boundary is exclusive: a read at the instant [expiresAt]
    returns the entry and keeps the store, and a read finds the entry absent
    exactly when it happens strictly after [expiresAt].  For an entry written
    by [setPendingSelection] at [t0] that instant is
    [t0 + selectionTimeoutSeconds * 1000]. *)
Theorem C10_expiry_boundary_exclusive
    (store : gmap string Bot.pending) (chatId : string) (p : Bot.pending) :
  store !! chatId = Some p →
  Bot.getPendingSelection (Bot.expiresAt p) chatId store = (Some p, store)
  ∧ (∀ now, (Bot.getPendingSelection now chatId store).1 = None ↔ Bot.expiresAt p < now)
  ∧ (∀ now, now <= Bot.expiresAt p → Bot.getPendingSelection now chatId store = (Some p, store))
  ∧ (∀ cfg t0 payload (before : gmap string Bot.pending),
       store = Bot.setPendingSelection cfg t0 chatId payload before →
       Bot.expiresAt p = t0 + Config.selectionTimeoutSeconds cfg * 1000).
Proof.
  intros Hp.
  assert (Hkeep : ∀ now, now <= Bot.expiresAt p →
                         Bot.getPendingSelection now chatId store = (Some p, store)).
  { intros now Hle. unfold Bot.getPendingSelection. rewrite Hp.
    destruct (Z.gtb_spec now (Bot.expiresAt p)); [lia|reflexivity]. }
  split_and!.
  - apply Hkeep. lia.
  - intros now. unfold Bot.getPendingSelection. rewrite Hp.
    destruct (Z.gtb_spec now (Bot.expiresAt p)); cbn [fst]; split; try done; lia.
  - exact Hkeep.
  - intros cfg t0 payload before ->. unfold Bot.setPendingSelection in Hp.
    rewrite lookup_insert_eq in Hp. by injection Hp as <-.
Qed.

Lemma C10_witness :
  let cfg := Config.load (Config.mkEnv None None None None None None None) in
  let payload := Bot.mkPayload Bot.search_results [] Bot.MEDIA_VIDEO in
  let store := Bot.setPendingSelection cfg 5000 "chat" payload ∅ in
  Bot.getPendingSelection 125000 "chat" store = (Some (Bot.mkPending payload 125000), store).
Proof.
  intros cfg payload store.
  assert (Hentry : store !! "chat" = Some (Bot.mkPending payload 125000))
    by apply lookup_insert_eq.
  exact (proj1 (C10_expiry_boundary_exclusive store "chat" _ Hentry)).
Defined.

(** ** Job queue *)

Local Open Scope nat_scope.

Lemma loop_enqueued its aw se enq : Queue.enqueued (Queue.loop its aw se enq) = enq.
Proof.
  revert se. induction its as [|t its IH]; intros se; [done|].
  simpl. destruct (Queue.onCall t); [apply IH|done].
Qed.

Lemma step_enqueued q e :
  Queue.enqueued (Queue.step q e) = Queue.enqueued q ++ added [e].
Proof.
  destruct e as [t|o]; simpl.
  - unfold Queue.add, Queue.push, Queue.process. simpl.
    destruct (Queue.running q); [done|]. apply loop_enqueued.
  - unfold Queue.settle. destruct (Queue.awaiting q); [by rewrite app_nil_r|].
    rewrite loop_enqueued. by rewrite app_nil_r.
Qed.

Lemma fold_enqueued evs q :
  Queue.enqueued (fold_left Queue.step evs q) = Queue.enqueued q ++ added evs.
Proof.
  revert q. induction evs as [|e evs IH]; intros q; simpl; [by rewrite app_nil_r|].
  rewrite IH, step_enqueued, <- app_assoc. f_equal.
  destruct e; reflexivity.
Qed.

Lemma fold_inv evs q : Queue.inv q → Queue.inv (fold_left Queue.step evs q).
Proof.
  revert q. induction evs as [|e evs IH]; intros q Hq; [done|].
  simpl. apply IH. destruct e; [by apply QueueFacts.add_inv | by apply QueueFacts.settle_inv].
Qed.

(** C2.  After any sequence of [add] calls and task completions, with any mix
    of tasks that resolve, reject or throw on call: at most one task has been
    called and has not finished; the completion handles settled so far are,
    in order, the first of the tasks enqueued, the others still being in the
    queue in their order; and once the remaining tasks have finished, all
    handles are settled in the order of the [add] calls. *)
Theorem C2_one_at_a_time_fifo_settlement (evs : list Queue.event) :
  let q := Queue.run evs in
  length (Queue.awaiting q) ≤ 1
  ∧ Queue.awaiting q = take 1 (Queue.items q)
  ∧ map fst (Queue.settled q) ++ Queue.items q = added evs
  ∧ ∀ outcomes,
      length (Queue.items q) ≤ length outcomes →
      map fst (Queue.settled (Queue.run (evs ++ map Queue.Settle outcomes))) = added evs.
Proof.
  intros q. pose proof (QueueFacts.run_inv evs) as Hinv. fold q in Hinv.
  assert (Henq : Queue.enqueued q = added evs).
  { unfold q, Queue.run. by rewrite fold_enqueued. }
  split_and!.
  - rewrite (Queue.inv_awaiting q Hinv). rewrite length_take. lia.
  - exact (Queue.inv_awaiting q Hinv).
  - rewrite <- Henq. exact (Queue.inv_order q Hinv).
  - intros outcomes Hlen. unfold Queue.run. rewrite fold_left_app.
    fold (Queue.run evs). fold q.
    set (q' := fold_left Queue.step (map Queue.Settle outcomes) q).
    assert (Hinv' : Queue.inv q') by by apply fold_inv.
    pose proof (QueueFacts.settle_all outcomes q Hinv Hlen) as Hempty. fold q' in Hempty.
    pose proof (Queue.inv_order q' Hinv') as Hord.
    rewrite Hempty, app_nil_r in Hord. rewrite Hord.
    unfold q'. rewrite fold_enqueued, Henq.
    assert (Hnone : added (map Queue.Settle outcomes) = []).
    { clear. induction outcomes as [|o os IH]; [done|exact IH]. }
    by rewrite Hnone, app_nil_r.
Qed.

Lemma C2_witness :
  let a := Queue.mkTask 1 Queue.ReturnsPromise in
  let b := Queue.mkTask 2 Queue.ThrowsOnCall in
  let c := Queue.mkTask 3 Queue.ReturnsPromise in
  map fst (Queue.settled
             (Queue.run ([Queue.Add a; Queue.Add b; Queue.Add c]
                         ++ map Queue.Settle [Queue.Rejected; Queue.Resolved;
                                              Queue.Resolved])))
  = [a; b; c].
Proof.
  intros a b c.
  apply (C2_one_at_a_time_fifo_settlement [Queue.Add a; Queue.Add b; Queue.Add c]).
  vm_compute. lia.
Defined.

(** C7 (as the code has it).  [add] returns the length of [items] right
    after the push, a value fixed before [process] is entered and so whatever
    the task does: the 1-based index of the new job in the queue, itself
    included.  If no job completes between two [add] calls, the second
    position is the first plus one; so the positions of jobs enqueued one
    after the other on a queue in use, none of which ends on the spot, count
    up by one from the length of the queue plus one.  When [add] returns, the
    task has not been called if a job is in progress; on an idle queue
    [process] has called it: it is the task waited for, or its handle is
    rejected already if it threw. *)
Theorem C7_add_position_is_index (t : Queue.task) (q : Queue.queue) :
  let position := (Queue.add t q).1 in
  position = (Queue.push t q).1
  ∧ (∀ other, (Queue.add other q).1 = position)
  ∧ position = S (length (Queue.items q))
  ∧ Queue.items (Queue.push t q).2 !! (position - 1)%nat = Some t
  ∧ length (Queue.items (Queue.push t q).2) = position
  ∧ (∀ t', Queue.settled (Queue.add t q).2 = Queue.settled q →
           (Queue.add t' (Queue.add t q).2).1 = S position)
  ∧ (∀ evs ts,
      Forall (λ t, Queue.onCall t = Queue.ReturnsPromise) ts →
      Queue.positions (Queue.run evs) (map Queue.Add ts)
      = seq (S (length (Queue.items (Queue.run evs)))) (length ts))
  ∧ (Queue.running q = true →
     Queue.awaiting (Queue.add t q).2 = Queue.awaiting q
     ∧ Queue.settled (Queue.add t q).2 = Queue.settled q)
  ∧ (Queue.running q = false → Queue.items q = [] →
     match Queue.onCall t with
     | Queue.ReturnsPromise =>
       Queue.awaiting (Queue.add t q).2 = Queue.awaiting q ++ [t]
       ∧ Queue.settled (Queue.add t q).2 = Queue.settled q
     | Queue.ThrowsOnCall =>
       Queue.awaiting (Queue.add t q).2 = Queue.awaiting q
       ∧ Queue.settled (Queue.add t q).2 = Queue.settled q ++ [(t, Queue.Rejected)]
     end).
Proof.
  intros position. unfold position, Queue.add, Queue.push. cbn [fst snd Queue.items].
  split_and!.
  - reflexivity.
  - intros other. unfold Queue.add, Queue.push. cbn [fst]. by rewrite !length_app.
  - rewrite length_app. simpl. lia.
  - rewrite length_app. simpl.
    replace (length (Queue.items q) + 1 - 1)%nat with (length (Queue.items q) + 0)%nat by lia.
    rewrite lookup_app_r by lia.
    by replace (length (Queue.items q) + 0 - length (Queue.items q))%nat with 0%nat by lia.
  - reflexivity.
  - intros t' Hs. unfold Queue.process in *. cbn [Queue.running Queue.items] in *.
    destruct (Queue.running q).
    + cbn [Queue.items]. rewrite !length_app. simpl. lia.
    + cbn [Queue.settled Queue.awaiting Queue.enqueued] in *.
      apply QueueFacts.loop_unsettled in Hs. rewrite Hs, !length_app. simpl. lia.
  - intros evs ts Hts. apply QueueFacts.positions_adds; [apply QueueFacts.run_inv|done].
  - intros Hbusy. unfold Queue.process. cbn [Queue.running]. by rewrite Hbusy.
  - intros Hidle Hempty. unfold Queue.process. cbn [Queue.running]. rewrite Hidle.
    cbn [Queue.items Queue.awaiting Queue.settled Queue.enqueued]. rewrite Hempty.
    simpl. by destruct (Queue.onCall t).
Qed.

Lemma C7_witness :
  let a := Queue.mkTask 1 Queue.ReturnsPromise in
  let b := Queue.mkTask 2 Queue.ReturnsPromise in
  let c := Queue.mkTask 3 Queue.ReturnsPromise in
  let q := Queue.run [Queue.Add a; Queue.Add b] in
  (Queue.add c q).1 = 3%nat ∧ (Queue.add a (Queue.add c q).2).1 = 4%nat.
Proof.
  intros a b c q. split.
  - apply (C7_add_position_is_index c q).
  - apply (C7_add_position_is_index c q). reflexivity.
Defined.

(** [add] does not always return before the task runs: on an idle queue the
    task has been called, and is the one waited for, when [add] returns its
    position. *)
Lemma C7_counterexample :
  let t := Queue.mkTask 1 Queue.ReturnsPromise in
  Queue.awaiting Queue.empty = []
  ∧ (Queue.add t Queue.empty).1 = 1
  ∧ Queue.awaiting (Queue.add t Queue.empty).2 = [t]
  ∧ Queue.running (Queue.add t Queue.empty).2 = true.
Proof. vm_compute. split_and!; reflexivity. Qed.

Local Open Scope Z_scope.

(** ** Acquisition: what every run leaves behind *)

Section Preservation.
Import Fx.

Variable P : world → Prop.

Lemma preserves_ret {A} (a : A) : preserves P (mret a).
Proof. by intros w Hw. Qed.

Lemma preserves_throw {A} e : preserves P (@throw A e).
Proof. by intros w Hw. Qed.

Lemma preserves_bind {A B} (m : M A) (k : A → M B) :
  preserves P m → (∀ a, preserves P (k a)) → preserves P (m ≫= k).
Proof.
  intros Hm Hk w Hw. unfold mbind, M_bind, bind.
  specialize (Hm w Hw). destruct (m w) as [[a|e] w1]; [by apply Hk|done].
Qed.

Lemma preserves_try_catch {A} (m : M A) (h : error → M A) :
  preserves P m → (∀ e, preserves P (h e)) → preserves P (try_catch m h).
Proof.
  intros Hm Hh w Hw. unfold try_catch.
  specialize (Hm w Hw). destruct (m w) as [[a|e] w1]; [done|by apply Hh].
Qed.

Lemma preserves_try_finally {A} (m : M A) (f : M unit) :
  preserves P m → preserves P f → preserves P (try_finally m f).
Proof.
  intros Hm Hf w Hw. unfold try_finally.
  specialize (Hm w Hw). destruct (m w) as [r w1].
  specialize (Hf w1 Hm). by destruct (f w1) as [[[]|e] w2].
Qed.

End Preservation.

Lemma later_than_refl w : later_than w w.
Proof. split; [exists []; by rewrite app_nil_r|done]. Qed.

Lemma Forall_tail {A} (Q : A → Prop) (l : list A) : Forall Q l → Forall Q (tail l).
Proof. destruct 1; [constructor|done]. Qed.

(** One primitive step: an event is logged and the unlink tape is kept or
    advanced. *)
Lemma later_than_step w0 w w' e :
  Fx.trace w' = Fx.trace w ++ [e] →
  (Fx.unlink_tape w' = Fx.unlink_tape w ∨ Fx.unlink_tape w' = tail (Fx.unlink_tape w)) →
  later_than w0 w → later_than w0 w'.
Proof.
  intros Ht Hu [[more Hm] Ha]. split.
  - exists (more ++ [e]). by rewrite Ht, Hm, app_assoc.
  - intros H0. specialize (Ha H0). unfold unlink_allowed in *.
    destruct Hu as [->| ->]; [done|by apply Forall_tail].
Qed.

Lemma unlink_later w0 path : preserves (later_than w0) (Fx.unlink path).
Proof.
  intros w Hw. eapply later_than_step; [apply DownloaderFacts.unlink_trace| |exact Hw].
  right. unfold Fx.unlink.
  by destruct (head (Fx.unlink_tape w)) as [[refusal|]|]; try destruct (Fx.files w !! path).
Qed.

Lemma emit_later w0 e : preserves (later_than w0) (Fx.emit e).
Proof. intros w Hw. eapply later_than_step; [reflexivity|by left|exact Hw]. Qed.

Lemma safeUnlink_later w0 filePath : preserves (later_than w0) (Fx.safeUnlink filePath).
Proof.
  destruct filePath as [[|c p]|]; [by intros w Hw| |by intros w Hw].
  apply preserves_try_catch; [apply unlink_later|].
  intros e. case_bool_decide; [apply emit_later|by intros w Hw].
Qed.

Lemma stat_later w0 path : preserves (later_than w0) (Fx.stat path).
Proof.
  intros w Hw. eapply later_than_step; [apply DownloaderFacts.stat_trace| |exact Hw].
  left. unfold Fx.stat.
  by destruct (head (Fx.stat_tape w)) as [[refusal|]|]; try destruct (Fx.files w !! path).
Qed.

Lemma runFfmpeg_later w0 i o p : preserves (later_than w0) (Downloader.runFfmpeg i o p).
Proof.
  intros w Hw. unfold Downloader.runFfmpeg. cbv zeta.
  destruct (head (Fx.ffmpeg_tape w)) as [[| |c wr]|]; try destruct (c =? 0);
    (eapply later_than_step; [reflexivity|by left|exact Hw]).
Qed.

Lemma ytDlpPhase_later w0 h : preserves (later_than w0) (Downloader.ytDlpPhase h).
Proof.
  intros w Hw. unfold Downloader.ytDlpPhase. cbv zeta.
  destruct (head (Fx.ytdlp_tape w)) as [[e|p s]|];
    (eapply later_than_step; [reflexivity|by left|exact Hw]).
Qed.

Lemma downloadWithArgs_later w0 h skip m :
  preserves (later_than w0) (Downloader.downloadWithArgs h skip m).
Proof.
  unfold Downloader.downloadWithArgs.
  apply preserves_bind; [apply ytDlpPhase_later|intros p].
  apply preserves_bind; [apply stat_later|intros size].
  destruct (negb skip && (size >? m)); [|apply preserves_ret].
  apply preserves_bind; [apply safeUnlink_later|intros _; apply preserves_throw].
Qed.

Lemma transcode_later w0 raw conv p m :
  preserves (later_than w0) (Downloader.transcode raw conv p m).
Proof.
  unfold Downloader.transcode.
  apply preserves_bind; [apply runFfmpeg_later|intros _].
  apply preserves_bind; [apply stat_later|intros size].
  apply preserves_bind.
  - destruct (size >? m); [|apply preserves_ret].
    destruct (Profile.buildFallbackVideoCompressionProfile p); [|apply preserves_ret].
    apply preserves_bind; [apply safeUnlink_later|intros _].
    apply preserves_bind; [apply runFfmpeg_later|intros _].
    apply stat_later.
  - intros size'. destruct (size' >? m); [|apply preserves_ret].
    apply preserves_bind; [apply safeUnlink_later|intros _; apply preserves_throw].
Qed.

Lemma format_nonempty p : Fx.format p ≠ "".
Proof. unfold Fx.format. by destruct (Fx.dir p). Qed.

(** What the final [safeUnlink] leaves: an unlink attempt in the trace, and the
    file gone unless the call was refused, which is then the last thing
    logged. *)
Lemma safeUnlink_effect path w :
  path ≠ "" →
  let w' := (Fx.safeUnlink (Some path) w).2 in
  Fx.EvUnlink path ∈ drop (length (Fx.trace w)) (Fx.trace w')
  ∧ (Fx.files w' !! path = None ∨ last (Fx.trace w') = Some (Fx.EvWarn path))
  ∧ (unlink_allowed w → Fx.files w' !! path = None).
Proof.
  intros Hne. unfold Fx.safeUnlink. destruct path as [|c p]; [done|].
  set (path := String c p). unfold Fx.try_catch, Fx.unlink, unlink_allowed.
  destruct (Fx.unlink_tape w) as [|[refusal|] tape] eqn:Htape; cbn [head].
  - destruct (Fx.files w !! path) eqn:Hfile; simpl.
    + rewrite drop_app_length. split_and!; [set_solver|left|intros _]; apply lookup_delete_eq.
    + rewrite drop_app_length. split_and!; [set_solver|by left|done].
  - assert (Hcode : Fx.code (Fx.fsError (Fx.errno_code refusal)) ≠ Some "ENOENT")
      by by destruct refusal.
    rewrite (bool_decide_eq_true_2 _ Hcode). simpl.
    rewrite <- app_assoc, drop_app_length. split_and!; [set_solver| |].
    + right. by rewrite app_assoc, last_snoc.
    + intros Hall. by apply Forall_cons in Hall as [? _].
  - destruct (Fx.files w !! path) eqn:Hfile; simpl.
    + rewrite drop_app_length. split_and!; [set_solver|left|intros _]; apply lookup_delete_eq.
    + rewrite drop_app_length. split_and!; [set_solver|by left|done].
Qed.

(** A download that returned has left the raw file on disk, with the size it
    reports. *)
Lemma downloadWithArgs_file_exists h m w rawResult w1 :
  Downloader.downloadWithArgs h true m w = (Fx.Ok rawResult, w1) →
  Fx.files w1 !! Fx.format (Downloader.rawPath rawResult) = Some (Downloader.rawSize rawResult).
Proof.
  unfold Downloader.downloadWithArgs, mbind, Fx.M_bind, Fx.bind, Downloader.ytDlpPhase, Fx.stat.
  cbv zeta. intros H.
  destruct (head (Fx.ytdlp_tape w)) as [[e|p s]|]; try done.
  cbn [Fx.stat_tape Fx.files Fx.log] in H.
  destruct (head (Fx.stat_tape w)) as [[refusal|]|]; try done;
    rewrite lookup_insert_eq in H; simpl in H; injection H as <- <-; simpl;
    apply lookup_insert_eq.
Qed.

(** C1.  For the profile [buildVideoCompressionProfile] builds from any
    duration and options: a fallback profile, when
    [buildFallbackVideoCompressionProfile] yields one, has a height no larger,
    a CRF no smaller and an audio bitrate no larger than the original, and
    differs from it in one of the three fields; when it yields none and the
    first transcoded output is over the ceiling, [downloadVideo] fails with
    FILE_TOO_LARGE having run the transcoder once. *)
Theorem C1_fallback_profile_or_size_error
    (durationSeconds : option Z) (opts : Downloader.options) :
  let p := Profile.buildVideoCompressionProfile durationSeconds
             (Downloader.videoOptions opts) in
  (∀ fb, Profile.buildFallbackVideoCompressionProfile p = Some fb →
     Profile.maxHeight fb <= Profile.maxHeight p
     ∧ Profile.crf p <= Profile.crf fb
     ∧ Profile.audioBitrateKbps fb <= Profile.audioBitrateKbps p
     ∧ (Profile.maxHeight fb ≠ Profile.maxHeight p
        ∨ Profile.crf fb ≠ Profile.crf p
        ∨ Profile.audioBitrateKbps fb ≠ Profile.audioBitrateKbps p))
  ∧ (Profile.buildFallbackVideoCompressionProfile p = None →
     ∀ w rawResult w1 w2 size w3,
       Downloader.downloadWithArgs (Some (Profile.maxHeight p)) true
         (Downloader.maxFileSize opts) w = (Fx.Ok rawResult, w1) →
       Downloader.runFfmpeg (Fx.format (Downloader.rawPath rawResult))
         (Fx.convertedPathOf (Downloader.rawPath rawResult)) p w1 = (Fx.Ok tt, w2) →
       Fx.stat (Fx.convertedPathOf (Downloader.rawPath rawResult)) w2 = (Fx.Ok size, w3) →
       Downloader.maxFileSize opts < size →
       (Downloader.downloadVideo durationSeconds opts w).1
       = Fx.Throw Downloader.fileTooLarge
       ∧ Downloader.ffmpeg_runs (Fx.trace (Downloader.downloadVideo durationSeconds opts w).2)
         = S (Downloader.ffmpeg_runs (Fx.trace w))).
Proof.
  intros p. pose proof (ProfileFacts.build_in_bounds durationSeconds (Downloader.videoOptions opts))
    as (Hh & Hc & Ha). fold p in Hh, Hc, Ha.
  split.
  - intros fb Hfb. apply ProfileFacts.fallback_Some_inv in Hfb as [-> Hdiff].
    simpl in *. unfold Profile.clampNumber in *. split_and!; [lia|lia|lia|exact Hdiff].
  - intros Hnone w rawResult w1 w2 size w3 Hdl Hff Hst Hbig.
    pose proof (DownloaderFacts.downloadWithArgs_runs (Some (Profile.maxHeight p)) true
                  (Downloader.maxFileSize opts) w) as R1.
    pose proof (DownloaderFacts.runFfmpeg_runs (Fx.format (Downloader.rawPath rawResult))
                  (Fx.convertedPathOf (Downloader.rawPath rawResult)) p w1) as R2.
    pose proof (DownloaderFacts.stat_runs (Fx.convertedPathOf (Downloader.rawPath rawResult)) w2) as R3.
    rewrite Hdl in R1. rewrite Hff in R2. rewrite Hst in R3. cbn [snd] in R1, R2, R3.
    unfold Downloader.downloadVideo. fold p. cbv zeta.
    unfold mbind, Fx.M_bind, Fx.bind. rewrite Hdl.
    unfold Fx.try_finally, Downloader.transcode, mbind, Fx.M_bind, Fx.bind.
    rewrite Hff, Hst.
    assert (Hgt : (size >? Downloader.maxFileSize opts) = true) by lia.
    rewrite Hgt, Hnone. unfold mret, Fx.M_ret, Fx.ret. rewrite Hgt.
    pose proof (DownloaderFacts.safeUnlink_never_throws
                  (Some (Fx.convertedPathOf (Downloader.rawPath rawResult))) w3) as N4.
    pose proof (DownloaderFacts.safeUnlink_runs
                  (Some (Fx.convertedPathOf (Downloader.rawPath rawResult))) w3) as R4.
    destruct (Fx.safeUnlink (Some (Fx.convertedPathOf (Downloader.rawPath rawResult))) w3)
      as [r4 w4]. cbn [fst snd] in N4, R4. subst r4. unfold Fx.throw.
    pose proof (DownloaderFacts.safeUnlink_never_throws
                  (Some (Fx.format (Downloader.rawPath rawResult))) w4) as N5.
    pose proof (DownloaderFacts.safeUnlink_runs
                  (Some (Fx.format (Downloader.rawPath rawResult))) w4) as R5.
    destruct (Fx.safeUnlink (Some (Fx.format (Downloader.rawPath rawResult))) w4)
      as [r5 w5]. cbn [fst snd] in N5, R5. subst r5. cbn [fst snd].
    split; [reflexivity|congruence].
Qed.

Lemma C1_witness :
  let raw := Fx.mkPath "/dl" "song-1" ".mp4" in
  let opts := Downloader.mkOptions 100 (Profile.mkVideoOptions (Some 240) (Some 40) (Some 32)) in
  let w := Downloader.fresh [Fx.YtDlpWrote raw 500] [Fx.FfmpegExit 0 (Some 150)] [] [] in
  (Downloader.downloadVideo (Some 100) opts w).1 = Fx.Throw Downloader.fileTooLarge.
Proof.
  intros raw opts w.
  set (w1 := (Downloader.downloadWithArgs (Some 240) true 100 w).2).
  set (w2 := (Downloader.runFfmpeg "/dl/song-1.mp4" "/dl/song-1-wa.mp4"
                (Profile.mkProfile 240 40 32) w1).2).
  set (w3 := (Fx.stat "/dl/song-1-wa.mp4" w2).2).
  refine (proj1 (proj2 (C1_fallback_profile_or_size_error (Some 100) opts) _
                   w (Downloader.mkRaw raw 500) w1 w2 150 w3 _ _ _ _)).
  - reflexivity.
  - reflexivity.
  - reflexivity.
  - reflexivity.
  - simpl. lia.
Defined.

(** C6 (as the code has it).  Once [downloadWithArgs] has returned the raw
    file, every exit of [downloadVideo] - a result or an exception, whatever
    ffmpeg, stat and unlink answer - goes through [safeUnlink] on the raw
    path: an unlink of it is attempted after the download, and in the final
    world the raw file is gone, or the unlink was refused and the warning about
    it is the last thing logged.  When the file system refuses no unlink, the
    raw file is gone on every exit. *)
Theorem C6_raw_file_unlinked_on_every_exit
    (durationSeconds : option Z) (opts : Downloader.options)
    (w : Fx.world) (rawResult : Downloader.raw_result) (w1 : Fx.world) :
  let p := Profile.buildVideoCompressionProfile durationSeconds
             (Downloader.videoOptions opts) in
  let raw := Fx.format (Downloader.rawPath rawResult) in
  let w' := (Downloader.downloadVideo durationSeconds opts w).2 in
  Downloader.downloadWithArgs (Some (Profile.maxHeight p)) true
    (Downloader.maxFileSize opts) w = (Fx.Ok rawResult, w1) →
  Fx.files w1 !! raw = Some (Downloader.rawSize rawResult)
  ∧ (∃ before after, Fx.trace w' = Fx.trace w1 ++ before ++ Fx.EvUnlink raw :: after)
  ∧ (Fx.files w' !! raw = None ∨ last (Fx.trace w') = Some (Fx.EvWarn raw))
  ∧ (unlink_allowed w → Fx.files w' !! raw = None).
Proof.
  intros p raw w' Hdl. subst w'.
  pose proof (downloadWithArgs_file_exists _ _ _ _ _ Hdl) as Hexists.
  pose proof (downloadWithArgs_later w (Some (Profile.maxHeight p)) true
                (Downloader.maxFileSize opts) w (later_than_refl w)) as [_ Hkeep].
  rewrite Hdl in Hkeep. cbn [snd] in Hkeep.
  unfold Downloader.downloadVideo. fold p. cbv zeta.
  unfold mbind, Fx.M_bind, Fx.bind. rewrite Hdl. fold raw.
  unfold Fx.try_finally.
  pose proof (transcode_later w1 raw (Fx.convertedPathOf (Downloader.rawPath rawResult)) p
                (Downloader.maxFileSize opts) w1 (later_than_refl w1)) as [[mid Hmid] Hkeep2].
  destruct (Downloader.transcode raw (Fx.convertedPathOf (Downloader.rawPath rawResult)) p
              (Downloader.maxFileSize opts) w1) as [r w4]. cbn [snd] in Hkeep2, Hmid.
  pose proof (safeUnlink_effect raw w4 (format_nonempty _)) as (Hin & Hgone & Hall).
  pose proof (DownloaderFacts.safeUnlink_never_throws (Some raw) w4) as Hok.
  pose proof (safeUnlink_later w4 (Some raw) w4 (later_than_refl w4)) as [[fin Hfin] _].
  destruct (Fx.safeUnlink (Some raw) w4) as [[[]|e] w5]; [|done]. cbn [fst snd] in *.
  split_and!; [exact Hexists| |exact Hgone|auto].
  rewrite Hfin, drop_app_length in Hin.
  apply list_elem_of_split in Hin as (l1 & l2 & ->).
  exists (mid ++ l1), l2. rewrite Hfin, Hmid. by rewrite <- !app_assoc.
Qed.

Lemma C6_witness :
  let raw := Fx.mkPath "/dl" "song-1" ".mp4" in
  let opts := Downloader.mkOptions 100 (Profile.mkVideoOptions None None None) in
  let w := Downloader.fresh [Fx.YtDlpWrote raw 500]
             [Fx.FfmpegExit 0 (Some 150); Fx.FfmpegExit 1 None] [] [] in
  Fx.files (Downloader.downloadVideo (Some 100) opts w).2 !! "/dl/song-1.mp4" = None.
Proof.
  intros raw opts w.
  set (w1 := (Downloader.downloadWithArgs (Some 480) true 100 w).2).
  assert (Hdl : Downloader.downloadWithArgs (Some 480) true 100 w
                = (Fx.Ok (Downloader.mkRaw raw 500), w1)) by reflexivity.
  assert (Hallowed : unlink_allowed w) by constructor.
  exact (proj2 (proj2 (proj2
           (C6_raw_file_unlinked_on_every_exit (Some 100) opts w _ w1 Hdl))) Hallowed).
Defined.

(** Deletion itself is not guaranteed: where the file system refuses the
    unlink, [downloadVideo] returns its result and the raw file, absent before
    the run, is still there after it. *)
Lemma C6_counterexample :
  let raw := Fx.mkPath "/dl" "song-1" ".mp4" in
  let opts := Downloader.mkOptions 100 (Profile.mkVideoOptions None None None) in
  let w := Downloader.fresh [Fx.YtDlpWrote raw 500] [Fx.FfmpegExit 0 (Some 50)]
             [] [Some Fx.EPERM] in
  (Downloader.downloadVideo (Some 100) opts w).1
  = Fx.Ok (Downloader.mkResult "/dl/song-1-wa.mp4" 50)
  ∧ Fx.files w !! "/dl/song-1.mp4" = None
  ∧ Fx.files (Downloader.downloadVideo (Some 100) opts w).2 !! "/dl/song-1.mp4" = Some 500.
Proof. vm_compute. split_and!; reflexivity. Qed.

(** ** Transport failures *)

Lemma starts_with_spec needle hay :
  Str.starts_with needle hay = true ↔ ∃ post, hay = needle ++ post.
Proof.
  revert hay. induction needle as [|a n IH]; intros hay; simpl.
  - split; [intros _; by exists hay|done].
  - destruct hay as [|b h].
    + split; [done|intros [post Hp]; discriminate].
    + rewrite andb_true_iff, bool_decide_eq_true, IH. split.
      * intros [-> [post ->]]. by exists post.
      * intros [post Hp]. injection Hp as -> ->. split; [done|by exists post].
Qed.

Lemma includes_spec hay needle :
  Str.includes hay needle = true ↔ ∃ pre post, hay = pre ++ needle ++ post.
Proof.
  induction hay as [|b h IH]; simpl; rewrite orb_true_iff, starts_with_spec.
  - split.
    + intros [[post Hp]|]; [|done]. by exists [], post.
    + intros (pre & post & Hp). left. exists post.
      destruct pre; [done|discriminate].
  - rewrite IH. split.
    + intros [[post Hp]|(pre & post & ->)]; [by exists [], post|by exists (b :: pre), post].
    + intros (pre & post & Hp). destruct pre as [|c pre]; simpl in Hp.
      * left. by exists post.
      * right. injection Hp as -> ->. by exists pre, post.
Qed.

Lemma includes_lower_spec msg needle :
  Str.includes (Str.toLowerCase msg) needle = true ↔ contains_ci msg needle.
Proof.
  rewrite includes_spec. unfold contains_ci, Str.toLowerCase. split.
  - intros (pre & post & H).
    apply List.map_eq_app in H as (pre' & rest & -> & Hpre & Hrest).
    apply List.map_eq_app in Hrest as (mid & post' & -> & Hmid & Hpost).
    by exists pre', mid, post'.
  - intros (pre & mid & post & -> & Hmid).
    exists (map Str.lower_char pre), (map Str.lower_char post).
    by rewrite !map_app, Hmid.
Qed.

Lemma isWhatsAppSizeError_spec e :
  Pipeline.isWhatsAppSizeError e = true
  ↔ contains_ci (Str.str (Fx.message e)) (Str.str "too large")
    ∨ contains_ci (Str.str (Fx.message e)) (Str.str "media too big")
    ∨ contains_ci (Str.str (Fx.message e)) (Str.str "413").
Proof.
  unfold Pipeline.isWhatsAppSizeError. cbv zeta.
  rewrite !orb_true_iff, !includes_lower_spec. tauto.
Qed.

Lemma reported_app t1 t2 :
  Pipeline.reported (t1 ++ t2) = Pipeline.reported t1 ++ Pipeline.reported t2.
Proof. unfold Pipeline.reported. apply omap_app. Qed.

Lemma send_run e w :
  Fx.trace (Pipeline.send e w).2 = Fx.trace w ++ [e]
  ∧ Fx.outputFile (Pipeline.send e w).2 = Fx.outputFile w.
Proof. unfold Pipeline.send. by destruct (head (Fx.send_tape w)) as [[f|]|]. Qed.

Lemma safeUnlink_reports filePath w :
  Pipeline.reported (Fx.trace (Fx.safeUnlink filePath w).2) = Pipeline.reported (Fx.trace w).
Proof.
  destruct filePath as [[|c p]|]; [done| |done].
  unfold Fx.safeUnlink, Fx.try_catch.
  pose proof (DownloaderFacts.unlink_trace (String c p) w) as Ht.
  destruct (Fx.unlink (String c p) w) as [[[]|e] w1]; cbn [snd] in *.
  - rewrite Ht, reported_app. simpl. by rewrite app_nil_r.
  - case_bool_decide; simpl; rewrite ?reported_app, Ht, reported_app; simpl;
      by rewrite ?app_nil_r.
Qed.

(** C8.  In a run of [processSelectedMedia] whose download succeeded and
    whose send of the file is rejected by the transport with [failure]: what
    the inner [catch] throws on is the FILE_TOO_LARGE download error exactly
    when the message of [failure] contains [too large], [media too big] or
    [413] up to letter case, and otherwise [failure] itself with the
    send-failed code of the media type; the line then reported to the user is
    the size line in the first case and the send-failed line of the media type
    in the second. *)
Theorem C8_send_failure_classification
    (cfg : Config.config) (video : Bot.candidate) (mediaType : Bot.media)
    (w w1 w2 : Fx.world) (downloadResult : Downloader.download_result)
    (failure : Fx.transport_error) :
  Pipeline.replyText (announcement mediaType) (Fx.with_outputFile None w) = (Fx.Ok tt, w1) →
  Pipeline.download cfg video mediaType w1 = (Fx.Ok downloadResult, w2) →
  head (Fx.send_tape w2) = Some (Some failure) →
  let sendError := Fx.ofTransport failure in
  let thrown := Pipeline.rethrowSendError mediaType sendError in
  let w' := (Pipeline.processSelectedMedia cfg video mediaType w).2 in
  (Fx.code thrown = Some "FILE_TOO_LARGE" ∧ Fx.cls thrown = Fx.DownloadError
   ↔ contains_ci (Str.str (Fx.te_message failure)) (Str.str "too large")
     ∨ contains_ci (Str.str (Fx.te_message failure)) (Str.str "media too big")
     ∨ contains_ci (Str.str (Fx.te_message failure)) (Str.str "413"))
  ∧ (Fx.code thrown = Some "FILE_TOO_LARGE" ∨ Fx.code thrown = Some (Pipeline.sendFailedCode mediaType))
  ∧ Pipeline.reported (Fx.trace w')
    = Pipeline.reported (Fx.trace w2) ++ [Pipeline.mapPlayError cfg thrown]
  ∧ Pipeline.mapPlayError cfg thrown
    = if Pipeline.isWhatsAppSizeError sendError
      then "O arquivo final ficou muito grande para envio no WhatsApp."
      else sendFailedLine mediaType.
Proof.
  intros Hannounce Hdl Hsend sendError thrown w'.
  pose proof (isWhatsAppSizeError_spec sendError) as Hspec.
  change (Fx.message sendError) with (Fx.te_message failure) in Hspec.
  assert (Hthrown : thrown = if Pipeline.isWhatsAppSizeError sendError
                             then Fx.newDownloadError "FILE_TOO_LARGE"
                                    "Arquivo excede o limite de envio do WhatsApp."
                             else Fx.mkError Fx.PlainError
                                    (Some (Pipeline.sendFailedCode mediaType))
                                    (Fx.te_message failure)) by reflexivity.
  split_and!.
  - rewrite <- Hspec, Hthrown.
    destruct (Pipeline.isWhatsAppSizeError sendError); simpl; [done|].
    split; [intros [_ ?]; done|done].
  - rewrite Hthrown. destruct (Pipeline.isWhatsAppSizeError sendError); simpl; auto.
  - subst w'. unfold Pipeline.processSelectedMedia.
    unfold mbind, Fx.M_bind, Fx.bind, Fx.try_finally, Fx.try_catch.
    cbn [Fx.set_outputFile].
    destruct mediaType; cbn [announcement] in Hannounce; rewrite Hannounce, Hdl;
      cbn [Fx.set_outputFile Fx.get_outputFile];
      unfold Pipeline.replyAudio, Pipeline.replyVideo, Pipeline.send at 1;
      cbn [Fx.with_outputFile Fx.send_tape Fx.log Fx.trace Fx.outputFile];
      rewrite Hsend; unfold Fx.throw; fold sendError; fold thrown.
    all: match goal with
         | |- context [Pipeline.replyText ?t ?w3] =>
           pose proof (send_run (Fx.EvReplyText t) w3) as [Ht Ho];
           fold (Pipeline.replyText t) in Ht, Ho;
           destruct (Pipeline.replyText t w3) as [r4 w4]
         end; cbn [snd Fx.trace Fx.outputFile] in Ht, Ho.
    all: pose proof (safeUnlink_reports (Fx.outputFile w4) w4) as Hr;
      pose proof (DownloaderFacts.safeUnlink_never_throws (Fx.outputFile w4) w4) as Hok;
      destruct (Fx.safeUnlink (Fx.outputFile w4) w4) as [[[]|e] w5]; [|done];
      cbn [fst snd] in *; rewrite Hr, Ht, !reported_app; simpl; by rewrite app_nil_r.
  - rewrite Hthrown. destruct (Pipeline.isWhatsAppSizeError sendError); [reflexivity|].
    destruct mediaType; reflexivity.
Qed.

Lemma C8_witness :
  let cfg := Config.load (Config.mkEnv None None None None None None None) in
  let video := Bot.mkCandidate Bot.KindVideo "song" "https://youtu.be/x" (Some 100) in
  let raw := Fx.mkPath "/dl" "song-1" ".mp4" in
  let w := Fx.mkWorld ∅ [] [Fx.YtDlpWrote raw 500] [Fx.FfmpegExit 0 (Some 50)] [] []
             [None; Some (Fx.mkTransportError "Media Too Big" None)] None in
  Pipeline.reported (Fx.trace (Pipeline.processSelectedMedia cfg video Bot.MEDIA_VIDEO w).2)
  = ["O arquivo final ficou muito grande para envio no WhatsApp."].
Proof.
  intros cfg video raw w.
  set (w1 := (Pipeline.replyText Fx.TxtDownloadingVideo (Fx.with_outputFile None w)).2).
  set (w2 := (Pipeline.download cfg video Bot.MEDIA_VIDEO w1).2).
  assert (Hannounce : Pipeline.replyText (announcement Bot.MEDIA_VIDEO)
                        (Fx.with_outputFile None w) = (Fx.Ok tt, w1))
    by (vm_compute; reflexivity).
  assert (Hdl : Pipeline.download cfg video Bot.MEDIA_VIDEO w1
                = (Fx.Ok (Downloader.mkResult "/dl/song-1-wa.mp4" 50), w2))
    by (vm_compute; reflexivity).
  assert (Hsend : head (Fx.send_tape w2)
                  = Some (Some (Fx.mkTransportError "Media Too Big" None)))
    by (vm_compute; reflexivity).
  pose proof (C8_send_failure_classification cfg video Bot.MEDIA_VIDEO w w1 w2
                (Downloader.mkResult "/dl/song-1-wa.mp4" 50)
                (Fx.mkTransportError "Media Too Big" None)
                Hannounce Hdl Hsend) as (_ & _ & Hreported & Hline).
  rewrite Hreported, Hline. vm_compute. reflexivity.
Defined.

(** ** Reply parsing *)

(** *** Character classes *)

(** The classes [\d], [\s] and [[a-z]] are pairwise disjoint, lower-casing
    fixes their members, and only letters are lower-cased into [[a-z]]. *)
Lemma char_classes c :
  (Str.is_digit c = true → Str.is_space c = false ∧ Str.is_lower c = false
                           ∧ Str.lower_char c = c)
  ∧ (Str.is_space c = true → Str.is_lower c = false ∧ Str.lower_char c = c)
  ∧ (Str.is_lower c = true → Str.lower_char c = c)
  ∧ (Str.is_lower (Str.lower_char c) = true → Str.is_space c = false ∧ Str.is_digit c = false).
Proof.
  destruct c as [[] [] [] [] [] [] [] []]; vm_compute; repeat split; congruence.
Qed.

Lemma digit_not_space c : Str.is_digit c = true → Str.is_space c = false.
Proof. intros H. by destruct (proj1 (char_classes c) H) as (? & ? & ?). Qed.

Lemma digit_not_lower c : Str.is_digit c = true → Str.is_lower c = false.
Proof. intros H. by destruct (proj1 (char_classes c) H) as (? & ? & ?). Qed.

Lemma space_not_lower c : Str.is_space c = true → Str.is_lower c = false.
Proof. intros H. by destruct (proj1 (proj2 (char_classes c)) H) as (? & ?). Qed.

Lemma space_not_digit c : Str.is_space c = true → Str.is_digit c = false.
Proof.
  intros H. destruct (Str.is_digit c) eqn:Hd; [|done].
  apply digit_not_space in Hd. congruence.
Qed.

Lemma lower_not_digit c : Str.is_lower c = true → Str.is_digit c = false.
Proof.
  intros H. destruct (Str.is_digit c) eqn:Hd; [|done].
  apply digit_not_lower in Hd. congruence.
Qed.

Lemma lower_not_space c : Str.is_lower c = true → Str.is_space c = false.
Proof.
  intros H. destruct (Str.is_space c) eqn:Hd; [|done].
  apply space_not_lower in Hd. congruence.
Qed.

(** *** Runs of a class *)

Lemma take_drop_while f s : Str.take_while f s ++ Str.drop_while f s = s.
Proof. induction s as [|c s IH]; simpl; [done|]. destruct (f c); simpl; by rewrite ?IH. Qed.

Lemma take_while_all f s : all f (Str.take_while f s).
Proof.
  induction s as [|c s IH]; simpl; [constructor|].
  destruct (f c) eqn:Hc; by constructor.
Qed.

Lemma drop_while_stops f s : stops f (Str.drop_while f s).
Proof. induction s as [|c s IH]; simpl; [done|]. by destruct (f c) eqn:Hc. Qed.

Lemma take_while_app f a b : all f a → stops f b → Str.take_while f (a ++ b) = a.
Proof.
  intros Ha Hb. induction Ha as [|c a Hc Ha IH]; simpl.
  - destruct b as [|c b]; [done|]. simpl in *. by rewrite Hb.
  - by rewrite Hc, IH.
Qed.

Lemma drop_while_app f a b : all f a → stops f b → Str.drop_while f (a ++ b) = b.
Proof.
  intros Ha Hb. induction Ha as [|c a Hc Ha IH]; simpl.
  - destruct b as [|c b]; [done|]. simpl in *. by rewrite Hb.
  - by rewrite Hc, IH.
Qed.

Lemma forallb_all f s : forallb f s = true ↔ all f s.
Proof. unfold all. rewrite forallb_forall, Forall_forall. by setoid_rewrite list_elem_of_In. Qed.

Lemma nonempty_true s : Bot.nonempty s = true ↔ s ≠ [].
Proof. by destruct s. Qed.

Lemma all_digits_spec s : Bot.all_digits s = true ↔ s ≠ [] ∧ all Str.is_digit s.
Proof. unfold Bot.all_digits. by rewrite andb_true_iff, nonempty_true, forallb_all. Qed.

(** A non-empty run of one class stops every other class. *)
Lemma stops_app f g a b :
  (∀ c, g c = true → f c = false) → a ≠ [] → all g a → stops f (a ++ b).
Proof. intros Hd Hne Ha. destruct Ha as [|c a Hc _]; [done|]. simpl. by apply Hd. Qed.

Lemma stops_app_nil f g a b :
  (∀ c, g c = true → f c = false) → all g a → stops f b → stops f (a ++ b).
Proof. intros Hd Ha Hb. destruct Ha as [|c a Hc _]; [done|]. simpl. by apply Hd. Qed.

Lemma toLowerCase_fixed f s :
  (∀ c, f c = true → Str.lower_char c = c) → all f s → Str.toLowerCase s = s.
Proof.
  intros Hf Hs. unfold Str.toLowerCase. induction Hs as [|c s Hc Hs IH]; simpl; [done|].
  by rewrite Hf, IH.
Qed.

(** *** The two shapes with a media token *)

Lemma match_mediaFirst_spec value token digits :
  Bot.match_mediaFirst value = Some (token, digits) ↔ media_first value token digits.
Proof.
  unfold Bot.match_mediaFirst. cbv zeta. split.
  - destruct (Bot.nonempty _ && Bot.all_digits _) eqn:Hc; [|done].
    intros [= <- <-]. apply andb_true_iff in Hc as [Hn Hd].
    apply nonempty_true in Hn. apply all_digits_spec in Hd as [Hdn Hd].
    exists (Str.take_while Str.is_space (Str.drop_while Str.is_lower value)).
    split_and!; try done; try apply take_while_all.
    by rewrite !take_drop_while.
  - intros (ws & -> & Hn & Ht & Hw & Hdn & Hd).
    assert (Hstop : stops Str.is_lower (ws ++ digits)).
    { apply (stops_app_nil _ Str.is_space); [apply space_not_lower|done|].
      rewrite <- (app_nil_r digits).
      by apply (stops_app _ Str.is_digit); [apply digit_not_lower|..]. }
    assert (Hstop2 : stops Str.is_space digits).
    { rewrite <- (app_nil_r digits).
      by apply (stops_app _ Str.is_digit); [apply digit_not_space|..]. }
    rewrite take_while_app, drop_while_app, drop_while_app by done.
    apply nonempty_true in Hn. rewrite Hn.
    by rewrite (proj2 (all_digits_spec digits)).
Qed.

Lemma match_indexFirst_spec value digits token :
  Bot.match_indexFirst value = Some (digits, token) ↔ index_first value digits token.
Proof.
  unfold Bot.match_indexFirst. cbv zeta. split.
  - destruct (Bot.nonempty _ && Bot.nonempty _ && forallb _ _) eqn:Hc; [|done].
    intros [= <- <-]. apply andb_true_iff in Hc as [Hc Hl].
    apply andb_true_iff in Hc as [Hn Hn2].
    apply nonempty_true in Hn, Hn2. apply forallb_all in Hl.
    exists (Str.take_while Str.is_space (Str.drop_while Str.is_digit value)).
    split_and!; try done; try apply take_while_all.
    by rewrite !take_drop_while.
  - intros (ws & -> & Hdn & Hd & Hw & Hn & Ht).
    assert (Hstop : stops Str.is_digit (ws ++ token)).
    { apply (stops_app_nil _ Str.is_space);
        [apply space_not_digit|done|].
      rewrite <- (app_nil_r token).
      by apply (stops_app _ Str.is_lower); [apply lower_not_digit|..]. }
    assert (Hstop2 : stops Str.is_space token).
    { rewrite <- (app_nil_r token).
      by apply (stops_app _ Str.is_lower); [apply lower_not_space|..]. }
    rewrite take_while_app, drop_while_app, drop_while_app by done.
    apply nonempty_true in Hdn, Hn. rewrite Hdn, Hn.
    by rewrite (proj2 (forallb_all _ token)).
Qed.

Lemma normalizeMediaToken_spec token m :
  Bot.normalizeMediaToken token = Some m ↔ names (Str.toLowerCase token) m.
Proof.
  unfold Bot.normalizeMediaToken, Str.eqb, names. cbv zeta.
  generalize (Str.toLowerCase token). intros value.
  repeat case_bool_decide; subst; simpl; destruct m; split;
    try done; try (intros [= <-]); try (intros [?|?]); subst; try done; auto.
Qed.

Lemma normalizeMediaToken_lower token m :
  all Str.is_lower token →
  Bot.normalizeMediaToken token = Some m ↔ names token m.
Proof.
  intros Hl. rewrite normalizeMediaToken_spec.
  rewrite (toLowerCase_fixed Str.is_lower); [done| |done].
  intros c Hc. by apply char_classes.
Qed.

Lemma normalizeMediaToken_none token :
  all Str.is_lower token →
  Bot.normalizeMediaToken token = None ↔ ∀ m, ¬ names token m.
Proof.
  intros Hl. split.
  - intros Hn m Hm. apply normalizeMediaToken_lower in Hm; [congruence|done].
  - intros Hno. destruct (Bot.normalizeMediaToken token) as [m|] eqn:Hm; [|done].
    apply normalizeMediaToken_lower in Hm; [|done]. by destruct (Hno m).
Qed.

Lemma all_digits_false_head c s : Str.is_digit c = false → Bot.all_digits (c :: s) = false.
Proof. intros Hc. unfold Bot.all_digits. simpl. by rewrite Hc. Qed.

Lemma parse_bare text d :
  Bot.all_digits (Str.toLowerCase (Str.trim text)) = true →
  Bot.parseSelectionChoice text d
  = Some (Str.number_of_digits (Str.toLowerCase (Str.trim text)), d).
Proof.
  intros Hd. unfold Bot.parseSelectionChoice. cbv zeta. rewrite Hd.
  apply all_digits_spec in Hd as [Hn _]. apply nonempty_true in Hn. by rewrite Hn.
Qed.

Lemma parse_media_first text d token digits :
  media_first (Str.toLowerCase (Str.trim text)) token digits →
  Bot.parseSelectionChoice text d = with_token digits token.
Proof.
  intros Hm. pose proof Hm as (ws & Hv & Hn & Ht & _).
  apply match_mediaFirst_spec in Hm.
  unfold Bot.parseSelectionChoice, with_token. cbv zeta. rewrite Hm, Hv.
  destruct Ht as [|c token Hc _]; [done|]. simpl.
  rewrite all_digits_false_head by by apply lower_not_digit.
  by destruct (Bot.normalizeMediaToken (c :: token)).
Qed.

Lemma parse_index_first text d digits token :
  index_first (Str.toLowerCase (Str.trim text)) digits token →
  Bot.parseSelectionChoice text d = with_token digits token.
Proof.
  intros Hm. pose proof Hm as (ws & Hv & Hdn & Hd & Hw & Hn & Ht).
  apply match_indexFirst_spec in Hm.
  unfold Bot.parseSelectionChoice, with_token. cbv zeta. rewrite Hm, Hv.
  assert (Hnot : Bot.all_digits (digits ++ ws ++ token) = false).
  { apply not_true_is_false. intros Hall. apply all_digits_spec in Hall as [_ Hall].
    apply Forall_app in Hall as [_ Hall]. apply Forall_app in Hall as [_ Hall].
    destruct Ht as [|c token Hc _]; [done|]. apply Forall_cons in Hall as [Hcd _].
    apply lower_not_digit in Hc. congruence. }
  rewrite Hnot.
  assert (Hmf : Bot.match_mediaFirst (digits ++ ws ++ token) = None).
  { unfold Bot.match_mediaFirst. cbv zeta.
    destruct Hd as [|c digits Hc _]; [done|]. simpl.
    by rewrite (digit_not_lower c Hc). }
  rewrite Hmf.
  destruct Hd as [|c digits Hc _]; [done|]. simpl.
  by destruct (Bot.normalizeMediaToken token).
Qed.

(** C5.  Whatever the reply, with [value] its trimmed lower-case form:
    [parseSelectionChoice] returns an index with a media type exactly when
    [value] is a run of digits (the media type is then the default), or a
    letter token followed by digits, or digits followed by a letter token,
    white space allowed in between, where the token is [a] or [audio] (audio)
    or [v] or [video] (video); with any other letter token in either of the
    two shapes it returns [null].  The index is read from the run of digits
    of the shape: it is the number they spell where that is below [2^53]. *)
Theorem C5_selection_choice_shapes (text : Str.jsstring) (defaultMediaType : Bot.media) :
  let value := Str.toLowerCase (Str.trim text) in
  (∀ mediaType,
     (∃ index, Bot.parseSelectionChoice text defaultMediaType = Some (index, mediaType))
     ↔ (value ≠ [] ∧ all Str.is_digit value ∧ mediaType = defaultMediaType)
       ∨ (∃ token digits, media_first value token digits ∧ names token mediaType)
       ∨ (∃ digits token, index_first value digits token ∧ names token mediaType))
  ∧ (∀ token digits,
       media_first value token digits ∨ index_first value digits token →
       (∀ mediaType, ¬ names token mediaType) →
       Bot.parseSelectionChoice text defaultMediaType = None)
  ∧ (∀ index mediaType,
       Bot.parseSelectionChoice text defaultMediaType = Some (index, mediaType) →
       ∃ digits,
         (value = digits ∨ (∃ token, media_first value token digits)
          ∨ (∃ token, index_first value digits token))
         ∧ digits ≠ [] ∧ all Str.is_digit digits
         ∧ (Str.number_of_digits digits < 2 ^ 53 → index = Str.number_of_digits digits)).
Proof.
  intros value.
  assert (Hshape : ∀ index mediaType,
            Bot.parseSelectionChoice text defaultMediaType = Some (index, mediaType)
            ↔ (value ≠ [] ∧ all Str.is_digit value
               ∧ index = Str.number_of_digits value ∧ mediaType = defaultMediaType)
              ∨ (∃ token digits,
                   media_first value token digits ∧ names token mediaType
                   ∧ index = Str.number_of_digits digits)
              ∨ (∃ digits token,
                   index_first value digits token ∧ names token mediaType
                   ∧ index = Str.number_of_digits digits)).
  { intros index mediaType. unfold value. split.
    + unfold Bot.parseSelectionChoice. cbv zeta. fold value.
      destruct (Bot.nonempty value) eqn:Hne; [|done]. simpl.
      destruct (Bot.all_digits value) eqn:Hd.
      { intros [= <- <-]. left. by apply all_digits_spec in Hd as [? ?]. }
      destruct (Bot.match_mediaFirst value) as [[token digits]|] eqn:Hmf.
      { apply match_mediaFirst_spec in Hmf.
        destruct (Bot.normalizeMediaToken token) as [m|] eqn:Hm; [|done].
        intros [= <- <-]. right. left. exists token, digits.
        destruct Hmf as (ws & ? & ? & Hl & ?).
        split_and!; [by exists ws|by apply normalizeMediaToken_lower in Hm|done]. }
      destruct (Bot.match_indexFirst value) as [[digits token]|] eqn:Hif; [|done].
      apply match_indexFirst_spec in Hif.
      destruct (Bot.normalizeMediaToken token) as [m|] eqn:Hm; [|done].
      intros [= <- <-]. right. right. exists digits, token.
      destruct Hif as (ws & ? & ? & ? & ? & ? & Hl).
      split_and!; [by exists ws|by apply normalizeMediaToken_lower in Hm|done].
    + intros [(Hn & Hd & -> & ->)|[(token & digits & Hs & Hm & ->)|(digits & token & Hs & Hm & ->)]].
      * apply parse_bare. by apply all_digits_spec.
      * rewrite (parse_media_first _ _ _ _ Hs). unfold with_token.
        destruct Hs as (ws & ? & ? & Hl & ?).
        apply normalizeMediaToken_lower in Hm; [|done]. by rewrite Hm.
      * rewrite (parse_index_first _ _ _ _ Hs). unfold with_token.
        destruct Hs as (ws & ? & ? & ? & ? & ? & Hl).
        apply normalizeMediaToken_lower in Hm; [|done]. by rewrite Hm. }
  split_and!.
  - intros mediaType. split.
    + intros [index Hparsed]. apply Hshape in Hparsed
        as [(? & ? & _ & ?)|[(token & digits & ? & ? & _)|(digits & token & ? & ? & _)]];
        [by left|right; left; by exists token, digits|right; right; by exists digits, token].
    + intros [(Hn & Hd & ->)|[(token & digits & Hs & Hm)|(digits & token & Hs & Hm)]].
      * exists (Str.number_of_digits value). apply Hshape. by left.
      * exists (Str.number_of_digits digits). apply Hshape. right. left. by exists token, digits.
      * exists (Str.number_of_digits digits). apply Hshape. right. right. by exists digits, token.
  - intros token digits [Hs|Hs] Hno.
    + rewrite (parse_media_first _ _ _ _ Hs). unfold with_token.
      destruct Hs as (ws & ? & ? & Hl & ?).
      apply normalizeMediaToken_none in Hno; [|done]. by rewrite Hno.
    + rewrite (parse_index_first _ _ _ _ Hs). unfold with_token.
      destruct Hs as (ws & ? & ? & ? & ? & ? & Hl).
      apply normalizeMediaToken_none in Hno; [|done]. by rewrite Hno.
  - intros index mediaType Hparsed. apply Hshape in Hparsed
      as [(Hn & Hd & -> & _)|[(token & digits & Hs & _ & ->)|(digits & token & Hs & _ & ->)]].
    + exists value. split_and!; [by left|done|done|done].
    + exists digits. pose proof Hs as (ws & _ & _ & _ & _ & Hn & Hd).
      split_and!; [right; left; by exists token|done|done|done].
    + exists digits. pose proof Hs as (ws & _ & Hn & Hd & _).
      split_and!; [right; right; by exists token|done|done|done].
Qed.

(** *** Letter case and spacing *)

Lemma all_rev f s : all f s → all f (rev s).
Proof. apply Forall_rev. Qed.














(** The replies of the help text and some that are refused. *)
Example parse_examples :
  map (λ s, Bot.parseSelectionChoice (Str.str s) Bot.MEDIA_VIDEO)
      ["1"; "a1"; "v1"; "audio3"; "3a"; "A3"; "Audio 3"; "3 V"; "x3"; "3x"; "a"; ""; "1.5"]
  = [Some (1, Bot.MEDIA_VIDEO); Some (1, Bot.MEDIA_AUDIO); Some (1, Bot.MEDIA_VIDEO);
     Some (3, Bot.MEDIA_AUDIO); Some (3, Bot.MEDIA_AUDIO); Some (3, Bot.MEDIA_AUDIO);
     Some (3, Bot.MEDIA_AUDIO); Some (3, Bot.MEDIA_VIDEO); None; None; None; None; None].
Proof. vm_compute. reflexivity. Qed.

(* ===================================================================== *)
(** * Further properties *)
(* ===================================================================== *)

(** ** White space *)

Lemma drop_while_all_app f a b : all f a → Str.drop_while f (a ++ b) = Str.drop_while f b.
Proof.
  intros Ha. induction Ha as [|c a Hc _ IH]; simpl; [done|]. by rewrite Hc.
Qed.

Lemma drop_while_all f a : all f a → Str.drop_while f a = [].
Proof.
  intros Ha. rewrite <- (app_nil_r a). by rewrite drop_while_all_app.
Qed.

Lemma drop_while_keeps_app f a b :
  Str.drop_while f a ≠ [] → Str.drop_while f (a ++ b) = Str.drop_while f a ++ b.
Proof.
  induction a as [|c a IH]; simpl; [done|]. destruct (f c); [exact IH|done].
Qed.

Lemma drop_while_nil_all f a : Str.drop_while f a = [] → all f a.
Proof.
  induction a as [|c a IH]; simpl; [constructor|].
  destruct (f c) eqn:Hc; [|done]. intros H. constructor; [done|by apply IH].
Qed.

Lemma drop_while_fixed f s : stops f s → Str.drop_while f s = s.
Proof. destruct s as [|c s]; simpl; [done|]. by intros ->. Qed.

(** A string is white space, its trimmed form, and white space. *)
Lemma trim_decompose s :
  ∃ lead trail,
    s = lead ++ Str.trim s ++ trail
    ∧ all Str.is_space lead ∧ all Str.is_space trail
    ∧ stops Str.is_space (Str.trim s) ∧ stops Str.is_space (rev (Str.trim s)).
Proof.
  unfold Str.trim.
  set (a := Str.drop_while Str.is_space s).
  set (b := Str.drop_while Str.is_space (rev a)).
  exists (Str.take_while Str.is_space s), (rev (Str.take_while Str.is_space (rev a))).
  assert (Ha : rev b ++ rev (Str.take_while Str.is_space (rev a)) = a).
  { rewrite <- rev_app_distr. unfold b. rewrite take_drop_while. apply rev_involutive. }
  split_and!.
  - rewrite Ha. unfold a. by rewrite take_drop_while.
  - apply take_while_all.
  - apply all_rev, take_while_all.
  - pose proof (drop_while_stops Str.is_space s) as Hs. fold a in Hs. rewrite <- Ha in Hs.
    destruct (rev b); [done|exact Hs].
  - rewrite rev_involutive. apply drop_while_stops.
Qed.

Lemma trim_fixed s :
  stops Str.is_space s → stops Str.is_space (rev s) → Str.trim s = s.
Proof.
  intros H1 H2. unfold Str.trim. rewrite (drop_while_fixed _ s H1).
  rewrite (drop_while_fixed _ _ H2). apply rev_involutive.
Qed.

Lemma trim_idempotent s : Str.trim (Str.trim s) = Str.trim s.
Proof.
  destruct (trim_decompose s) as (lead & trail & _ & _ & _ & H1 & H2). by apply trim_fixed.
Qed.

(** White space around a string does not change its trimmed form. *)
Lemma trim_pad lead s trail :
  all Str.is_space lead → all Str.is_space trail →
  Str.trim (lead ++ s ++ trail) = Str.trim s.
Proof.
  intros Hl Ht. unfold Str.trim. rewrite drop_while_all_app by done.
  destruct (Str.drop_while Str.is_space s) as [|c a] eqn:Ha.
  - apply drop_while_nil_all in Ha.
    rewrite drop_while_all_app, (drop_while_all _ trail) by done. done.
  - rewrite drop_while_keeps_app by by rewrite Ha.
    rewrite Ha, rev_app_distr, drop_while_all_app by by apply all_rev. done.
Qed.

(** ** Commands *)

Lemma blank_is_space c : Commands.is_blank c = true → Str.is_space c = true.
Proof.
  unfold Commands.is_blank, Str.is_space. intros ->. by rewrite orb_true_r.
Qed.

(** Lower-casing maps nothing new onto the slash, the blank or white space. *)
Lemma lower_char_preimage c :
  (Str.lower_char c = "/"%char → c = "/"%char)
  ∧ (Commands.is_blank (Str.lower_char c) = Commands.is_blank c)
  ∧ (Str.is_space (Str.lower_char c) = Str.is_space c).
Proof.
  destruct c as [[] [] [] [] [] [] [] []]; vm_compute; repeat split; congruence.
Qed.

Lemma parseCommand_dispatch rawText :
  Commands.parseCommand rawText = dispatch (Str.trim rawText).
Proof. by destruct rawText. Qed.

(** X1.  White space before and after a message does not change what
    [parseCommand] makes of it. *)
Theorem X1_parseCommand_ignores_outer_space (lead text trail : Str.jsstring) :
  all Str.is_space lead → all Str.is_space trail →
  Commands.parseCommand (lead ++ text ++ trail) = Commands.parseCommand text.
Proof.
  intros Hl Ht. by rewrite !parseCommand_dispatch, trim_pad.
Qed.

Lemma X1_witness :
  Commands.parseCommand (Str.str "  /Play  Numb ")
  = Commands.parseCommand (Str.str "/Play  Numb").
Proof.
  refine (X1_parseCommand_ignores_outer_space (Str.str "  ") (Str.str "/Play  Numb")
            (Str.str " ") _ _); repeat constructor.
Defined.

(** The trimmed form of a command word followed by a blank and a rest. *)
Lemma trim_command word rest :
  word ≠ [] → stops Str.is_space word → stops Str.is_space (rev word) →
  Str.trim (word ++ " "%char :: rest)
  = match Str.trim rest with
    | [] => word
    | _ => word ++ " "%char :: Str.take_while Str.is_space rest ++ Str.trim rest
    end.
Proof.
  intros Hne H1 H2.
  destruct (trim_decompose rest) as (lead & trail & Hrest & Hl & Ht & Hs1 & Hs2).
  assert (Hlead : Str.take_while Str.is_space rest = lead
                  ∨ Str.trim rest = []).
  { destruct (Str.trim rest) as [|c core] eqn:Hcore; [by right|left].
    rewrite Hrest. apply take_while_app; [done|]. simpl in *. exact Hs1. }
  destruct (Str.trim rest) as [|c core] eqn:Hcore.
  - rewrite Hrest. simpl.
    pose proof (trim_pad [] word (" "%char :: lead ++ trail)) as Hpad. simpl in Hpad.
    rewrite Hpad.
    + by apply trim_fixed.
    + constructor.
    + constructor; [done|]. by apply Forall_app.
  - destruct Hlead as [Hlead|]; [|done]. rewrite Hlead, Hrest.
    pose proof (trim_pad [] (word ++ " "%char :: lead ++ c :: core) trail) as Hpad.
    simpl in Hpad. rewrite <- !app_assoc in Hpad. simpl in Hpad.
    rewrite <- !app_assoc in Hpad. simpl in Hpad.
    change ((c :: core) ++ trail) with (c :: core ++ trail).
    rewrite Hpad by (done || constructor).
    apply trim_fixed.
    + by destruct word.
    + rewrite rev_app_distr. simpl. rewrite rev_app_distr. simpl.
      simpl in Hs2. rewrite <- !app_assoc.
      destruct (rev core) as [|d rc]; simpl in *; exact Hs2.
Qed.

Lemma rawCommand_word word rest :
  all Commands.not_blank word → Commands.rawCommand (word ++ " "%char :: rest) = word.
Proof. intros Hw. unfold Commands.rawCommand. by rewrite take_while_app. Qed.

Lemma afterCommand_word word rest :
  all Commands.not_blank word → Commands.afterCommand (word ++ " "%char :: rest) = rest.
Proof.
  intros Hw. unfold Commands.afterCommand. rewrite drop_while_app; [done|done|reflexivity].
Qed.

Lemma rawCommand_alone word :
  all Commands.not_blank word → Commands.rawCommand word = word ∧ Commands.afterCommand word = [].
Proof.
  intros Hw. unfold Commands.rawCommand, Commands.afterCommand.
  pose proof (take_while_app Commands.not_blank word [] Hw I) as H1.
  pose proof (drop_while_app Commands.not_blank word [] Hw I) as H2.
  rewrite app_nil_r in H1, H2. by rewrite H1, H2.
Qed.

Lemma all_lower_image (f : ascii → bool) word :
  (∀ c, f (Str.lower_char c) = f c) →
  all f (Str.toLowerCase word) → all f word.
Proof.
  intros Hf. unfold all, Str.toLowerCase. rewrite Forall_map. intros Hall.
  eapply Forall_impl; [exact Hall|]. intros c. simpl. by rewrite Hf.
Qed.

Lemma command_word_shape word :
  command_word word →
  word ≠ [] ∧ Commands.starts_with_slash word = true
  ∧ all Commands.not_blank word
  ∧ stops Str.is_space word ∧ stops Str.is_space (rev word).
Proof.
  intros Hw.
  assert (Hlow : ∃ body, Str.toLowerCase word = "/"%char :: body
                         ∧ all (λ c, negb (Str.is_space c)) ("/"%char :: body)).
  { destruct Hw as [H|[H|[H|H]]]; rewrite H; eexists;
      (split; [reflexivity|repeat constructor]). }
  destruct Hlow as (body & Hlow & Hns).
  assert (Hword : all (λ c, negb (Str.is_space c)) word).
  { apply all_lower_image; [|by rewrite Hlow].
    intros c. f_equal. apply lower_char_preimage. }
  destruct word as [|c word]; [done|]. simpl in Hlow. injection Hlow as Hc _.
  apply lower_char_preimage in Hc as ->.
  split_and!; try done.
  - eapply Forall_impl; [exact Hword|]. intros c Hc. simpl in *.
    unfold Commands.not_blank. destruct (Commands.is_blank c) eqn:Hb; [|done].
    apply blank_is_space in Hb. by rewrite Hb in Hc.
  - apply all_rev in Hword. destruct (rev ("/"%char :: word)) as [|d r]; [done|].
    apply Forall_cons in Hword as [Hd _]. simpl. by apply negb_true_iff.
Qed.

Lemma starts_with_slash_app word more :
  Commands.starts_with_slash word = true → Commands.starts_with_slash (word ++ more) = true.
Proof. by destruct word. Qed.

Lemma command_parts word rest :
  command_word word →
  let text := Str.trim (word ++ " "%char :: rest) in
  Commands.starts_with_slash text = true
  ∧ Commands.rawCommand text = word
  ∧ Commands.queryOf text = query_of_rest rest.
Proof.
  intros Hw text. destruct (command_word_shape word Hw) as (Hne & Hslash & Hnb & Hs1 & Hs2).
  unfold text. rewrite trim_command by done. unfold query_of_rest, Commands.queryOf.
  destruct (Str.trim rest) as [|c core] eqn:Hcore.
  - destruct (rawCommand_alone word Hnb) as [-> ->]. done.
  - rewrite rawCommand_word, afterCommand_word by done.
    split_and!; [by apply starts_with_slash_app|done|].
    pose proof (trim_pad (Str.take_while Str.is_space rest) (c :: core) []) as Hpad.
    rewrite app_nil_r in Hpad. rewrite Hpad; [|apply take_while_all|constructor].
    rewrite <- Hcore, trim_idempotent, Hcore. done.
Qed.

Lemma command_alone word :
  command_word word →
  Commands.starts_with_slash (Str.trim word) = true
  ∧ Commands.rawCommand (Str.trim word) = word
  ∧ Commands.queryOf (Str.trim word) = Commands.EMPTY_QUERY.
Proof.
  intros Hw. destruct (command_word_shape word Hw) as (Hne & Hslash & Hnb & Hs1 & Hs2).
  rewrite trim_fixed by done. unfold Commands.queryOf.
  by destruct (rawCommand_alone word Hnb) as [-> ->].
Qed.

(** X2.  The command word is read without regard to letter case and ends at
    the first blank; what follows [/play] or [/video] is the query, trimmed
    and in its own letter case, or EMPTY_QUERY when nothing but white space
    follows; what follows [/help] or [/cancel] is ignored. *)
Theorem X2_command_word_and_query (word rest : Str.jsstring) :
  let text := word ++ " "%char :: rest in
  (Str.toLowerCase word = Str.str "/play" →
   Commands.parseCommand text = Commands.play (query_of_rest rest)
   ∧ Commands.parseCommand word = Commands.play Commands.EMPTY_QUERY)
  ∧ (Str.toLowerCase word = Str.str "/video" →
     Commands.parseCommand text = Commands.video (query_of_rest rest)
     ∧ Commands.parseCommand word = Commands.video Commands.EMPTY_QUERY)
  ∧ (Str.toLowerCase word = Str.str "/help" →
     Commands.parseCommand text = Commands.help
     ∧ Commands.parseCommand word = Commands.help)
  ∧ (Str.toLowerCase word = Str.str "/cancel" →
     Commands.parseCommand text = Commands.cancel
     ∧ Commands.parseCommand word = Commands.cancel).
Proof.
  intros text.
  assert (Hgen : command_word word →
                 ∀ command, Str.toLowerCase word = command →
                 Commands.parseCommand text
                 = (if Str.eqb command (Str.str "/help") then Commands.help
                    else if Str.eqb command (Str.str "/cancel") then Commands.cancel
                    else if Str.eqb command (Str.str "/play")
                         then Commands.play (query_of_rest rest)
                    else if Str.eqb command (Str.str "/video")
                         then Commands.video (query_of_rest rest)
                    else Commands.unknown command)
                 ∧ Commands.parseCommand word
                   = (if Str.eqb command (Str.str "/help") then Commands.help
                      else if Str.eqb command (Str.str "/cancel") then Commands.cancel
                      else if Str.eqb command (Str.str "/play")
                           then Commands.play Commands.EMPTY_QUERY
                      else if Str.eqb command (Str.str "/video")
                           then Commands.video Commands.EMPTY_QUERY
                      else Commands.unknown command)).
  { intros Hw command Hc. unfold text. rewrite !parseCommand_dispatch.
    unfold dispatch. cbv zeta.
    destruct (command_parts word rest Hw) as (-> & -> & ->).
    destruct (command_alone word Hw) as (-> & -> & ->).
    by rewrite Hc. }
  unfold command_word in Hgen.
  split_and!; intros Hc; destruct (Hgen ltac:(tauto) _ Hc) as [-> ->]; by split.
Qed.

Lemma X2_witness :
  Commands.parseCommand (Str.str "/PLAY   Linkin Park  ")
  = Commands.play (Commands.Query (Str.str "Linkin Park")).
Proof.
  exact (proj1 (proj1 (X2_command_word_and_query (Str.str "/PLAY") (Str.str "  Linkin Park  "))
                  eq_refl)).
Defined.

(** A reply that [parseSelectionChoice] accepts starts, once trimmed and
    lower-cased, with a digit or a letter. *)
Lemma selection_head text d r :
  Bot.parseSelectionChoice text d = Some r →
  ∃ c value, Str.toLowerCase (Str.trim text) = c :: value
             ∧ (Str.is_digit c = true ∨ Str.is_lower c = true).
Proof.
  unfold Bot.parseSelectionChoice. cbv zeta.
  set (value := Str.toLowerCase (Str.trim text)).
  destruct (Bot.nonempty value) eqn:Hne; [|done]. simpl.
  destruct (Bot.all_digits value) eqn:Hd.
  { intros _. apply all_digits_spec in Hd as [Hn Hd].
    destruct Hd as [|c v Hc _]; [done|]. exists c, v. auto. }
  destruct (Bot.match_mediaFirst value) as [[token digits]|] eqn:Hmf.
  { intros _. apply match_mediaFirst_spec in Hmf as (ws & Hv & Hn & Ht & _).
    destruct Ht as [|c t Hc _]; [done|]. rewrite Hv. exists c, (t ++ ws ++ digits). auto. }
  destruct (Bot.match_indexFirst value) as [[digits token]|] eqn:Hif; [|done].
  intros _. apply match_indexFirst_spec in Hif as (ws & Hv & Hn & Hd' & _).
  destruct Hd' as [|c t Hc _]; [done|]. rewrite Hv. exists c, (t ++ ws ++ token). auto.
Qed.

(** X3.  The two grammars are disjoint: a reply that [parseSelectionChoice]
    accepts is never a command for [parseCommand]. *)
Theorem X3_selection_reply_is_no_command
    (text : Str.jsstring) (d : Bot.media) (r : Z * Bot.media) :
  Bot.parseSelectionChoice text d = Some r →
  Commands.parseCommand text = Commands.none.
Proof.
  intros Hsel. apply selection_head in Hsel as (c & value & Hv & Hc).
  rewrite parseCommand_dispatch. unfold dispatch.
  destruct (Str.trim text) as [|c0 t]; [done|]. simpl in Hv. injection Hv as Hc0 _.
  assert (Hns : c0 ≠ "/"%char).
  { intros ->. vm_compute in Hc0. subst c. by destruct Hc. }
  unfold Commands.starts_with_slash. simpl.
  by rewrite bool_decide_eq_false_2 by congruence.
Qed.

Lemma X3_witness : Commands.parseCommand (Str.str " A3 ") = Commands.none.
Proof.
  apply (X3_selection_reply_is_no_command (Str.str " A3 ") Bot.MEDIA_VIDEO (3, Bot.MEDIA_AUDIO)).
  reflexivity.
Defined.

(** X4.  A query that [parseCommand] returns is never empty and carries no
    white space at either end. *)
Theorem X4_query_is_trimmed_and_not_empty (text q : Str.jsstring) :
  Commands.parseCommand text = Commands.play (Commands.Query q)
  ∨ Commands.parseCommand text = Commands.video (Commands.Query q) →
  q ≠ [] ∧ Str.trim q = q
  ∧ stops Str.is_space q ∧ stops Str.is_space (rev q).
Proof.
  rewrite parseCommand_dispatch. unfold dispatch. cbv zeta.
  assert (Hq : Commands.queryOf (Str.trim text) = Commands.Query q →
               q ≠ [] ∧ Str.trim q = q ∧ stops Str.is_space q ∧ stops Str.is_space (rev q)).
  { unfold Commands.queryOf. cbv zeta.
    destruct (trim_decompose (Commands.afterCommand (Str.trim text)))
      as (_ & _ & _ & _ & _ & H1 & H2).
    destruct (Str.trim (Commands.afterCommand (Str.trim text))) as [|c core] eqn:Hcore; [done|].
    intros [= <-]. split_and!; [done|by apply trim_fixed|done|done]. }
  repeat case_match; intros [Hr|Hr]; try done; injection Hr as Hr; by apply Hq.
Qed.

Lemma X4_witness :
  Str.trim (Str.str "Imagine Dragons") = Str.str "Imagine Dragons".
Proof.
  apply (X4_query_is_trimmed_and_not_empty (Str.str "/video   Imagine Dragons ")).
  right. reflexivity.
Defined.

(** ** Search results *)

Local Open Scope nat_scope.

(** The turns of the loop. *)
Lemma interleave_playlist {A} n (p : A) ps :
  Youtube.interleave (S n) [] (p :: ps) = p :: Youtube.interleave n [] ps.
Proof. reflexivity. Qed.

Lemma interleave_last {A} (v : A) vs ps : Youtube.interleave 1 (v :: vs) ps = [v].
Proof. reflexivity. Qed.

Lemma interleave_video {A} n (v : A) vs :
  Youtube.interleave (S (S n)) (v :: vs) [] = v :: Youtube.interleave (S n) vs [].
Proof. reflexivity. Qed.

Lemma interleave_both {A} n (v p : A) vs ps :
  Youtube.interleave (S (S n)) (v :: vs) (p :: ps) = v :: p :: Youtube.interleave n vs ps.
Proof. reflexivity. Qed.

Lemma interleave_length {A} n (vs ps : list A) :
  length (Youtube.interleave n vs ps) = n `min` (length vs + length ps).
Proof.
  revert vs ps. induction n as [n IH] using lt_wf_ind. intros vs ps.
  destruct n as [|[|n]]; [done| |]; destruct vs as [|v vs]; destruct ps as [|p ps];
    rewrite ?interleave_playlist, ?interleave_last, ?interleave_video, ?interleave_both;
    try done; cbn [length]; rewrite ?IH by lia; cbn [length]; lia.
Qed.

(** A ceiling rounded up leaves the ceiling above what is one less. *)
Lemma room_below_ceiling (q : QArith_base.Q) (n : nat) :
  0 < n → n ≤ Z.to_nat (Qround.Qceiling q) →
  QArith_base.Qlt (QArith_base.inject_Z (Z.of_nat n - 1)) q.
Proof.
  intros Hpos Hle. eapply QArith_base.Qle_lt_trans; [|apply Qround.Qceiling_lt].
  rewrite <- QArith_base.Zle_Qle. lia.
Qed.

(** X5.  [combineSearchResults] returns as many options as fit below the
    ceiling: the smaller of [maxTotalOptions] rounded up and the number of
    options it is given.  So every option it returns was pushed while the
    length was below [maxTotalOptions]; it returns no more than
    [maxTotalOptions] options when that is a whole number, and up to one more
    than fit when it is not; and none for a ceiling of zero or less. *)
Theorem X5_combined_results_count
    (videoOptions playlistOptions : list Bot.candidate) (maxTotalOptions : QArith_base.Q) :
  let mixed := Youtube.combineSearchResults videoOptions playlistOptions maxTotalOptions in
  length mixed
  = Z.to_nat (Qround.Qceiling maxTotalOptions) `min` (length videoOptions + length playlistOptions)
  ∧ (mixed ≠ [] →
     QArith_base.Qlt (QArith_base.inject_Z (Z.of_nat (length mixed) - 1)) maxTotalOptions)
  ∧ (∀ whole : Z, QArith_base.Qeq maxTotalOptions (QArith_base.inject_Z whole) →
       (Z.of_nat (length mixed) <= Z.max 0 whole)%Z)
  ∧ (QArith_base.Qle maxTotalOptions (QArith_base.inject_Z 0) → mixed = []).
Proof.
  intros mixed.
  assert (Hlen : length mixed
                 = Z.to_nat (Qround.Qceiling maxTotalOptions)
                   `min` (length videoOptions + length playlistOptions))
    by apply interleave_length.
  split_and!; [exact Hlen| | |].
  - intros Hne. apply room_below_ceiling; [by destruct mixed; [|simpl; lia]|lia].
  - intros whole Hwhole. rewrite Hlen, (Qround.Qceiling_comp _ _ Hwhole), Qround.Qceiling_Z.
    lia.
  - intros Hmax. apply Qround.Qceiling_resp_le in Hmax. rewrite Qround.Qceiling_Z in Hmax.
    apply nil_length_inv. rewrite Hlen. lia.
Qed.

Lemma videos_of_cons_video v l :
  Bot.c_kind v = Bot.KindVideo → videos_of (v :: l) = v :: videos_of l.
Proof. intros Hv. unfold videos_of. rewrite filter_cons. by rewrite decide_True. Qed.

Lemma videos_of_cons_playlist p l :
  Bot.c_kind p = Bot.KindPlaylist → videos_of (p :: l) = videos_of l.
Proof.
  intros Hp. unfold videos_of. rewrite filter_cons. rewrite decide_False; [done|congruence].
Qed.

Lemma playlists_of_cons_playlist p l :
  Bot.c_kind p = Bot.KindPlaylist → playlists_of (p :: l) = p :: playlists_of l.
Proof. intros Hp. unfold playlists_of. rewrite filter_cons. by rewrite decide_True. Qed.

Lemma playlists_of_cons_video v l :
  Bot.c_kind v = Bot.KindVideo → playlists_of (v :: l) = playlists_of l.
Proof.
  intros Hv. unfold playlists_of. rewrite filter_cons. rewrite decide_False; [done|congruence].
Qed.

(** The shape of an interleaving: the videos and the playlists taken are
    prefixes of the two lists, and neither kind runs ahead of the other while
    the other has options left. *)
Lemma interleave_shape n (vs ps : list Bot.candidate) :
  Forall (λ c, Bot.c_kind c = Bot.KindVideo) vs →
  Forall (λ c, Bot.c_kind c = Bot.KindPlaylist) ps →
  let r := Youtube.interleave n vs ps in
  let k := length (videos_of r) in
  let j := length (playlists_of r) in
  videos_of r = take k vs ∧ playlists_of r = take j ps
  ∧ (k ≤ S j ∨ j = length ps) ∧ (j ≤ k ∨ k = length vs).
Proof.
  revert vs ps. induction n as [n IH] using lt_wf_ind. intros vs ps Hvs Hps.
  destruct n as [|[|n]]; [cbn; split_and!; [done|done|lia|lia]| |];
    destruct Hvs as [|v vs Hv Hvs]; destruct Hps as [|p ps Hp Hps];
    rewrite ?interleave_playlist, ?interleave_last, ?interleave_video, ?interleave_both;
    try (cbn; split_and!; [done|done|lia|lia]); cbv zeta.
  - specialize (IH 0 ltac:(lia) [] ps ltac:(constructor) Hps).
    rewrite videos_of_cons_playlist, playlists_of_cons_playlist by done.
    cbn. split_and!; [done|done|lia|lia].
  - rewrite videos_of_cons_video, playlists_of_cons_video by done.
    cbn. split_and!; [done|done|lia|lia].
  - rewrite videos_of_cons_video, playlists_of_cons_video by done.
    cbn. split_and!; [done|done|lia|lia].
  - specialize (IH (S n) ltac:(lia) [] ps ltac:(constructor) Hps). cbv zeta in IH.
    destruct IH as (Hv' & Hp' & Hf1 & Hf2).
    rewrite videos_of_cons_playlist, playlists_of_cons_playlist by done.
    assert (Hk : length (videos_of (Youtube.interleave (S n) [] ps)) = 0)
      by (rewrite Hv'; by rewrite take_nil).
    rewrite Hk in *. cbn [length take]. rewrite <- Hp'.
    split_and!; [by rewrite Hv', take_nil|done|lia|lia].
  - specialize (IH (S n) ltac:(lia) vs [] Hvs ltac:(constructor)). cbv zeta in IH.
    destruct IH as (Hv' & Hp' & Hf1 & Hf2).
    rewrite videos_of_cons_video, playlists_of_cons_video by done.
    assert (Hj : length (playlists_of (Youtube.interleave (S n) vs [])) = 0)
      by (rewrite Hp'; by rewrite take_nil).
    rewrite Hj in *. cbn [length take]. rewrite <- Hv'.
    split_and!; [done|by rewrite Hp', take_nil|lia|lia].
  - specialize (IH n ltac:(lia) vs ps Hvs Hps). cbv zeta in IH.
    destruct IH as (Hv' & Hp' & Hf1 & Hf2).
    rewrite videos_of_cons_video, playlists_of_cons_video by done.
    rewrite videos_of_cons_playlist, playlists_of_cons_playlist by done.
    cbn [length take]. rewrite <- Hv', <- Hp'. cbn [length] in *.
    split_and!; [done|done|lia|lia].
Qed.

Lemma kinds_partition (l : list Bot.candidate) :
  length l = length (videos_of l) + length (playlists_of l).
Proof.
  induction l as [|c l IH]; [done|]. destruct (Bot.c_kind c) eqn:Hc.
  - rewrite videos_of_cons_video, playlists_of_cons_video by done. simpl. lia.
  - rewrite videos_of_cons_playlist, playlists_of_cons_playlist by done. simpl. lia.
Qed.

(** X6.  [combineSearchResults] keeps the order of what it is given: the
    videos it returns are the first videos, the playlists the first
    playlists; it starts with a video when there is one; it alternates, so
    that neither kind gets more than one ahead while the other has options
    left; and with room for all it returns every option. *)
Theorem X6_combined_results_interleave_in_order
    (videoOptions playlistOptions : list Bot.candidate) (maxTotalOptions : QArith_base.Q) :
  Forall (λ c, Bot.c_kind c = Bot.KindVideo) videoOptions →
  Forall (λ c, Bot.c_kind c = Bot.KindPlaylist) playlistOptions →
  let mixed := Youtube.combineSearchResults videoOptions playlistOptions maxTotalOptions in
  let k := length (videos_of mixed) in
  let j := length (playlists_of mixed) in
  videos_of mixed = take k videoOptions
  ∧ playlists_of mixed = take j playlistOptions
  ∧ (k ≤ S j ∨ j = length playlistOptions)
  ∧ (j ≤ k ∨ k = length videoOptions)
  ∧ (QArith_base.Qlt (QArith_base.inject_Z 0) maxTotalOptions → videoOptions ≠ [] →
     head mixed = head videoOptions)
  ∧ (QArith_base.Qle
       (QArith_base.inject_Z (Z.of_nat (length videoOptions + length playlistOptions)))
       maxTotalOptions →
     videos_of mixed = videoOptions ∧ playlists_of mixed = playlistOptions).
Proof.
  intros Hvs Hps mixed k j.
  destruct (interleave_shape (Z.to_nat (Qround.Qceiling maxTotalOptions))
              videoOptions playlistOptions Hvs Hps) as (Hv & Hp & Hf1 & Hf2).
  fold (Youtube.combineSearchResults videoOptions playlistOptions maxTotalOptions) in Hv, Hp, Hf1, Hf2.
  fold mixed in Hv, Hp, Hf1, Hf2. fold k in Hv, Hf1, Hf2. fold j in Hp, Hf1, Hf2.
  split_and!; try done.
  - intros Hmax Hne. unfold mixed, Youtube.combineSearchResults.
    assert (Hroom : (0 < Qround.Qceiling maxTotalOptions)%Z).
    { pose proof (QArith_base.Qlt_le_trans _ _ _ Hmax (Qround.Qle_ceiling maxTotalOptions))
        as Hlt. by rewrite <- QArith_base.Zlt_Qlt in Hlt. }
    destruct (Z.to_nat (Qround.Qceiling maxTotalOptions)) as [|[|n]] eqn:Hn; [lia| |];
      destruct videoOptions as [|v vs]; try done; by destruct playlistOptions.
  - intros Hroom. apply Qround.Qceiling_resp_le in Hroom. rewrite Qround.Qceiling_Z in Hroom.
    pose proof (interleave_length (Z.to_nat (Qround.Qceiling maxTotalOptions))
                  videoOptions playlistOptions) as Hlen.
    fold (Youtube.combineSearchResults videoOptions playlistOptions maxTotalOptions) in Hlen.
    fold mixed in Hlen. rewrite (kinds_partition mixed) in Hlen. fold k j in Hlen.
    assert (Hk : k ≤ length videoOptions).
    { unfold k. rewrite Hv, length_take. lia. }
    assert (Hj : j ≤ length playlistOptions).
    { unfold j. rewrite Hp, length_take. lia. }
    rewrite Hv, Hp. split; apply take_ge; lia.
Qed.

Lemma X6_witness :
  let v := λ t, Bot.mkCandidate Bot.KindVideo t "u" (Some 100%Z) in
  let p := λ t, Bot.mkCandidate Bot.KindPlaylist t "u" None in
  Youtube.combineSearchResults [v "v1"; v "v2"; v "v3"] [p "p1"] (QArith_base.inject_Z 3)
  = [v "v1"; p "p1"; v "v2"]
  ∧ videos_of (Youtube.combineSearchResults [v "v1"; v "v2"; v "v3"] [p "p1"]
                 (QArith_base.inject_Z 3))
    = take 2 [v "v1"; v "v2"; v "v3"].
Proof.
  intros v p. split; [reflexivity|].
  apply (X6_combined_results_interleave_in_order [v "v1"; v "v2"; v "v3"] [p "p1"]
           (QArith_base.inject_Z 3)); repeat constructor.
Defined.

Local Open Scope Z_scope.

(** ** Duration policy and compression profiles *)

Lemma assertDuration_supports cfg video m :
  Bot.assertDurationForMedia cfg video m = Fx.Ok tt ↔ Label.supports cfg video m = true.
Proof.
  unfold Bot.assertDurationForMedia, Label.supports, Bot.getVideoSupport. cbv zeta.
  set (d := Js.number_or (Bot.durationSeconds video) 0).
  destruct m; cbn [Bot.s_audio Bot.s_video];
    destruct (Z.eqb_spec d 0); destruct (Z.leb_spec d 0); simpl;
    repeat case_match; split; intros; try done; try lia.
Qed.

(** X7.  The support label shown beside a search result tells what the
    duration check will accept: [assertDurationForMedia] passes for a media
    type exactly when [getVideoSupport] flags it, the label is [A/V], [A],
    [V] or [-] as both, only audio, only video or neither passes, and a
    refusal is INVALID_DURATION exactly when the duration is not positive. *)
Theorem X7_support_label_agrees_with_duration_check
    (cfg : Config.config) (video : Bot.candidate) :
  let passes := λ m, Bot.assertDurationForMedia cfg video m = Fx.Ok tt in
  (∀ m, passes m ↔ Label.supports cfg video m = true)
  ∧ (Label.getVideoSupportLabel cfg video = "A/V"
     ↔ passes Bot.MEDIA_AUDIO ∧ passes Bot.MEDIA_VIDEO)
  ∧ (Label.getVideoSupportLabel cfg video = "A"
     ↔ passes Bot.MEDIA_AUDIO ∧ ¬ passes Bot.MEDIA_VIDEO)
  ∧ (Label.getVideoSupportLabel cfg video = "V"
     ↔ ¬ passes Bot.MEDIA_AUDIO ∧ passes Bot.MEDIA_VIDEO)
  ∧ (Label.getVideoSupportLabel cfg video = "-"
     ↔ ¬ passes Bot.MEDIA_AUDIO ∧ ¬ passes Bot.MEDIA_VIDEO)
  ∧ (∀ m, Bot.assertDurationForMedia cfg video m = Fx.Throw Bot.invalidDuration
          ↔ Js.number_or (Bot.durationSeconds video) 0 <= 0).
Proof.
  intros passes. unfold passes.
  pose proof (assertDuration_supports cfg video Bot.MEDIA_AUDIO) as Ha.
  pose proof (assertDuration_supports cfg video Bot.MEDIA_VIDEO) as Hv.
  unfold Label.supports in Ha, Hv.
  split_and!.
  - intros m. apply assertDuration_supports.
  - rewrite Ha, Hv. clear Ha Hv. unfold Label.getVideoSupportLabel. cbv zeta.
    destruct (Bot.s_audio _), (Bot.s_video _); simpl; split; intros; destruct_and?; try done.
  - rewrite Ha, Hv. clear Ha Hv. unfold Label.getVideoSupportLabel. cbv zeta.
    destruct (Bot.s_audio _), (Bot.s_video _); simpl; split; intros; destruct_and?; try done.
  - rewrite Ha, Hv. clear Ha Hv. unfold Label.getVideoSupportLabel. cbv zeta.
    destruct (Bot.s_audio _), (Bot.s_video _); simpl; split; intros; destruct_and?; try done.
  - rewrite Ha, Hv. clear Ha Hv. unfold Label.getVideoSupportLabel. cbv zeta.
    destruct (Bot.s_audio _), (Bot.s_video _); simpl; split; intros; destruct_and?; try done.
  - intros m. unfold Bot.assertDurationForMedia. cbv zeta.
    set (d := Js.number_or (Bot.durationSeconds video) 0).
    destruct (Z.eqb_spec d 0); destruct (Z.leb_spec d 0); simpl; try (split; [done|lia]);
      try (split; [intros _; lia|done]).
    destruct m; case_match; split; intros; try done; try lia.
Qed.

(** X8.  A longer source never gets a milder profile: as the duration grows,
    the height and the audio bitrate of [buildVideoCompressionProfile] do not
    grow and the CRF does not drop. *)
Theorem X8_profile_tightens_with_duration
    (d1 d2 : Z) (options : Profile.video_options) :
  d1 <= d2 →
  let p1 := Profile.buildVideoCompressionProfile (Some d1) options in
  let p2 := Profile.buildVideoCompressionProfile (Some d2) options in
  Profile.maxHeight p2 <= Profile.maxHeight p1
  ∧ Profile.crf p1 <= Profile.crf p2
  ∧ Profile.audioBitrateKbps p2 <= Profile.audioBitrateKbps p1.
Proof.
  intros Hle p1 p2. unfold p1, p2, Profile.buildVideoCompressionProfile. cbv zeta.
  pose proof (ProfileFacts.clampNumber_range
                (Js.number_or (Profile.videoMaxHeight options) 480) 240 720 ltac:(lia)).
  pose proof (ProfileFacts.clampNumber_range
                (Js.number_or (Profile.videoCrf options) 30) 18 40 ltac:(lia)).
  pose proof (ProfileFacts.clampNumber_range
                (Js.number_or (Profile.videoAudioBitrateKbps options) 64) 32 192 ltac:(lia)).
  assert (Hd : Z.max 0 (Js.number_or (Some d1) 0) <= Z.max 0 (Js.number_or (Some d2) 0)).
  { unfold Js.number_or. destruct (Z.eqb_spec d1 0), (Z.eqb_spec d2 0); lia. }
  set (h := Profile.clampNumber _ 240 720) in *.
  set (c := Profile.clampNumber _ 18 40) in *.
  set (a := Profile.clampNumber _ 32 192) in *.
  repeat match goal with
         | |- context [?x <=? ?y] => destruct (Z.leb_spec x y)
         end; cbn [Profile.maxHeight Profile.crf Profile.audioBitrateKbps];
    unfold Profile.clampNumber; lia.
Qed.

Lemma X8_witness :
  Profile.maxHeight (Profile.buildVideoCompressionProfile (Some 7200)
                       (Profile.mkVideoOptions None None None))
  <= Profile.maxHeight (Profile.buildVideoCompressionProfile (Some 600)
                          (Profile.mkVideoOptions None None None)).
Proof.
  apply (X8_profile_tightens_with_duration 600 7200 (Profile.mkVideoOptions None None None)).
  lia.
Defined.

(** X9.  For a profile within the bounds of [buildVideoCompressionProfile]:
    there is no fallback exactly when the height is at most 360, the CRF is
    40 and the audio bitrate at most 48; a fallback is again within the
    bounds, has a height of at most 360 and an audio bitrate of at most 48,
    and has itself a fallback exactly until its CRF reaches 40. *)
Theorem X9_fallback_floor (p : Profile.profile) :
  Profile.in_bounds p →
  (Profile.buildFallbackVideoCompressionProfile p = None
   ↔ Profile.maxHeight p <= 360 ∧ Profile.crf p = 40 ∧ Profile.audioBitrateKbps p <= 48)
  ∧ ∀ fb, Profile.buildFallbackVideoCompressionProfile p = Some fb →
          Profile.in_bounds fb
          ∧ Profile.maxHeight fb <= 360 ∧ Profile.audioBitrateKbps fb <= 48
          ∧ (Profile.buildFallbackVideoCompressionProfile fb = None ↔ Profile.crf fb = 40).
Proof.
  intros (Hh & Hc & Ha).
  assert (Hnone : ∀ q, Profile.in_bounds q →
            (Profile.buildFallbackVideoCompressionProfile q = None
             ↔ Profile.maxHeight q <= 360 ∧ Profile.crf q = 40
               ∧ Profile.audioBitrateKbps q <= 48)).
  { intros q (Hqh & Hqc & Hqa). split.
    - intros Hn. apply ProfileFacts.fallback_None_inv in Hn as (H1 & H2 & H3).
      unfold Profile.clampNumber in H2. lia.
    - intros (H1 & H2 & H3).
      destruct (Profile.buildFallbackVideoCompressionProfile q) as [fb|] eqn:Hfb; [|done].
      apply ProfileFacts.fallback_Some_inv in Hfb as [-> Hdiff]. simpl in Hdiff.
      unfold Profile.clampNumber in Hdiff. lia. }
  split; [by apply Hnone|].
  intros fb Hfb. apply ProfileFacts.fallback_Some_inv in Hfb as [-> _].
  assert (Hin : Profile.in_bounds
                  {| Profile.maxHeight := 240 `max` (Profile.maxHeight p `min` 360);
                     Profile.crf := Profile.clampNumber (Profile.crf p + 2) 18 40;
                     Profile.audioBitrateKbps :=
                       32 `max` (Profile.audioBitrateKbps p `min` 48) |}).
  { unfold Profile.in_bounds, Profile.clampNumber. simpl. lia. }
  split_and!; [exact Hin|simpl; lia|simpl; lia|].
  rewrite (Hnone _ Hin). simpl. unfold Profile.clampNumber. lia.
Qed.

Lemma X9_witness :
  Profile.buildFallbackVideoCompressionProfile (Profile.mkProfile 360 40 48) = None.
Proof.
  assert (Hin : Profile.in_bounds (Profile.mkProfile 360 40 48))
    by (unfold Profile.in_bounds; simpl; lia).
  apply (proj1 (X9_fallback_floor (Profile.mkProfile 360 40 48) Hin)).
  simpl. lia.
Defined.

(** ** Acquisition *)

(** ffmpeg gets a profile within the bounds as it is. *)
Lemma runFfmpeg_profile i o p w :
  Profile.in_bounds p →
  ffmpeg_profiles (Fx.trace (Downloader.runFfmpeg i o p w).2)
  = ffmpeg_profiles (Fx.trace w) ++ [p].
Proof.
  intros (Hh & Hc & Ha). unfold Downloader.runFfmpeg. cbv zeta.
  rewrite !JsFacts.number_or_nonzero by lia.
  assert (Hp : Profile.mkProfile (Profile.clampNumber (Profile.maxHeight p) 240 720)
                 (Profile.clampNumber (Profile.crf p) 18 40)
                 (Profile.clampNumber (Profile.audioBitrateKbps p) 32 192) = p).
  { destruct p as [h c a]. unfold Profile.clampNumber. simpl in *. f_equal; lia. }
  rewrite Hp. unfold ffmpeg_profiles.
  destruct (head (Fx.ffmpeg_tape w)) as [[| |code wr]|]; simpl;
    try destruct (code =? 0); simpl; by rewrite omap_app.
Qed.


Lemma ran_refl w : ran w [] 0 w.
Proof. split; [by rewrite app_nil_r|lia]. Qed.

Lemma ran_quiet w0 ps n w w' e :
  Fx.trace w' = Fx.trace w ++ [e] →
  match e with Fx.EvFfmpeg _ _ _ | Fx.EvYtDlp _ => False | _ => True end →
  ran w0 ps n w → ran w0 ps n w'.
Proof.
  intros Ht He [Hp Hy]. unfold ran, ffmpeg_profiles, ytdlp_runs in *.
  rewrite Ht, !omap_app. destruct e; try done; simpl; rewrite !app_nil_r; by split.
Qed.

Lemma unlink_ran w0 ps n path : preserves (ran w0 ps n) (Fx.unlink path).
Proof.
  intros w Hw. eapply ran_quiet; [apply DownloaderFacts.unlink_trace|done|exact Hw].
Qed.

Lemma stat_ran w0 ps n path : preserves (ran w0 ps n) (Fx.stat path).
Proof.
  intros w Hw. eapply ran_quiet; [apply DownloaderFacts.stat_trace|done|exact Hw].
Qed.

Lemma safeUnlink_ran w0 ps n filePath : preserves (ran w0 ps n) (Fx.safeUnlink filePath).
Proof.
  destruct filePath as [[|c p]|]; [by intros w Hw| |by intros w Hw].
  apply preserves_try_catch; [apply unlink_ran|].
  intros e. case_bool_decide; [|by intros w Hw].
  intros w Hw. eapply ran_quiet; [reflexivity|done|exact Hw].
Qed.

Lemma runFfmpeg_ran w0 ps n i o p w :
  Profile.in_bounds p → ran w0 ps n w →
  ran w0 (ps ++ [p]) n (Downloader.runFfmpeg i o p w).2.
Proof.
  intros Hin [Hp Hy]. split.
  - by rewrite runFfmpeg_profile, Hp, app_assoc.
  - rewrite <- Hy. unfold Downloader.runFfmpeg, ytdlp_runs. cbv zeta.
    destruct (head (Fx.ffmpeg_tape w)) as [[| |code wr]|]; simpl;
      try destruct (code =? 0); simpl; rewrite omap_app; simpl; by rewrite app_nil_r.
Qed.

Lemma ytDlpPhase_ran w0 ps n h w :
  ran w0 ps n w → ran w0 ps (S n) (Downloader.ytDlpPhase h w).2.
Proof.
  intros [Hp Hy]. unfold ran, Downloader.ytDlpPhase, ffmpeg_profiles, ytdlp_runs in *.
  cbv zeta. destruct (head (Fx.ytdlp_tape w)) as [[e|p s]|]; simpl;
    rewrite !omap_app, length_app; simpl; rewrite app_nil_r; split; (done || lia).
Qed.

Lemma downloadWithArgs_ran w0 ps n h skip m w :
  ran w0 ps n w → ran w0 ps (S n) (Downloader.downloadWithArgs h skip m w).2.
Proof.
  intros Hw. unfold Downloader.downloadWithArgs, mbind, Fx.M_bind, Fx.bind.
  pose proof (ytDlpPhase_ran w0 ps n h w Hw) as H1.
  destruct (Downloader.ytDlpPhase h w) as [[p|e] w1]; cbn [snd] in *; [|done].
  pose proof (stat_ran w0 ps (S n) (Fx.format p) w1 H1) as H2.
  destruct (Fx.stat (Fx.format p) w1) as [[size|e] w2]; cbn [snd] in *; [|done].
  destruct (negb skip && (size >? m)); [|done].
  pose proof (safeUnlink_ran w0 ps (S n) (Some (Fx.format p)) w2 H2) as H3.
  by destruct (Fx.safeUnlink (Some (Fx.format p)) w2) as [[[]|e] w3].
Qed.

Lemma fallback_in_bounds p fb :
  Profile.in_bounds p → Profile.buildFallbackVideoCompressionProfile p = Some fb →
  Profile.in_bounds fb.
Proof.
  intros (Hh & Hc & Ha) Hfb. apply ProfileFacts.fallback_Some_inv in Hfb as [-> _].
  unfold Profile.in_bounds, Profile.clampNumber. simpl. lia.
Qed.

(** The transcoder runs of the [try] block: one with the profile, and one
    more with its fallback where there is one. *)
Lemma transcode_ran w0 ps n raw conv p m w :
  Profile.in_bounds p → ran w0 ps n w →
  ∃ qs, ran w0 (ps ++ qs) n (Downloader.transcode raw conv p m w).2
        ∧ (qs = [p] ∨ ∃ fb, Profile.buildFallbackVideoCompressionProfile p = Some fb
                            ∧ qs = [p; fb]).
Proof.
  intros Hin Hw. unfold Downloader.transcode, mbind, Fx.M_bind, Fx.bind.
  pose proof (runFfmpeg_ran w0 ps n raw conv p w Hin Hw) as H1.
  destruct (Downloader.runFfmpeg raw conv p w) as [[[]|e] w1]; cbn [snd] in *;
    [|exists [p]; auto].
  pose proof (stat_ran w0 _ n conv w1 H1) as H2.
  destruct (Fx.stat conv w1) as [[size|e] w2]; cbn [snd] in *; [|exists [p]; auto].
  destruct (size >? m) eqn:Hbig.
  - destruct (Profile.buildFallbackVideoCompressionProfile p) as [fb|] eqn:Hfb.
    + pose proof (safeUnlink_ran w0 _ n (Some conv) w2 H2) as H3.
      destruct (Fx.safeUnlink (Some conv) w2) as [[[]|e] w3]; cbn [snd] in *;
        [|exists [p]; auto].
      pose proof (runFfmpeg_ran w0 _ n raw conv fb w3 (fallback_in_bounds p fb Hin Hfb) H3)
        as H4. rewrite <- app_assoc in H4.
      destruct (Downloader.runFfmpeg raw conv fb w3) as [[[]|e] w4]; cbn [snd] in *;
        [|exists [p; fb]; eauto].
      pose proof (stat_ran w0 _ n conv w4 H4) as H5.
      destruct (Fx.stat conv w4) as [[size'|e] w5]; cbn [snd] in *; [|exists [p; fb]; eauto].
      exists [p; fb]. split; [|eauto].
      destruct (size' >? m); [|done].
      pose proof (safeUnlink_ran w0 _ n (Some conv) w5 H5) as H6.
      by destruct (Fx.safeUnlink (Some conv) w5) as [[[]|e] w6].
    + exists [p]. split; [|auto]. unfold mret, Fx.M_ret, Fx.ret. rewrite Hbig.
      pose proof (safeUnlink_ran w0 _ n (Some conv) w2 H2) as H3.
      by destruct (Fx.safeUnlink (Some conv) w2) as [[[]|e] w3].
  - exists [p]. split; [|auto]. unfold mret, Fx.M_ret, Fx.ret. by rewrite Hbig.
Qed.

(** [downloadVideo]: the yt-dlp phase once, then the transcoder runs of the
    [try] block, if the download returned. *)
Lemma downloadVideo_ran w0 ps n durationSeconds opts w :
  let p := Profile.buildVideoCompressionProfile durationSeconds
             (Downloader.videoOptions opts) in
  ran w0 ps n w →
  ∃ qs, ran w0 (ps ++ qs) (S n) (Downloader.downloadVideo durationSeconds opts w).2
        ∧ (qs = [] ∨ qs = [p]
           ∨ ∃ fb, Profile.buildFallbackVideoCompressionProfile p = Some fb ∧ qs = [p; fb]).
Proof.
  intros p Hw. unfold Downloader.downloadVideo. fold p. cbv zeta.
  unfold mbind, Fx.M_bind, Fx.bind.
  pose proof (downloadWithArgs_ran w0 ps n (Some (Profile.maxHeight p)) true
                (Downloader.maxFileSize opts) w Hw) as H1.
  destruct (Downloader.downloadWithArgs (Some (Profile.maxHeight p)) true
              (Downloader.maxFileSize opts) w) as [[rawResult|e] w1]; cbn [snd] in *.
  - unfold Fx.try_finally.
    destruct (transcode_ran w0 ps (S n) (Fx.format (Downloader.rawPath rawResult))
                (Fx.convertedPathOf (Downloader.rawPath rawResult)) p
                (Downloader.maxFileSize opts) w1
                (ProfileFacts.build_in_bounds _ _) H1) as (qs & H2 & Hqs).
    destruct (Downloader.transcode _ _ p _ w1) as [r w2]. cbn [snd] in *.
    pose proof (safeUnlink_ran w0 _ (S n)
                  (Some (Fx.format (Downloader.rawPath rawResult))) w2 H2) as H3.
    exists qs. split; [|tauto].
    by destruct (Fx.safeUnlink _ w2) as [[[]|e] w3].
  - exists []. rewrite app_nil_r. auto.
Qed.

(** The transcoder runs of the [try] block, exactly: the profile first; its
    fallback after that only if the first run succeeded, [stat] gave a size
    for its output, the size is over the ceiling and there is a fallback. *)
Lemma transcode_runs w0 ps n raw conv p m w :
  Profile.in_bounds p → ran w0 ps n w →
  ran w0
    (ps ++ match (Downloader.runFfmpeg raw conv p w).1 with
           | Fx.Throw _ => [p]
           | Fx.Ok _ =>
             match (Fx.stat conv (Downloader.runFfmpeg raw conv p w).2).1,
                   Profile.buildFallbackVideoCompressionProfile p with
             | Fx.Ok size, Some fb => if size >? m then [p; fb] else [p]
             | _, _ => [p]
             end
           end)
    n (Downloader.transcode raw conv p m w).2.
Proof.
  intros Hin Hw. unfold Downloader.transcode, mbind, Fx.M_bind, Fx.bind.
  pose proof (runFfmpeg_ran w0 ps n raw conv p w Hin Hw) as H1.
  destruct (Downloader.runFfmpeg raw conv p w) as [[[]|e] w1]; cbn [fst snd] in *; [|done].
  pose proof (stat_ran w0 _ n conv w1 H1) as H2.
  destruct (Fx.stat conv w1) as [[size|e] w2]; cbn [fst snd] in *; [|done].
  assert (Hend : ∀ qs size' w3, ran w0 qs n w3 →
            ran w0 qs n
              ((if size' >? m
                then Fx.bind (Fx.safeUnlink (Some conv))
                       (λ _, Fx.throw Downloader.fileTooLarge)
                else Fx.ret (Downloader.mkResult conv size')) w3).2).
  { intros qs size' w3 H3. destruct (size' >? m); [|done]. unfold Fx.bind.
    pose proof (safeUnlink_ran w0 qs n (Some conv) w3 H3) as H4.
    by destruct (Fx.safeUnlink (Some conv) w3) as [[[]|e] w4]. }
  destruct (size >? m) eqn:Hbig.
  - destruct (Profile.buildFallbackVideoCompressionProfile p) as [fb|] eqn:Hfb.
    + pose proof (safeUnlink_ran w0 _ n (Some conv) w2 H2) as H3.
      pose proof (DownloaderFacts.safeUnlink_never_throws (Some conv) w2) as Hok.
      destruct (Fx.safeUnlink (Some conv) w2) as [[[]|e] w3]; cbn [fst snd] in *; [|done].
      pose proof (runFfmpeg_ran w0 _ n raw conv fb w3 (fallback_in_bounds p fb Hin Hfb) H3)
        as H4. rewrite <- app_assoc in H4. change ([p] ++ [fb]) with [p; fb] in H4.
      destruct (Downloader.runFfmpeg raw conv fb w3) as [[[]|e] w4]; cbn [snd] in *; [|done].
      pose proof (stat_ran w0 _ n conv w4 H4) as H5.
      destruct (Fx.stat conv w4) as [[size'|e] w5]; cbn [snd] in *; [|done].
      exact (Hend _ size' w5 H5).
    + exact (Hend _ size w2 H2).
  - destruct (Profile.buildFallbackVideoCompressionProfile p); exact (Hend _ size w2 H2).
Qed.

(** X10.  [downloadVideo] goes through the yt-dlp phase of
    [downloadWithArgs] once, whatever happens after it, and starts ffmpeg
    exactly as follows: not at all when the download fails; otherwise once
    with the profile built from the duration, and once more, with the
    fallback of that profile, only if the first run succeeded, [stat] gave the
    size of its output, that size is over the ceiling and the profile has a
    fallback.  A run of ffmpeg that fails is not repeated, and there is no
    third run. *)
Theorem X10_one_download_and_at_most_one_retry
    (durationSeconds : option Z) (opts : Downloader.options) (w : Fx.world) :
  let p := Profile.buildVideoCompressionProfile durationSeconds
             (Downloader.videoOptions opts) in
  let download := Downloader.downloadWithArgs (Some (Profile.maxHeight p)) true
                    (Downloader.maxFileSize opts) w in
  let w' := (Downloader.downloadVideo durationSeconds opts w).2 in
  ytdlp_runs (Fx.trace w') = S (ytdlp_runs (Fx.trace w))
  ∧ ffmpeg_profiles (Fx.trace w')
    = ffmpeg_profiles (Fx.trace w)
      ++ match download.1 with
         | Fx.Throw _ => []
         | Fx.Ok rawResult =>
           let rawFile := Fx.format (Downloader.rawPath rawResult) in
           let convertedPath := Fx.convertedPathOf (Downloader.rawPath rawResult) in
           let first := Downloader.runFfmpeg rawFile convertedPath p download.2 in
           match first.1 with
           | Fx.Throw _ => [p]
           | Fx.Ok _ =>
             match (Fx.stat convertedPath first.2).1,
                   Profile.buildFallbackVideoCompressionProfile p with
             | Fx.Ok size, Some fallbackProfile =>
               if size >? Downloader.maxFileSize opts then [p; fallbackProfile] else [p]
             | _, _ => [p]
             end
           end
         end.
Proof.
  intros p download w'. subst download w'. unfold Downloader.downloadVideo. fold p. cbv zeta.
  unfold mbind, Fx.M_bind, Fx.bind.
  pose proof (downloadWithArgs_ran w [] 0 (Some (Profile.maxHeight p)) true
                (Downloader.maxFileSize opts) w (ran_refl w)) as H1.
  destruct (Downloader.downloadWithArgs (Some (Profile.maxHeight p)) true
              (Downloader.maxFileSize opts) w) as [[rawResult|e] w1]; cbn [fst snd] in *.
  - unfold Fx.try_finally.
    pose proof (transcode_runs w [] 1 (Fx.format (Downloader.rawPath rawResult))
                  (Fx.convertedPathOf (Downloader.rawPath rawResult)) p
                  (Downloader.maxFileSize opts) w1
                  (ProfileFacts.build_in_bounds _ _) H1) as H2.
    destruct (Downloader.transcode _ _ p _ w1) as [r w2]. cbn [snd] in *.
    pose proof (safeUnlink_ran w _ 1 (Some (Fx.format (Downloader.rawPath rawResult))) w2 H2)
      as H3.
    destruct (Fx.safeUnlink _ w2) as [[[]|e] w3]; cbn [snd] in *;
      destruct H3 as [Hp Hy]; (split; [lia|exact Hp]).
  - destruct H1 as [Hp Hy]. split; [lia|exact Hp].
Qed.

(** *** What a download hands over *)

Lemma stat_ok path w size w' :
  Fx.stat path w = (Fx.Ok size, w') →
  Fx.files w !! path = Some size ∧ Fx.files w' = Fx.files w.
Proof.
  unfold Fx.stat. cbv zeta. intros H.
  destruct (head (Fx.stat_tape w)) as [[refusal|]|]; [done| |];
    destruct (Fx.files w !! path); try done; by injection H as <- <-.
Qed.

Lemma unlink_other p q w : q ≠ p → Fx.files (Fx.unlink p w).2 !! q = Fx.files w !! q.
Proof.
  intros Hne. unfold Fx.unlink. cbv zeta.
  destruct (head (Fx.unlink_tape w)) as [[refusal|]|]; [done| |];
    (destruct (Fx.files w !! p); [simpl; by rewrite lookup_delete_ne|done]).
Qed.

(** [safeUnlink] touches no other file than the one it is given. *)
Lemma safeUnlink_other p q w :
  q ≠ p → Fx.files (Fx.safeUnlink (Some p) w).2 !! q = Fx.files w !! q.
Proof.
  intros Hne. unfold Fx.safeUnlink. destruct p as [|c p]; [done|].
  unfold Fx.try_catch. pose proof (unlink_other (String c p) q w Hne) as Hu.
  destruct (Fx.unlink (String c p) w) as [[[]|e] w1]; cbn [snd] in *; [done|].
  by case_bool_decide.
Qed.

Lemma append_cancel (s a b : string) : s +:+ a = s +:+ b → a = b.
Proof. induction s as [|c s IH]; simpl; [done|]. intros H. injection H as H. auto. Qed.

(** The converted file is never the raw file. *)
Lemma converted_not_raw (raw : Fx.parsed_path) :
  parsed_ext (Fx.ext raw) → Fx.convertedPathOf raw ≠ Fx.format raw.
Proof.
  intros Hext Heq. unfold Fx.convertedPathOf, Fx.format in Heq.
  do 3 apply append_cancel in Heq. destruct Hext as [H|[rest H]]; by rewrite H in Heq.
Qed.

Lemma downloadWithArgs_wrote h skip m w rawResult w1 :
  Downloader.downloadWithArgs h skip m w = (Fx.Ok rawResult, w1) →
  head (Fx.ytdlp_tape w)
  = Some (Fx.YtDlpWrote (Downloader.rawPath rawResult) (Downloader.rawSize rawResult))
  ∧ Fx.files w1 !! Fx.format (Downloader.rawPath rawResult)
    = Some (Downloader.rawSize rawResult)
  ∧ (skip = false → Downloader.rawSize rawResult <= m).
Proof.
  unfold Downloader.downloadWithArgs, mbind, Fx.M_bind, Fx.bind. intros H.
  destruct (Downloader.ytDlpPhase h w) as [[p|e] w0] eqn:Hyt; [|done].
  destruct (Fx.stat (Fx.format p) w0) as [[size|e] w2] eqn:Hst; [|done].
  apply stat_ok in Hst as [Hfile Hsame].
  assert (Hhead : head (Fx.ytdlp_tape w) = Some (Fx.YtDlpWrote p size)).
  { unfold Downloader.ytDlpPhase in Hyt. cbv zeta in Hyt.
    destruct (head (Fx.ytdlp_tape w)) as [[e|p' s]|]; try done.
    injection Hyt as -> <-. simpl in Hfile. rewrite lookup_insert_eq in Hfile. congruence. }
  destruct (negb skip && (size >? m)) eqn:Hbig.
  - by destruct (Fx.safeUnlink (Some (Fx.format p)) w2) as [[[]|e] w3].
  - injection H as <- <-. simpl. split_and!; [done|congruence|].
    intros ->. simpl in Hbig. lia.
Qed.

(** The [try] block returns the converted path with the size [stat] last gave
    for it, which is within the ceiling. *)
Lemma transcode_ok raw conv p m w r w' :
  Downloader.transcode raw conv p m w = (Fx.Ok r, w') →
  Downloader.filePath r = conv ∧ Downloader.fileSize r <= m
  ∧ Fx.files w' !! conv = Some (Downloader.fileSize r).
Proof.
  unfold Downloader.transcode, mbind, Fx.M_bind, Fx.bind. intros H.
  destruct (Downloader.runFfmpeg raw conv p w) as [[[]|e] w1]; [|done].
  destruct (Fx.stat conv w1) as [[size|e] w2] eqn:Hst; [|done].
  apply stat_ok in Hst as [Hfile Hsame].
  assert (Hend : ∀ size w3, Fx.files w3 !! conv = Some size →
            (if size >? m
             then Fx.bind (Fx.safeUnlink (Some conv)) (λ _, Fx.throw Downloader.fileTooLarge)
             else Fx.ret (Downloader.mkResult conv size)) w3 = (Fx.Ok r, w') →
            Downloader.filePath r = conv ∧ Downloader.fileSize r <= m
            ∧ Fx.files w' !! conv = Some (Downloader.fileSize r)).
  { intros s w3 Hs Hr. destruct (s >? m) eqn:Hbig.
    - unfold Fx.bind in Hr. by destruct (Fx.safeUnlink (Some conv) w3) as [[[]|e] w4].
    - injection Hr as <- <-. simpl. split_and!; [done|lia|done]. }
  destruct (size >? m) eqn:Hbig.
  - destruct (Profile.buildFallbackVideoCompressionProfile p) as [fb|].
    + destruct (Fx.safeUnlink (Some conv) w2) as [[[]|e] w3]; [|done].
      destruct (Downloader.runFfmpeg raw conv fb w3) as [[[]|e] w4]; [|done].
      destruct (Fx.stat conv w4) as [[size'|e] w5] eqn:Hst'; [|done].
      apply stat_ok in Hst' as [Hfile' Hsame']. apply (Hend size' w5); [congruence|exact H].
    + apply (Hend size w2); [congruence|exact H].
  - apply (Hend size w2); [congruence|exact H].
Qed.

(** X11.  A result of [downloadVideo] names the converted file next to the
    file yt-dlp wrote, with a size within the ceiling; the extension of the
    raw path being empty or starting with a dot, as [path.parse] gives it, the
    file is on disk with that size when [downloadVideo] returns. *)
Theorem X11_video_result_within_ceiling_and_on_disk
    (durationSeconds : option Z) (opts : Downloader.options) (w w' : Fx.world)
    (r : Downloader.download_result) :
  Downloader.downloadVideo durationSeconds opts w = (Fx.Ok r, w') →
  Downloader.fileSize r <= Downloader.maxFileSize opts
  ∧ ∃ raw size, head (Fx.ytdlp_tape w) = Some (Fx.YtDlpWrote raw size)
      ∧ Downloader.filePath r = Fx.convertedPathOf raw
      ∧ (parsed_ext (Fx.ext raw) →
         Fx.files w' !! Downloader.filePath r = Some (Downloader.fileSize r)).
Proof.
  unfold Downloader.downloadVideo. cbv zeta. unfold mbind, Fx.M_bind, Fx.bind.
  set (p := Profile.buildVideoCompressionProfile _ _). intros H.
  destruct (Downloader.downloadWithArgs _ true _ w) as [[rawResult|e] w1] eqn:Hdl; [|done].
  apply downloadWithArgs_wrote in Hdl as (Hhead & _ & _).
  unfold Fx.try_finally in H.
  destruct (Downloader.transcode _ _ p _ w1) as [[r'|e] w2] eqn:Htr.
  - apply transcode_ok in Htr as (Hpath & Hsize & Hfile).
    pose proof (DownloaderFacts.safeUnlink_never_throws (Some (Fx.format (Downloader.rawPath rawResult))) w2) as Hok.
    pose proof (safeUnlink_other (Fx.format (Downloader.rawPath rawResult))
                  (Fx.convertedPathOf (Downloader.rawPath rawResult)) w2) as Hother.
    destruct (Fx.safeUnlink _ w2) as [[[]|e] w3]; [|done].
    injection H as <- <-. split; [done|].
    exists (Downloader.rawPath rawResult), (Downloader.rawSize rawResult).
    split_and!; [done|done|]. intros Hext. rewrite Hpath. cbn [snd] in Hother.
    rewrite Hother by by apply converted_not_raw. done.
  - by destruct (Fx.safeUnlink _ w2) as [[[]|e'] w3].
Qed.

Lemma X11_witness :
  let raw := Fx.mkPath "/dl" "song-1" ".webm" in
  let opts := Downloader.mkOptions 100 (Profile.mkVideoOptions None None None) in
  let w := Downloader.fresh [Fx.YtDlpWrote raw 500]
             [Fx.FfmpegExit 0 (Some 150); Fx.FfmpegExit 0 (Some 90)] [] [] in
  Downloader.fileSize (Downloader.mkResult "/dl/song-1-wa.mp4" 90) <= 100.
Proof.
  intros raw opts w.
  set (w' := (Downloader.downloadVideo (Some 100) opts w).2).
  assert (Hrun : Downloader.downloadVideo (Some 100) opts w
                 = (Fx.Ok (Downloader.mkResult "/dl/song-1-wa.mp4" 90), w'))
    by (vm_compute; reflexivity).
  exact (proj1 (X11_video_result_within_ceiling_and_on_disk (Some 100) opts w w' _ Hrun)).
Defined.

Lemma ytDlpPhase_wrote h w p size :
  head (Fx.ytdlp_tape w) = Some (Fx.YtDlpWrote p size) →
  ∃ w1, Downloader.ytDlpPhase h w = (Fx.Ok p, w1)
        ∧ Fx.files w1 = <[Fx.format p := size]> (Fx.files w)
        ∧ Fx.stat_tape w1 = Fx.stat_tape w ∧ Fx.unlink_tape w1 = Fx.unlink_tape w.
Proof. intros H. unfold Downloader.ytDlpPhase. cbv zeta. rewrite H. by eexists. Qed.

Lemma stat_found path w size :
  head (Fx.stat_tape w) = None ∨ head (Fx.stat_tape w) = Some None →
  Fx.files w !! path = Some size →
  ∃ w', Fx.stat path w = (Fx.Ok size, w') ∧ Fx.files w' = Fx.files w
        ∧ Fx.unlink_tape w' = Fx.unlink_tape w.
Proof.
  intros H Hfile. unfold Fx.stat. cbv zeta. rewrite Hfile.
  destruct H as [-> | ->]; by eexists.
Qed.

(** X12.  [downloadAudio] validates the size of what yt-dlp wrote: a result
    is within the ceiling and on disk under the path it names; a file over
    the ceiling makes it fail with FILE_TOO_LARGE, and the file is removed
    unless the file system refuses the unlink. *)
Theorem X12_audio_size_validation (opts : Downloader.options) (w : Fx.world) :
  (∀ r w', Downloader.downloadAudio opts w = (Fx.Ok r, w') →
     Downloader.fileSize r <= Downloader.maxFileSize opts
     ∧ Fx.files w' !! Downloader.filePath r = Some (Downloader.fileSize r))
  ∧ (∀ p size, head (Fx.ytdlp_tape w) = Some (Fx.YtDlpWrote p size) →
       head (Fx.stat_tape w) = None ∨ head (Fx.stat_tape w) = Some None →
       Downloader.maxFileSize opts < size →
       (Downloader.downloadAudio opts w).1 = Fx.Throw Downloader.fileTooLarge
       ∧ (unlink_allowed w →
          Fx.files (Downloader.downloadAudio opts w).2 !! Fx.format p = None)).
Proof.
  split.
  - intros r w'. unfold Downloader.downloadAudio, mbind, Fx.M_bind. unfold Fx.bind at 1.
    intros H.
    destruct (Downloader.downloadWithArgs None false _ w) as [[rawResult|e] w1] eqn:Hdl;
      [|done].
    apply downloadWithArgs_wrote in Hdl as (_ & Hfile & Hsize).
    injection H as <- <-. simpl. split; [by apply Hsize|done].
  - intros p size Hyt Hst Hbig.
    unfold Downloader.downloadAudio, Downloader.downloadWithArgs, mbind, Fx.M_bind, Fx.bind.
    destruct (ytDlpPhase_wrote None w p size Hyt) as (w1 & -> & Hfiles & Hstat & Hunlink).
    assert (Hfile : Fx.files w1 !! Fx.format p = Some size)
      by (rewrite Hfiles; apply lookup_insert_eq).
    rewrite <- Hstat in Hst.
    destruct (stat_found (Fx.format p) w1 size Hst Hfile) as (w2 & -> & _ & Hunlink2).
    assert (Hgt : (size >? Downloader.maxFileSize opts) = true) by lia.
    cbn [negb andb]. rewrite Hgt.
    pose proof (DownloaderFacts.safeUnlink_never_throws (Some (Fx.format p)) w2) as Hok.
    pose proof (safeUnlink_effect (Fx.format p) w2 (format_nonempty p)) as (_ & _ & Hgone).
    destruct (Fx.safeUnlink (Some (Fx.format p)) w2) as [[[]|e] w3]; [|done].
    split; [done|]. intros Ha. apply Hgone. unfold unlink_allowed in *. congruence.
Qed.

Lemma X12_witness :
  let opts := Downloader.mkOptions 100 (Profile.mkVideoOptions None None None) in
  let w := Downloader.fresh [Fx.YtDlpWrote (Fx.mkPath "/dl" "song-1" ".mp3") 500] [] [] [] in
  (Downloader.downloadAudio opts w).1 = Fx.Throw Downloader.fileTooLarge.
Proof.
  intros opts w.
  refine (proj1 (proj2 (X12_audio_size_validation opts w) _ 500 eq_refl _ _)).
  - by left.
  - simpl. lia.
Defined.

(** ** Jobs *)

(** [processSelectedMedia] by stages. *)
Lemma processSelectedMedia_stages cfg video mediaType w :
  Pipeline.processSelectedMedia cfg video mediaType w = stages cfg video mediaType w.
Proof.
  unfold Pipeline.processSelectedMedia, stages, report, cleanup. cbv zeta.
  unfold mbind, Fx.M_bind, Fx.bind, Fx.try_finally, Fx.try_catch.
  cbn [Fx.set_outputFile].
  destruct mediaType; cbn [announcement confirmation replyMedia].
  all: match goal with |- context [Pipeline.replyText ?t ?w0] =>
         destruct (Pipeline.replyText t w0) as [[[]|e1] w1] end; cbn [fst snd]; [|done].
  all: match goal with |- context [Pipeline.download ?c ?v ?m ?w0] =>
         destruct (Pipeline.download c v m w0) as [[r|e2] w2] end; cbn [fst snd]; [|done].
  all: cbn [Fx.set_outputFile Fx.get_outputFile Fx.with_outputFile Fx.outputFile].
  - match goal with |- context [Pipeline.replyAudio ?f ?w0] =>
      destruct (Pipeline.replyAudio f w0) as [[[]|e3] w3] end; cbn [fst snd]; [|done].
    by destruct (Pipeline.replyText Fx.TxtAudioSent w3) as [[[]|e4] w4].
  - match goal with |- context [Pipeline.replyVideo ?f ?w0] =>
      destruct (Pipeline.replyVideo f w0) as [[[]|e3] w3] end; cbn [fst snd]; [|done].
    by destruct (Pipeline.replyText Fx.TxtVideoSent w3) as [[[]|e4] w4].
Qed.

(** *** What every step of a download preserves *)

Section Steps.
Variable P : Fx.world → Prop.
Hypothesis P_unlink : ∀ path, preserves P (Fx.unlink path).
Hypothesis P_stat : ∀ path, preserves P (Fx.stat path).
Hypothesis P_warn : ∀ path, preserves P (Fx.emit (Fx.EvWarn path)).
Hypothesis P_ffmpeg : ∀ i o p, preserves P (Downloader.runFfmpeg i o p).
Hypothesis P_ytdlp : ∀ h, preserves P (Downloader.ytDlpPhase h).

Lemma safeUnlink_preserves filePath : preserves P (Fx.safeUnlink filePath).
Proof.
  destruct filePath as [[|c p]|]; [by intros w Hw| |by intros w Hw].
  apply preserves_try_catch; [apply P_unlink|].
  intros e. case_bool_decide; [apply P_warn|by intros w Hw].
Qed.

Lemma downloadWithArgs_preserves h skip m :
  preserves P (Downloader.downloadWithArgs h skip m).
Proof.
  unfold Downloader.downloadWithArgs.
  apply preserves_bind; [apply P_ytdlp|intros p].
  apply preserves_bind; [apply P_stat|intros size].
  destruct (negb skip && (size >? m)); [|apply preserves_ret].
  apply preserves_bind; [apply safeUnlink_preserves|intros _; apply preserves_throw].
Qed.

Lemma transcode_preserves raw conv p m : preserves P (Downloader.transcode raw conv p m).
Proof.
  unfold Downloader.transcode.
  apply preserves_bind; [apply P_ffmpeg|intros _].
  apply preserves_bind; [apply P_stat|intros size].
  apply preserves_bind.
  - destruct (size >? m); [|apply preserves_ret].
    destruct (Profile.buildFallbackVideoCompressionProfile p); [|apply preserves_ret].
    apply preserves_bind; [apply safeUnlink_preserves|intros _].
    apply preserves_bind; [apply P_ffmpeg|intros _]. apply P_stat.
  - intros size'. destruct (size' >? m); [|apply preserves_ret].
    apply preserves_bind; [apply safeUnlink_preserves|intros _; apply preserves_throw].
Qed.

Lemma downloadVideo_preserves d opts : preserves P (Downloader.downloadVideo d opts).
Proof.
  unfold Downloader.downloadVideo. cbv zeta.
  apply preserves_bind; [apply downloadWithArgs_preserves|intros rawResult].
  apply preserves_try_finally; [apply transcode_preserves|apply safeUnlink_preserves].
Qed.

Lemma downloadAudio_preserves opts : preserves P (Downloader.downloadAudio opts).
Proof.
  unfold Downloader.downloadAudio.
  apply preserves_bind; [apply downloadWithArgs_preserves|intros r; apply preserves_ret].
Qed.

Lemma download_preserves cfg video mediaType :
  preserves P (Pipeline.download cfg video mediaType).
Proof. destruct mediaType; [apply downloadAudio_preserves|apply downloadVideo_preserves]. Qed.

End Steps.

Lemma untouched_refl {X} (f : Fx.event → option X) w : untouched f w w.
Proof. done. Qed.

Lemma untouched_step {X} (f : Fx.event → option X) w0 w w' e :
  Fx.trace w' = Fx.trace w ++ [e] → f e = None →
  Fx.send_tape w' = Fx.send_tape w → Fx.outputFile w' = Fx.outputFile w →
  untouched f w0 w → untouched f w0 w'.
Proof.
  intros Ht He Hs Ho (Hs0 & Ho0 & Ht0). unfold untouched.
  rewrite Ht, omap_app. simpl. rewrite He, app_nil_r. split_and!; congruence.
Qed.

Section Untouched.
Context {X : Type} (f : Fx.event → option X).
Hypothesis f_internal : ∀ e, internal e = true → f e = None.

Lemma unlink_untouched w0 path : preserves (untouched f w0) (Fx.unlink path).
Proof.
  intros w Hw. unfold Fx.unlink. cbv zeta.
  destruct (head (Fx.unlink_tape w)) as [[refusal|]|]; try destruct (Fx.files w !! path);
    (eapply untouched_step; [reflexivity|by apply f_internal|done|done|exact Hw]).
Qed.

Lemma stat_untouched w0 path : preserves (untouched f w0) (Fx.stat path).
Proof.
  intros w Hw. unfold Fx.stat. cbv zeta.
  destruct (head (Fx.stat_tape w)) as [[refusal|]|]; try destruct (Fx.files w !! path);
    (eapply untouched_step; [reflexivity|by apply f_internal|done|done|exact Hw]).
Qed.

Lemma warn_untouched w0 path : preserves (untouched f w0) (Fx.emit (Fx.EvWarn path)).
Proof.
  intros w Hw. eapply untouched_step; [reflexivity|by apply f_internal|done|done|exact Hw].
Qed.

Lemma runFfmpeg_untouched w0 i o p : preserves (untouched f w0) (Downloader.runFfmpeg i o p).
Proof.
  intros w Hw. unfold Downloader.runFfmpeg. cbv zeta.
  destruct (head (Fx.ffmpeg_tape w)) as [[| |c wr]|]; try destruct (c =? 0);
    (eapply untouched_step; [reflexivity|by apply f_internal|done|done|exact Hw]).
Qed.

Lemma ytDlpPhase_untouched w0 h : preserves (untouched f w0) (Downloader.ytDlpPhase h).
Proof.
  intros w Hw. unfold Downloader.ytDlpPhase. cbv zeta.
  destruct (head (Fx.ytdlp_tape w)) as [[e|p s]|];
    (eapply untouched_step; [reflexivity|by apply f_internal|done|done|exact Hw]).
Qed.

(** A download stays inside the host: it asks nothing of the transport and
    logs no reply. *)
Lemma download_untouched cfg video mediaType w :
  untouched f w (Pipeline.download cfg video mediaType w).2.
Proof.
  apply download_preserves; [..|apply untouched_refl]; intros.
  - apply unlink_untouched.
  - apply stat_untouched.
  - apply warn_untouched.
  - apply runFfmpeg_untouched.
  - apply ytDlpPhase_untouched.
Qed.

Lemma safeUnlink_untouched filePath w : untouched f w (Fx.safeUnlink filePath w).2.
Proof.
  apply safeUnlink_preserves; [..|apply untouched_refl]; intros.
  - apply unlink_untouched.
  - apply warn_untouched.
Qed.

End Untouched.


Lemma media_internal e : internal e = true → media_of e = None.
Proof. by destruct e. Qed.

(** A download refuses no unlink that was not going to be refused. *)
Lemma download_later cfg video mediaType w0 :
  preserves (later_than w0) (Pipeline.download cfg video mediaType).
Proof.
  apply download_preserves; intros.
  - apply unlink_later.
  - apply stat_later.
  - apply emit_later.
  - apply runFfmpeg_later.
  - apply ytDlpPhase_later.
Qed.

(** What one reply does. *)
Lemma send_frame e w :
  let w' := (Pipeline.send e w).2 in
  Fx.trace w' = Fx.trace w ++ [e] ∧ Fx.files w' = Fx.files w
  ∧ Fx.unlink_tape w' = Fx.unlink_tape w ∧ Fx.outputFile w' = Fx.outputFile w
  ∧ Fx.send_tape w' = tail (Fx.send_tape w).
Proof. unfold Pipeline.send. by destruct (head (Fx.send_tape w)) as [[failure|]|]. Qed.


(** *** The exits of a job *)

(** The [catch] and [finally] blocks: the failure line is sent, then the
    output file is unlinked; what they throw is what the transport answered
    to the failure line. *)
Lemma report_spec cfg e w :
  let line := Fx.EvReplyText (Fx.TxtFailure (Pipeline.mapPlayError cfg e)) in
  report cfg e w
  = ((Pipeline.send line w).1, (Fx.safeUnlink (Fx.outputFile w) (Pipeline.send line w).2).2).
Proof.
  cbv zeta. unfold report, cleanup, Fx.try_finally, Pipeline.replyText, mbind, Fx.M_bind,
    Fx.bind. cbn [Fx.get_outputFile].
  pose proof (send_frame (Fx.EvReplyText (Fx.TxtFailure (Pipeline.mapPlayError cfg e))) w)
    as (_ & _ & _ & Ho & _).
  destruct (Pipeline.send _ w) as [r w1]. cbn [fst snd] in *. rewrite Ho.
  pose proof (DownloaderFacts.safeUnlink_never_throws (Fx.outputFile w) w1) as Hok.
  by destruct (Fx.safeUnlink (Fx.outputFile w) w1) as [[[]|e'] w2].
Qed.

Lemma finish_spec w :
  Fx.try_finally (Fx.ret tt) cleanup w = (Fx.Ok tt, (Fx.safeUnlink (Fx.outputFile w) w).2).
Proof.
  unfold cleanup, Fx.try_finally, Fx.ret, mbind, Fx.M_bind, Fx.bind. cbn [Fx.get_outputFile].
  pose proof (DownloaderFacts.safeUnlink_never_throws (Fx.outputFile w) w) as Hok.
  by destruct (Fx.safeUnlink (Fx.outputFile w) w) as [[[]|e'] w2].
Qed.







Lemma send_later w0 e : preserves (later_than w0) (Pipeline.send e).
Proof.
  intros w Hw. destruct (send_frame e w) as (Ht & _ & Hu & _).
  eapply later_than_step; [exact Ht|by left|exact Hw].
Qed.

Lemma convertedPathOf_nonempty raw : Fx.convertedPathOf raw ≠ "".
Proof. unfold Fx.convertedPathOf. by destruct (Fx.dir raw). Qed.

Lemma download_path_nonempty cfg video mediaType w r w' :
  Pipeline.download cfg video mediaType w = (Fx.Ok r, w') → Downloader.filePath r ≠ "".
Proof.
  destruct mediaType; simpl.
  - unfold Downloader.downloadAudio, mbind, Fx.M_bind, Fx.bind.
    destruct (Downloader.downloadWithArgs _ _ _ w) as [[rawResult|e] w1]; [|done].
    intros [= <- _]. apply format_nonempty.
  - unfold Downloader.downloadVideo. cbv zeta. unfold mbind, Fx.M_bind, Fx.bind, Fx.try_finally.
    destruct (Downloader.downloadWithArgs _ _ _ w) as [[rawResult|e] w1]; [|done].
    destruct (Downloader.transcode _ _ _ _ w1) as [[r'|e] w2] eqn:Htr.
    + apply transcode_ok in Htr as (Hpath & _).
      destruct (Fx.safeUnlink _ w2) as [[[]|e] w3]; [|done].
      intros [= <- _]. rewrite Hpath. apply convertedPathOf_nonempty.
    + by destruct (Fx.safeUnlink _ w2) as [[[]|e'] w3].
Qed.

(** The [finally] block, once the local variable holds a path: the unlink is
    attempted, and the file is gone if the file system refuses no unlink. *)
Lemma cleanup_cleans w2 wk path :
  later_than w2 wk → path ≠ "" →
  let w' := (Fx.safeUnlink (Some path) wk).2 in
  Fx.EvUnlink path ∈ drop (length (Fx.trace w2)) (Fx.trace w')
  ∧ (unlink_allowed w2 → Fx.files w' !! path = None).
Proof.
  intros [[more Hmore] Hallowed] Hne w'.
  destruct (safeUnlink_effect path wk Hne) as (Hin & _ & Hgone). fold w' in Hin, Hgone.
  split; [|auto].
  rewrite Hmore, length_app, <- drop_drop in Hin.
  by apply subseteq_drop in Hin.
Qed.

Lemma exit_cleans (m : Fx.M unit) w2 wk path :
  m = Fx.try_finally (Fx.ret tt) cleanup ∨ (∃ cfg e, m = report cfg e) →
  later_than w2 wk → Fx.outputFile wk = Some path → path ≠ "" →
  Fx.EvUnlink path ∈ drop (length (Fx.trace w2)) (Fx.trace (m wk).2)
  ∧ (unlink_allowed w2 → Fx.files (m wk).2 !! path = None).
Proof.
  intros [-> | (cfg & e & ->)] Hlater Ho Hne.
  - rewrite finish_spec, Ho. by apply cleanup_cleans.
  - rewrite report_spec, Ho. apply cleanup_cleans; [|done]. by apply send_later.
Qed.

(** X14.  Once the download of a job has returned, every exit of the job
    goes through [safeUnlink] on the file it returned, whatever the transport
    answers: the unlink is attempted after the download, and the file is gone
    at the end when the file system refuses no unlink. *)
Theorem X14_output_file_removed_on_every_exit
    (cfg : Config.config) (video : Bot.candidate) (mediaType : Bot.media)
    (w w1 w2 : Fx.world) (r : Downloader.download_result) :
  Pipeline.replyText (announcement mediaType) (Fx.with_outputFile None w) = (Fx.Ok tt, w1) →
  Pipeline.download cfg video mediaType w1 = (Fx.Ok r, w2) →
  let w' := (Pipeline.processSelectedMedia cfg video mediaType w).2 in
  Fx.EvUnlink (Downloader.filePath r) ∈ drop (length (Fx.trace w2)) (Fx.trace w')
  ∧ (unlink_allowed w → Fx.files w' !! Downloader.filePath r = None).
Proof.
  intros Hann Hdl w'. subst w'.
  assert (Hne : Downloader.filePath r ≠ "") by (eapply download_path_nonempty; exact Hdl).
  assert (Hallowed : unlink_allowed w → unlink_allowed w2).
  { intros Hw. pose proof (download_later cfg video mediaType w1 w1 (later_than_refl w1))
      as [_ Hl]. rewrite Hdl in Hl. apply Hl. unfold Pipeline.replyText in Hann.
    destruct (send_frame (Fx.EvReplyText (announcement mediaType)) (Fx.with_outputFile None w))
      as (_ & _ & Hu & _). rewrite Hann in Hu. cbn [snd] in Hu.
    unfold unlink_allowed. by rewrite Hu. }
  rewrite processSelectedMedia_stages. unfold stages. cbv zeta.
  rewrite Hann. cbn [fst snd]. rewrite Hdl. cbn [fst snd].
  set (path := Downloader.filePath r) in *.
  assert (Hexit : ∀ (m : Fx.M unit) wk,
            m = Fx.try_finally (Fx.ret tt) cleanup ∨ (∃ cfg e, m = report cfg e) →
            later_than w2 wk → Fx.outputFile wk = Some path →
            Fx.EvUnlink path ∈ drop (length (Fx.trace w2)) (Fx.trace (m wk).2)
            ∧ (unlink_allowed w → Fx.files (m wk).2 !! path = None)).
  { intros m wk Hm Hl Ho. destruct (exit_cleans m w2 wk path Hm Hl Ho Hne). auto. }
  assert (Hmedia : ∃ ev, replyMedia mediaType (Some path) = Pipeline.send ev)
    by (destruct mediaType; by eexists).
  destruct Hmedia as [ev ->].
  assert (Hd : later_than w2 (Fx.with_outputFile (Some path) w2))
    by (split; [exists []; by rewrite app_nil_r|done]).
  pose proof (send_later w2 ev _ Hd) as Hs.
  destruct (send_frame ev (Fx.with_outputFile (Some path) w2)) as (_ & _ & _ & Hos & _).
  destruct (Pipeline.send ev _) as [rs ws]. cbn [fst snd] in *.
  cbn [Fx.with_outputFile Fx.outputFile] in Hos.
  destruct rs as [[]|es]; [|apply Hexit; eauto].
  unfold Pipeline.replyText.
  pose proof (send_later w2 (Fx.EvReplyText (confirmation mediaType)) ws Hs) as Hc.
  destruct (send_frame (Fx.EvReplyText (confirmation mediaType)) ws) as (_ & _ & _ & Hoc & _).
  destruct (Pipeline.send _ ws) as [rc wc]. cbn [fst snd] in *.
  destruct rc as [[]|ec]; (apply Hexit; [eauto|done|congruence]).
Qed.

Lemma X14_witness :
  let cfg := Config.load (Config.mkEnv None None None None None None None) in
  let video := Bot.mkCandidate Bot.KindVideo "song" "https://youtu.be/x" (Some 100) in
  let w := Fx.mkWorld ∅ [] [Fx.YtDlpWrote (Fx.mkPath "/dl" "song-1" ".mp3") 500] [] [] []
             [None; Some (Fx.mkTransportError "socket closed" None)] None in
  Fx.files (Pipeline.processSelectedMedia cfg video Bot.MEDIA_AUDIO w).2 !! "/dl/song-1.mp3"
  = None.
Proof.
  intros cfg video w.
  set (w1 := (Pipeline.replyText Fx.TxtDownloadingAudio (Fx.with_outputFile None w)).2).
  set (w2 := (Pipeline.download cfg video Bot.MEDIA_AUDIO w1).2).
  assert (Hann : Pipeline.replyText (announcement Bot.MEDIA_AUDIO)
                   (Fx.with_outputFile None w) = (Fx.Ok tt, w1))
    by (vm_compute; reflexivity).
  assert (Hdl : Pipeline.download cfg video Bot.MEDIA_AUDIO w1
                = (Fx.Ok (Downloader.mkResult "/dl/song-1.mp3" 500), w2))
    by (vm_compute; reflexivity).
  assert (Hallowed : unlink_allowed w) by constructor.
  exact (proj2 (X14_output_file_removed_on_every_exit cfg video Bot.MEDIA_AUDIO w w1 w2 _
                  Hann Hdl) Hallowed).
Defined.

(** *** What a job sends and downloads *)

Lemma download_ytdlp cfg video mediaType w :
  ytdlp_runs (Fx.trace (Pipeline.download cfg video mediaType w).2)
  = S (ytdlp_runs (Fx.trace w)).
Proof.
  destruct mediaType; simpl.
  - unfold Downloader.downloadAudio, mbind, Fx.M_bind, Fx.bind, mret, Fx.M_ret, Fx.ret.
    pose proof (downloadWithArgs_ran w [] 0 None false
                  (Config.maxAudioFileSize cfg) w (ran_refl w)) as [_ Hy].
    destruct (Downloader.downloadWithArgs _ _ _ w) as [[rawResult|e] w1];
      cbn [snd] in *; lia.
  - destruct (downloadVideo_ran w [] 0 (Bot.durationSeconds video)
                (Downloader.mkOptions (Config.maxVideoFileSize cfg)
                   (Profile.mkVideoOptions None None None)) w (ran_refl w))
      as (qs & [_ Hy] & _). lia.
Qed.

Lemma send_text_quiet t w :
  let w' := (Pipeline.send (Fx.EvReplyText t) w).2 in
  media_sent (Fx.trace w') = media_sent (Fx.trace w)
  ∧ ytdlp_runs (Fx.trace w') = ytdlp_runs (Fx.trace w).
Proof.
  intros w'. destruct (send_frame (Fx.EvReplyText t) w) as (Ht & _). fold w' in Ht.
  unfold media_sent, ytdlp_runs. rewrite Ht, !omap_app. simpl. by rewrite !app_nil_r.
Qed.

Lemma safeUnlink_quiet filePath w :
  let w' := (Fx.safeUnlink filePath w).2 in
  media_sent (Fx.trace w') = media_sent (Fx.trace w)
  ∧ ytdlp_runs (Fx.trace w') = ytdlp_runs (Fx.trace w).
Proof.
  intros w'. split.
  - by destruct (safeUnlink_untouched _ media_internal filePath w) as (_ & _ & ?).
  - destruct (safeUnlink_ran w [] 0 filePath w (ran_refl w)) as [_ Hy]. subst w'. lia.
Qed.

Lemma exit_quiet (m : Fx.M unit) w :
  m = Fx.try_finally (Fx.ret tt) cleanup ∨ (∃ cfg e, m = report cfg e) →
  media_sent (Fx.trace (m w).2) = media_sent (Fx.trace w)
  ∧ ytdlp_runs (Fx.trace (m w).2) = ytdlp_runs (Fx.trace w).
Proof.
  intros [-> | (cfg & e & ->)].
  - rewrite finish_spec. apply safeUnlink_quiet.
  - rewrite report_spec. cbn [snd].
    destruct (safeUnlink_quiet (Fx.outputFile w)
                (Pipeline.send (Fx.EvReplyText (Fx.TxtFailure (Pipeline.mapPlayError cfg e)))
                   w).2) as [-> ->].
    apply send_text_quiet.
Qed.

Lemma replyMedia_sent mediaType path w :
  let w' := (replyMedia mediaType (Some path) w).2 in
  media_sent (Fx.trace w') = media_sent (Fx.trace w) ++ [(mediaType, path)]
  ∧ ytdlp_runs (Fx.trace w') = ytdlp_runs (Fx.trace w).
Proof.
  intros w'. subst w'. unfold media_sent, ytdlp_runs.
  destruct mediaType; unfold replyMedia, Pipeline.replyAudio, Pipeline.replyVideo;
    cbn [default];
    match goal with |- context [Pipeline.send ?e w] =>
      destruct (send_frame e w) as (-> & _) end;
    rewrite !omap_app; simpl; by rewrite app_nil_r.
Qed.

(** X15.  A job goes through the yt-dlp phase once if its announcement went
    out and not at all otherwise, and it sends at most one media message: the
    file its download returned, as the media type of the job, and none when
    the announcement was rejected or the download failed. *)
Theorem X15_job_sends_what_it_downloaded
    (cfg : Config.config) (video : Bot.candidate) (mediaType : Bot.media) (w : Fx.world) :
  let a := Pipeline.replyText (announcement mediaType) (Fx.with_outputFile None w) in
  let d := Pipeline.download cfg video mediaType a.2 in
  let w' := (Pipeline.processSelectedMedia cfg video mediaType w).2 in
  media_sent (Fx.trace w')
  = media_sent (Fx.trace w)
    ++ match a.1, d.1 with
       | Fx.Ok _, Fx.Ok r => [(mediaType, Downloader.filePath r)]
       | _, _ => []
       end
  ∧ ytdlp_runs (Fx.trace w')
    = (ytdlp_runs (Fx.trace w) + match a.1 with Fx.Ok _ => 1 | Fx.Throw _ => 0 end)%nat.
Proof.
  intros a d w'. subst w'. rewrite processSelectedMedia_stages. unfold stages. cbv zeta.
  fold a. fold d.
  assert (Hexit : ∀ (m : Fx.M unit) wk ms n,
            m = Fx.try_finally (Fx.ret tt) cleanup ∨ (∃ cfg e, m = report cfg e) →
            media_sent (Fx.trace wk) = ms → ytdlp_runs (Fx.trace wk) = n →
            media_sent (Fx.trace (m wk).2) = ms ∧ ytdlp_runs (Fx.trace (m wk).2) = n).
  { intros m wk ms n Hm <- <-. by apply exit_quiet. }
  destruct (send_text_quiet (announcement mediaType) (Fx.with_outputFile None w)) as [Ma Ya].
  fold (Pipeline.replyText (announcement mediaType)) in Ma, Ya. fold a in Ma, Ya.
  cbn [Fx.with_outputFile Fx.trace] in Ma, Ya.
  destruct (a.1) as [[]|ea].
  - destruct (download_untouched _ media_internal cfg video mediaType a.2) as (_ & _ & Md).
    pose proof (download_ytdlp cfg video mediaType a.2) as Yd.
    fold (media_sent (Fx.trace (Pipeline.download cfg video mediaType a.2).2)) in Md.
    fold (media_sent (Fx.trace a.2)) in Md. fold d in Md, Yd.
    destruct (d.1) as [r|ed].
    + destruct (replyMedia_sent mediaType (Downloader.filePath r)
                  (Fx.with_outputFile (Some (Downloader.filePath r)) d.2)) as [Ms Ys].
      cbv zeta in Ms, Ys. cbn [Fx.with_outputFile Fx.trace] in Ms, Ys.
      set (s := replyMedia mediaType _ _) in *.
      destruct (s.1) as [[]|es].
      * destruct (send_text_quiet (confirmation mediaType) s.2) as [Mc Yc].
        fold (Pipeline.replyText (confirmation mediaType)) in Mc, Yc.
        set (c := Pipeline.replyText (confirmation mediaType) s.2) in *.
        destruct (c.1) as [[]|ec]; (apply Hexit; [eauto|congruence|lia]).
      * apply Hexit; [eauto|congruence|lia].
    + rewrite app_nil_r. apply Hexit; [eauto|congruence|lia].
  - rewrite app_nil_r. apply Hexit; [eauto|congruence|lia].
Qed.

(** ** The message handler *)

(** A reply that [parseSelectionChoice] accepts does not start with a slash. *)
Lemma selection_not_slash text d r :
  Bot.parseSelectionChoice text d = Some r →
  Commands.starts_with_slash (Str.trim text) = false.
Proof.
  intros Hsel. apply selection_head in Hsel as (c & value & Hv & Hc).
  destruct (Str.trim text) as [|c0 t]; [done|]. simpl in Hv. injection Hv as Hc0 _.
  assert (Hns : c0 ≠ "/"%char).
  { intros ->. vm_compute in Hc0. subst c. by destruct Hc. }
  unfold Commands.starts_with_slash. simpl.
  by rewrite bool_decide_eq_false_2 by congruence.
Qed.

Lemma no_slash_no_command text :
  Commands.starts_with_slash (Str.trim text) = false →
  Commands.parseCommand text = Commands.none.
Proof.
  intros H. rewrite parseCommand_dispatch. unfold dispatch.
  destruct (Str.trim text); [done|]. by rewrite H.
Qed.

(** What the handler finds is what is in the store and has not expired; an
    entry that has expired is evicted, and nothing else changes. *)
Lemma getPending_spec sv chatId s :
  Chat.getPending sv chatId s
  = (Fx.Ok (found sv chatId s),
     Chat.set_store (match found sv chatId s with
                     | Some _ => Chat.pendingSelections s
                     | None => delete chatId (Chat.pendingSelections s)
                     end) s).
Proof.
  unfold Chat.getPending, found, Bot.getPendingSelection.
  destruct (Chat.pendingSelections s !! chatId) as [p|] eqn:Hp; simpl.
  - by destruct (Chat.now sv >? Bot.expiresAt p).
  - by rewrite delete_id.
Qed.

Lemma chat_replyText_spec text s :
  Chat.replyText text s
  = (if accepts (Chat.answers s) then Fx.Ok tt
     else match head (Chat.answers s) with
          | Some (Some failure) => Fx.Throw (Fx.ofTransport failure)
          | _ => Fx.Ok tt
          end,
     Chat.mkSession (Chat.pendingSelections s) (Chat.queue s) (Chat.jobs s)
                    (Chat.replies s ++ [text]) (tail (Chat.answers s))).
Proof.
  unfold Chat.replyText, accepts. by destruct (head (Chat.answers s)) as [[failure|]|].
Qed.

(** X17.  [/cancel] leaves the chat without a pending selection and every
    other chat as it was; it hands nothing to the queue and replies once:
    that the selection is cancelled if one was pending and had not expired,
    that there is none otherwise. *)
Theorem X17_cancel_leaves_no_pending
    (cfg : Config.config) (sv : Chat.services) (chatId : string) (text : Str.jsstring)
    (s : Chat.session) :
  Commands.parseCommand (Str.trim text) = Commands.cancel →
  let s' := (Chat.handleIncomingCommand cfg sv chatId text s).2 in
  Chat.pendingSelections s' = delete chatId (Chat.pendingSelections s)
  ∧ Chat.jobs s' = Chat.jobs s ∧ Chat.queue s' = Chat.queue s
  ∧ Chat.replies s'
    = Chat.replies s ++ [match found sv chatId s with
                         | Some _ => Chat.Cancelled
                         | None => Chat.NothingToCancel
                         end].
Proof.
  intros Hcancel s'.
  assert (Hrun : s' = Chat.mkSession (delete chatId (Chat.pendingSelections s))
                        (Chat.queue s) (Chat.jobs s)
                        (Chat.replies s ++ [match found sv chatId s with
                                            | Some _ => Chat.Cancelled
                                            | None => Chat.NothingToCancel
                                            end])
                        (tail (Chat.answers s))).
  { subst s'. unfold Chat.handleIncomingCommand. cbv zeta.
    unfold mbind, Chat.M_bind. unfold Chat.bind at 1. rewrite getPending_spec, Hcancel.
    destruct (found sv chatId s) as [p|].
    - unfold Chat.bind, Chat.clearPending. by rewrite chat_replyText_spec.
    - by rewrite chat_replyText_spec. }
  by rewrite Hrun.
Qed.

Lemma X17_witness :
  let sv := Chat.mkServices (λ _, false) (λ _, Fx.Throw Bot.invalidDuration)
              (λ _, Fx.Ok []) (λ _, Fx.Ok []) 1000 1000 in
  let p := Bot.mkPending (Bot.mkPayload Bot.search_results [] Bot.MEDIA_AUDIO) 5000 in
  let s := Chat.mkSession {["chat-1" := p; "chat-2" := p]} Queue.empty [] [] [] in
  Chat.pendingSelections (Chat.handleIncomingCommand (Config.load
      (Config.mkEnv None None None None None None None)) sv "chat-1" (Str.str " /CANCEL now") s).2
  = delete "chat-1" (Chat.pendingSelections s).
Proof.
  intros sv p s.
  apply (X17_cancel_leaves_no_pending _ sv "chat-1" (Str.str " /CANCEL now") s).
  vm_compute. reflexivity.
Defined.

Lemma set_store_same s : Chat.set_store (Chat.pendingSelections s) s = s.
Proof. by destruct s. Qed.

(** With a selection pending, a reply that [parseSelectionChoice] accepts is
    handled as a selection. *)
Lemma handle_selection cfg sv chatId text s p choice :
  found sv chatId s = Some p →
  Bot.parseSelectionChoice (Str.trim text) (Bot.p_defaultMediaType (Bot.selection p))
  = Some choice →
  Chat.handleIncomingCommand cfg sv chatId text s
  = Chat.try_catch (Chat.handlePendingSelection cfg sv chatId p choice) (Chat.replyFailure cfg) s.
Proof.
  intros Hfound Hsel. unfold Chat.handleIncomingCommand. cbv zeta.
  unfold mbind, Chat.M_bind, Chat.bind. rewrite getPending_spec, Hfound, set_store_same.
  rewrite (no_slash_no_command (Str.trim text)) by by eapply selection_not_slash.
  by rewrite Hsel.
Qed.

Lemma optionAt_out_of_range options index :
  index < 1 ∨ Z.of_nat (length options) < index → Chat.optionAt options index = None.
Proof.
  intros H. unfold Chat.optionAt. destruct (index - 1 <? 0) eqn:Hneg; [done|].
  apply lookup_ge_None_2. lia.
Qed.

Lemma report_spec_chat cfg e s :
  (Chat.replyFailure cfg e s).2
  = Chat.mkSession (Chat.pendingSelections s) (Chat.queue s) (Chat.jobs s)
      (Chat.replies s ++ [Chat.Failure (Pipeline.mapPlayError cfg e)]) (tail (Chat.answers s)).
Proof. unfold Chat.replyFailure. by rewrite chat_replyText_spec. Qed.

(** A reply made in a [try] block of the handler: the failure line follows
    it when the transport rejects it. *)
Lemma guarded_reply cfg text s :
  (Chat.try_catch (Chat.replyText text) (Chat.replyFailure cfg) s).2
  = Chat.mkSession (Chat.pendingSelections s) (Chat.queue s) (Chat.jobs s)
      (Chat.replies s ++ text :: rejection_line cfg (Chat.answers s))
      (if accepts (Chat.answers s) then tail (Chat.answers s)
       else tail (tail (Chat.answers s))).
Proof.
  unfold Chat.try_catch. rewrite chat_replyText_spec. unfold accepts, rejection_line.
  destruct (head (Chat.answers s)) as [[failure|]|]; try done.
  rewrite report_spec_chat. simpl. by rewrite <- app_assoc.
Qed.

(** X18.  A selection that is refused leaves the pending selection in place
    and hands nothing to the queue: an index outside the options is answered
    with the range, and an option whose duration does not allow the media
    type with the failure line of the duration check. *)
Theorem X18_refused_selection_keeps_pending
    (cfg : Config.config) (sv : Chat.services) (chatId : string) (text : Str.jsstring)
    (s : Chat.session) (p : Bot.pending) (index : Z) (mediaType : Bot.media) :
  found sv chatId s = Some p →
  Bot.parseSelectionChoice (Str.trim text) (Bot.p_defaultMediaType (Bot.selection p))
  = Some (index, mediaType) →
  let options := Bot.p_options (Bot.selection p) in
  let s' := (Chat.handleIncomingCommand cfg sv chatId text s).2 in
  (index < 1 ∨ Z.of_nat (length options) < index →
   Chat.pendingSelections s' = Chat.pendingSelections s
   ∧ Chat.jobs s' = Chat.jobs s ∧ Chat.queue s' = Chat.queue s
   ∧ Chat.replies s'
     = Chat.replies s
       ++ Chat.InvalidOption (length options) :: rejection_line cfg (Chat.answers s))
  ∧ (∀ option e,
       Chat.optionAt options index = Some option →
       Bot.p_mode (Bot.selection p) = Bot.playlist_tracks ∨ Bot.c_kind option = Bot.KindVideo →
       Bot.assertDurationForMedia cfg option mediaType = Fx.Throw e →
       Chat.pendingSelections s' = Chat.pendingSelections s
       ∧ Chat.jobs s' = Chat.jobs s ∧ Chat.queue s' = Chat.queue s
       ∧ Chat.replies s' = Chat.replies s ++ [Chat.Failure (Pipeline.mapPlayError cfg e)]).
Proof.
  intros Hfound Hsel options s'. subst s'. rewrite (handle_selection _ _ _ _ _ _ _ Hfound Hsel).
  split.
  - intros Hrange. apply optionAt_out_of_range in Hrange.
    unfold Chat.handlePendingSelection. cbv zeta. fold options. rewrite Hrange.
    by rewrite guarded_reply.
  - intros option e Hopt Hkind Hassert.
    assert (Hrun : Chat.try_catch (Chat.handlePendingSelection cfg sv chatId p (index, mediaType))
                     (Chat.replyFailure cfg) s = Chat.replyFailure cfg e s).
    { unfold Chat.handlePendingSelection. cbv zeta. fold options. rewrite Hopt.
      unfold Chat.try_catch, mbind, Chat.M_bind, Chat.bind, Chat.call.
      destruct Hkind as [-> | ->]; [|destruct (Bot.p_mode (Bot.selection p))];
        by rewrite Hassert. }
    rewrite Hrun, report_spec_chat. done.
Qed.

Lemma X18_witness :
  let cfg := Config.load (Config.mkEnv None None None None None None None) in
  let sv := Chat.mkServices (λ _, false) (λ _, Fx.Throw Bot.invalidDuration)
              (λ _, Fx.Ok []) (λ _, Fx.Ok []) 1000 1000 in
  let song := Bot.mkCandidate Bot.KindVideo "song" "https://youtu.be/x" (Some 100) in
  let p := Bot.mkPending (Bot.mkPayload Bot.search_results [song] Bot.MEDIA_AUDIO) 5000 in
  let s := Chat.mkSession {["chat-1" := p]} Queue.empty [] [] [] in
  Chat.pendingSelections (Chat.handleIncomingCommand cfg sv "chat-1" (Str.str "v2") s).2
  = Chat.pendingSelections s.
Proof.
  intros cfg sv song p s.
  assert (Hfound : found sv "chat-1" s = Some p) by (vm_compute; reflexivity).
  assert (Hsel : Bot.parseSelectionChoice (Str.trim (Str.str "v2"))
                   (Bot.p_defaultMediaType (Bot.selection p)) = Some (2, Bot.MEDIA_VIDEO))
    by (vm_compute; reflexivity).
  refine (proj1 (proj1 (X18_refused_selection_keeps_pending cfg sv "chat-1" (Str.str "v2") s p
                          2 Bot.MEDIA_VIDEO Hfound Hsel) _)).
  right. simpl. lia.
Defined.

(** X19.  A selection that is accepted - an option that is there, a video or
    a playlist track, whose duration allows the media type - clears the
    pending selection of the chat and hands one job to the queue: the option
    with the media type chosen, whatever the transport answers.  The handler
    replies with the position [add] returned: nothing is awaited before
    [queue.add] on this path, so it is the length of the queue as the
    invocation found it, plus one. *)
Theorem X19_accepted_selection_enqueues_one_job
    (cfg : Config.config) (sv : Chat.services) (chatId : string) (text : Str.jsstring)
    (s : Chat.session) (p : Bot.pending) (index : Z) (mediaType : Bot.media)
    (option : Bot.candidate) :
  found sv chatId s = Some p →
  Bot.parseSelectionChoice (Str.trim text) (Bot.p_defaultMediaType (Bot.selection p))
  = Some (index, mediaType) →
  Chat.optionAt (Bot.p_options (Bot.selection p)) index = Some option →
  Bot.p_mode (Bot.selection p) = Bot.playlist_tracks ∨ Bot.c_kind option = Bot.KindVideo →
  Bot.assertDurationForMedia cfg option mediaType = Fx.Ok tt →
  let s' := (Chat.handleIncomingCommand cfg sv chatId text s).2 in
  Chat.pendingSelections s' = delete chatId (Chat.pendingSelections s)
  ∧ Chat.jobs s' = Chat.jobs s ++ [(option, mediaType)]
  ∧ Chat.Received (S (length (Queue.items (Chat.queue s)))) ∈ Chat.replies s'.
Proof.
  intros Hfound Hsel Hopt Hkind Hassert s'. subst s'.
  set (job := Queue.mkTask (length (Chat.jobs s)) Queue.ReturnsPromise).
  rewrite (handle_selection _ _ _ _ _ _ _ Hfound Hsel).
  assert (Hrun : Chat.try_catch (Chat.handlePendingSelection cfg sv chatId p (index, mediaType))
                   (Chat.replyFailure cfg) s
                 = Chat.try_catch
                     (Chat.replyText (Chat.Received (S (length (Queue.items (Chat.queue s))))))
                     (Chat.replyFailure cfg)
                     (Chat.mkSession (delete chatId (Chat.pendingSelections s))
                        (Queue.add job (Chat.queue s)).2
                        (Chat.jobs s ++ [(option, mediaType)]) (Chat.replies s)
                        (Chat.answers s))).
  { unfold Chat.handlePendingSelection. cbv zeta. rewrite Hopt.
    assert (Hpos : (Queue.add job (Chat.queue s)).1 = S (length (Queue.items (Chat.queue s)))).
    { unfold Queue.add, Queue.push. cbn [fst]. rewrite length_app. simpl. lia. }
    unfold Chat.try_catch, mbind, Chat.M_bind, Chat.bind, Chat.call, Chat.clearPending,
      Chat.enqueueMediaJob, Bot.clearPendingSelection.
    destruct Hkind as [Hk | Hk]; rewrite Hk; [|destruct (Bot.p_mode (Bot.selection p))];
      rewrite Hassert; cbn [Chat.set_store Chat.jobs Chat.queue Chat.pendingSelections
                             Chat.replies Chat.answers];
      fold job; rewrite <- Hpos; by destruct (Queue.add job (Chat.queue s)). }
  rewrite Hrun, guarded_reply. cbn [Chat.pendingSelections Chat.jobs Chat.replies].
  split_and!; [done|done|]. rewrite elem_of_app. right. rewrite elem_of_cons. by left.
Qed.

Lemma X19_witness :
  let cfg := Config.load (Config.mkEnv None None None None None None None) in
  let sv := Chat.mkServices (λ _, false) (λ _, Fx.Throw Bot.invalidDuration)
              (λ _, Fx.Ok []) (λ _, Fx.Ok []) 1000 1000 in
  let song := Bot.mkCandidate Bot.KindVideo "song" "https://youtu.be/x" (Some 100) in
  let p := Bot.mkPending (Bot.mkPayload Bot.search_results [song] Bot.MEDIA_AUDIO) 5000 in
  let s := Chat.mkSession {["chat-1" := p]} Queue.empty [] [] [] in
  Chat.jobs (Chat.handleIncomingCommand cfg sv "chat-1" (Str.str " V 1") s).2
  = [(song, Bot.MEDIA_VIDEO)].
Proof.
  intros cfg sv song p s.
  assert (Hfound : found sv "chat-1" s = Some p) by (vm_compute; reflexivity).
  assert (Hsel : Bot.parseSelectionChoice (Str.trim (Str.str " V 1"))
                   (Bot.p_defaultMediaType (Bot.selection p)) = Some (1, Bot.MEDIA_VIDEO))
    by (vm_compute; reflexivity).
  assert (Hopt : Chat.optionAt (Bot.p_options (Bot.selection p)) 1 = Some song)
    by reflexivity.
  assert (Hassert : Bot.assertDurationForMedia cfg song Bot.MEDIA_VIDEO = Fx.Ok tt)
    by (vm_compute; reflexivity).
  exact (proj1 (proj2 (X19_accepted_selection_enqueues_one_job cfg sv "chat-1"
                         (Str.str " V 1") s p 1 Bot.MEDIA_VIDEO song
                         Hfound Hsel Hopt (or_intror eq_refl) Hassert))).
Defined.

(** X20.  A text that does not start with a slash, with nothing pending for
    the chat, is ignored: no reply, nothing handed to the queue; with a
    selection pending and the text no selection, the handler asks for one and
    the selection stays. *)
Theorem X20_text_that_is_no_command
    (cfg : Config.config) (sv : Chat.services) (chatId : string) (text : Str.jsstring)
    (s : Chat.session) :
  Commands.starts_with_slash (Str.trim text) = false →
  let run := Chat.handleIncomingCommand cfg sv chatId text s in
  (found sv chatId s = None →
   run = (Fx.Ok tt, Chat.set_store (delete chatId (Chat.pendingSelections s)) s))
  ∧ (∀ p, found sv chatId s = Some p →
       Bot.parseSelectionChoice (Str.trim text) (Bot.p_defaultMediaType (Bot.selection p))
       = None →
       run.2 = Chat.mkSession (Chat.pendingSelections s) (Chat.queue s) (Chat.jobs s)
                 (Chat.replies s ++ [Chat.Prompt]) (tail (Chat.answers s))).
Proof.
  intros Hslash run. subst run. unfold Chat.handleIncomingCommand. cbv zeta.
  unfold mbind, Chat.M_bind, Chat.bind. rewrite getPending_spec.
  rewrite (no_slash_no_command (Str.trim text)) by by rewrite trim_idempotent.
  split.
  - by intros ->.
  - intros p -> Hsel. rewrite set_store_same, Hsel, Hslash. simpl.
    by rewrite chat_replyText_spec.
Qed.

Lemma X20_witness :
  let cfg := Config.load (Config.mkEnv None None None None None None None) in
  let sv := Chat.mkServices (λ _, false) (λ _, Fx.Throw Bot.invalidDuration)
              (λ _, Fx.Ok []) (λ _, Fx.Ok []) 1000 1000 in
  let s := Chat.mkSession ∅ Queue.empty [] [] [] in
  Chat.handleIncomingCommand cfg sv "chat-1" (Str.str "good morning") s
  = (Fx.Ok tt, Chat.set_store (delete "chat-1" (Chat.pendingSelections s)) s).
Proof.
  intros cfg sv s.
  assert (Hslash : Commands.starts_with_slash (Str.trim (Str.str "good morning")) = false)
    by (vm_compute; reflexivity).
  exact (proj1 (X20_text_that_is_no_command cfg sv "chat-1" (Str.str "good morning") s Hslash)
           eq_refl).
Defined.

Lemma command_starts_with_slash text :
  Commands.parseCommand text ≠ Commands.none →
  Commands.starts_with_slash (Str.trim text) = true.
Proof.
  intros H. destruct (Commands.starts_with_slash (Str.trim text)) eqn:Hs; [done|].
  by apply no_slash_no_command in Hs.
Qed.

(** A search, from the [try] block of the handler. *)
Lemma search_run cfg sv chatId q m s :
  Chat.isLikelyUrl sv q = false →
  let s' := (Chat.try_catch (Chat.handlePlayCommand cfg sv chatId q m) (Chat.replyFailure cfg) s).2 in
  Chat.jobs s' = Chat.jobs s ∧ Chat.queue s' = Chat.queue s
  ∧ Chat.pendingSelections s'
    = match accepts (Chat.answers s), Chat.searchMediaOptions sv q with
      | true, Fx.Ok options =>
        <[chatId := Bot.mkPending (Bot.mkPayload Bot.search_results options m)
                      (Chat.later sv + Config.selectionTimeoutSeconds cfg * 1000)]>
          (Chat.pendingSelections s)
      | _, _ => delete chatId (Chat.pendingSelections s)
      end
  ∧ ∃ more, Chat.replies s' = Chat.replies s ++ Chat.Searching :: more.
Proof.
  intros Hurl. unfold Chat.handlePlayCommand. rewrite Hurl.
  unfold Chat.try_catch, mbind, Chat.M_bind, Chat.bind, Chat.clearPending, Chat.call,
    Chat.setPending, Chat.replyFailure, Chat.replyText, accepts, Bot.clearPendingSelection,
    Bot.setPendingSelection.
  cbn [Chat.set_store Chat.answers Chat.pendingSelections Chat.queue Chat.jobs Chat.replies].
  destruct (head (Chat.answers s)) as [[failure|]|];
    [|destruct (Chat.searchMediaOptions sv q) as [options|e]..];
    cbn [Chat.set_store Chat.answers Chat.pendingSelections Chat.queue Chat.jobs Chat.replies];
    try destruct (head (tail (Chat.answers s))) as [[failure'|]|];
    cbn [snd Chat.set_store Chat.answers Chat.pendingSelections Chat.queue Chat.jobs
         Chat.replies];
    try destruct (head (tail (tail (Chat.answers s)))) as [[failure''|]|];
    cbn [snd Chat.set_store Chat.answers Chat.pendingSelections Chat.queue Chat.jobs
         Chat.replies];
    rewrite ?insert_delete_eq, <- ?app_assoc; split_and!; try done; by eexists.
Qed.

(** What the handler finds of the store once [getPendingSelection] has
    looked at the entry of the chat. *)
Lemma found_store_delete sv chatId s :
  delete chatId (match found sv chatId s with
                 | Some _ => Chat.pendingSelections s
                 | None => delete chatId (Chat.pendingSelections s)
                 end)
  = delete chatId (Chat.pendingSelections s).
Proof. destruct (found sv chatId s); [done|apply delete_delete_eq]. Qed.

Lemma found_store_insert sv chatId s x :
  <[chatId := x]> (match found sv chatId s with
                   | Some _ => Chat.pendingSelections s
                   | None => delete chatId (Chat.pendingSelections s)
                   end)
  = <[chatId := x]> (Chat.pendingSelections s).
Proof. destruct (found sv chatId s); [done|apply insert_delete_eq]. Qed.

(** [/play] and [/video] with a query reach [handlePlayCommand], whether a
    selection is pending or not. *)
Lemma handle_play cfg sv chatId text s m q :
  Commands.parseCommand (Str.trim text) = search_command m q →
  Chat.handleIncomingCommand cfg sv chatId text s
  = Chat.try_catch (Chat.handlePlayCommand cfg sv chatId q m) (Chat.replyFailure cfg)
      (Chat.set_store (match found sv chatId s with
                       | Some _ => Chat.pendingSelections s
                       | None => delete chatId (Chat.pendingSelections s)
                       end) s).
Proof.
  intros Hparsed.
  assert (Hslash : Commands.starts_with_slash (Str.trim text) = true).
  { rewrite <- (trim_idempotent text). apply command_starts_with_slash.
    rewrite Hparsed. by destruct m. }
  unfold Chat.handleIncomingCommand. cbv zeta.
  unfold mbind, Chat.M_bind, Chat.bind. rewrite getPending_spec.
  rewrite Hparsed. destruct (found sv chatId s) as [p|] eqn:Hfound.
  - destruct (Bot.parseSelectionChoice (Str.trim text)
                (Bot.p_defaultMediaType (Bot.selection p))) as [choice|] eqn:Hsel.
    { apply selection_not_slash in Hsel. rewrite trim_idempotent in Hsel. congruence. }
    rewrite Hslash. by destruct m.
  - by destruct m.
Qed.

(** X21.  A search - [/play] or [/video] with a query that is no URL -
    replaces whatever was pending for the chat: with the options found, held
    for the selection timeout from the clock reading at the time, when the
    search answers and its announcement went out, and with nothing otherwise.
    It hands nothing to the queue. *)
Theorem X21_search_replaces_pending
    (cfg : Config.config) (sv : Chat.services) (chatId : string) (text : Str.jsstring)
    (s : Chat.session) (m : Bot.media) (q : Str.jsstring) :
  Commands.parseCommand (Str.trim text) = search_command m q →
  Chat.isLikelyUrl sv q = false →
  let s' := (Chat.handleIncomingCommand cfg sv chatId text s).2 in
  Chat.jobs s' = Chat.jobs s ∧ Chat.queue s' = Chat.queue s
  ∧ Chat.pendingSelections s'
    = match accepts (Chat.answers s), Chat.searchMediaOptions sv q with
      | true, Fx.Ok options =>
        <[chatId := Bot.mkPending (Bot.mkPayload Bot.search_results options m)
                      (Chat.later sv + Config.selectionTimeoutSeconds cfg * 1000)]>
          (Chat.pendingSelections s)
      | _, _ => delete chatId (Chat.pendingSelections s)
      end
  ∧ ∃ more, Chat.replies s' = Chat.replies s ++ Chat.Searching :: more.
Proof.
  intros Hparsed Hurl s'. subst s'. rewrite (handle_play _ _ _ _ _ _ _ Hparsed).
  destruct (search_run cfg sv chatId q m
              (Chat.set_store (match found sv chatId s with
                               | Some _ => Chat.pendingSelections s
                               | None => delete chatId (Chat.pendingSelections s)
                               end) s) Hurl)
    as (Hjobs & Hqueue & Hstore & Hreplies).
  split_and!; [exact Hjobs|exact Hqueue| |exact Hreplies].
  rewrite Hstore. cbn [Chat.set_store Chat.answers Chat.pendingSelections].
  rewrite found_store_delete.
  destruct (accepts (Chat.answers s)); [|done].
  destruct (Chat.searchMediaOptions sv q); [apply found_store_insert|done].
Qed.

Lemma X21_witness :
  let cfg := Config.load (Config.mkEnv None None None None None None None) in
  let song := Bot.mkCandidate Bot.KindVideo "song" "https://youtu.be/x" (Some 100) in
  let sv := Chat.mkServices (λ _, false) (λ _, Fx.Throw Bot.invalidDuration)
              (λ _, Fx.Ok [song]) (λ _, Fx.Ok []) 1000 2000 in
  let s := Chat.mkSession ∅ Queue.empty [] [] [] in
  Chat.jobs (Chat.handleIncomingCommand cfg sv "chat-1" (Str.str "/video  numb ") s).2 = [].
Proof.
  intros cfg song sv s.
  assert (Hparsed : Commands.parseCommand (Str.trim (Str.str "/video  numb "))
                    = search_command Bot.MEDIA_VIDEO (Str.str "numb"))
    by (vm_compute; reflexivity).
  exact (proj1 (X21_search_replaces_pending cfg sv "chat-1" (Str.str "/video  numb ") s
                  Bot.MEDIA_VIDEO (Str.str "numb") Hparsed eq_refl)).
Defined.

(** ** The selection store *)

(** X16.  The store holds one pending selection per chat: what is set,
    cleared or evicted for one chat leaves what every other chat finds as it
    was; a second [setPendingSelection] replaces the first; and after
    [clearPendingSelection] the chat finds nothing. *)
Theorem X16_one_pending_selection_per_chat
    (cfg : Config.config) (chatId other : string) (store : gmap string Bot.pending)
    (now t1 t2 : Z) (p1 p2 : Bot.payload) :
  other ≠ chatId →
  (Bot.getPendingSelection now other (Bot.setPendingSelection cfg t1 chatId p1 store)).1
  = (Bot.getPendingSelection now other store).1
  ∧ (Bot.getPendingSelection now other (Bot.clearPendingSelection chatId store)).1
    = (Bot.getPendingSelection now other store).1
  ∧ (Bot.getPendingSelection now other (Bot.getPendingSelection t1 chatId store).2).1
    = (Bot.getPendingSelection now other store).1
  ∧ Bot.setPendingSelection cfg t2 chatId p2 (Bot.setPendingSelection cfg t1 chatId p1 store)
    = Bot.setPendingSelection cfg t2 chatId p2 store
  ∧ (Bot.getPendingSelection now chatId (Bot.clearPendingSelection chatId store)).1 = None.
Proof.
  intros Hne. unfold Bot.getPendingSelection, Bot.setPendingSelection, Bot.clearPendingSelection.
  assert (Hne' : chatId ≠ other) by congruence.
  split_and!.
  - rewrite lookup_insert_ne by exact Hne'.
    destruct (store !! other) as [p|]; [by destruct (now >? Bot.expiresAt p)|done].
  - rewrite lookup_delete_ne by exact Hne'.
    destruct (store !! other) as [p|]; [by destruct (now >? Bot.expiresAt p)|done].
  - destruct (store !! chatId) as [p|]; [|done].
    destruct (t1 >? Bot.expiresAt p); [|done]. cbn [snd].
    rewrite lookup_delete_ne by exact Hne'.
    destruct (store !! other) as [p'|]; [by destruct (now >? Bot.expiresAt p')|done].
  - apply insert_insert_eq.
  - by rewrite lookup_delete_eq.
Qed.

Lemma X16_witness :
  let p := Bot.mkPayload Bot.search_results [] Bot.MEDIA_AUDIO in
  let store : gmap string Bot.pending := {["chat-2" := Bot.mkPending p 5000]} in
  (Bot.getPendingSelection 1000 "chat-2" (Bot.clearPendingSelection "chat-1" store)).1
  = (Bot.getPendingSelection 1000 "chat-2" store).1.
Proof.
  intros p store.
  assert (Hne : "chat-2" ≠ "chat-1") by done.
  exact (proj1 (proj2 (X16_one_pending_selection_per_chat
                         (Config.load (Config.mkEnv None None None None None None None))
                         "chat-1" "chat-2" store 1000 0 0 p p Hne))).
Defined.

(** ** The two duration checks *)

(** X22.  The check at search time, against the larger of the two limits,
    lets through the videos that the check at selection time accepts for at
    least one media type, and no others; both call a duration invalid for
    the same videos. *)
Theorem X22_search_check_admits_what_some_media_allows
    (cfg : Config.config) (video : Bot.candidate) :
  (Youtube.assertVideoDuration video (Pipeline.getMaxSearchDuration cfg) = Fx.Ok tt
   ↔ Bot.assertDurationForMedia cfg video Bot.MEDIA_AUDIO = Fx.Ok tt
     ∨ Bot.assertDurationForMedia cfg video Bot.MEDIA_VIDEO = Fx.Ok tt)
  ∧ ∀ mediaType,
      Youtube.assertVideoDuration video (Pipeline.getMaxSearchDuration cfg)
      = Fx.Throw Bot.invalidDuration
      ↔ Bot.assertDurationForMedia cfg video mediaType = Fx.Throw Bot.invalidDuration.
Proof.
  assert (Hcases : ∀ mediaType,
            match Bot.durationSeconds video with
            | Some d =>
              if d <=? 0 then
                Youtube.assertVideoDuration video (Pipeline.getMaxSearchDuration cfg)
                = Fx.Throw Bot.invalidDuration
                ∧ Bot.assertDurationForMedia cfg video mediaType = Fx.Throw Bot.invalidDuration
              else
                (Youtube.assertVideoDuration video (Pipeline.getMaxSearchDuration cfg)
                 = if d >? Pipeline.getMaxSearchDuration cfg
                   then Fx.Throw (Fx.newYoutubeError "DURATION_LIMIT"
                                    "Video acima do limite permitido.")
                   else Fx.Ok tt)
                ∧ Bot.assertDurationForMedia cfg video mediaType
                  = if d >? match mediaType with
                            | Bot.MEDIA_VIDEO => Config.maxVideoDuration cfg
                            | Bot.MEDIA_AUDIO => Config.maxAudioDuration cfg
                            end
                    then Fx.Throw (Bot.durationLimit mediaType) else Fx.Ok tt
            | None =>
              Youtube.assertVideoDuration video (Pipeline.getMaxSearchDuration cfg)
              = Fx.Throw Bot.invalidDuration
              ∧ Bot.assertDurationForMedia cfg video mediaType = Fx.Throw Bot.invalidDuration
            end).
  { intros mediaType. unfold Youtube.assertVideoDuration, Bot.assertDurationForMedia, Js.number_or.
    destruct (Bot.durationSeconds video) as [d|]; [|done]. cbv zeta.
    destruct (Z.eqb_spec d 0) as [->|Hd]; [done|]. simpl.
    rewrite (proj2 (Z.eqb_neq d 0) Hd). simpl. by destruct (d <=? 0). }
  unfold Pipeline.getMaxSearchDuration in *.
  destruct (Bot.durationSeconds video) as [d|]; [destruct (d <=? 0) eqn:Hneg|].
  - split.
    + destruct (Hcases Bot.MEDIA_AUDIO) as [-> ->], (Hcases Bot.MEDIA_VIDEO) as [_ ->].
      intuition discriminate.
    + intros mediaType. destruct (Hcases mediaType) as [-> ->]. tauto.
  - split.
    + destruct (Hcases Bot.MEDIA_AUDIO) as [-> ->], (Hcases Bot.MEDIA_VIDEO) as [_ ->].
      destruct (Z.gtb_spec d (Config.maxAudioDuration cfg)),
               (Z.gtb_spec d (Config.maxVideoDuration cfg)),
               (Z.gtb_spec d (Config.maxAudioDuration cfg `max` Config.maxVideoDuration cfg));
        try lia; intuition discriminate.
    + intros mediaType. destruct (Hcases mediaType) as [-> ->].
      destruct (d >? Config.maxAudioDuration cfg `max` Config.maxVideoDuration cfg);
        destruct mediaType;
        try destruct (d >? Config.maxAudioDuration cfg);
        try destruct (d >? Config.maxVideoDuration cfg); intuition discriminate.
  - split.
    + destruct (Hcases Bot.MEDIA_AUDIO) as [-> ->], (Hcases Bot.MEDIA_VIDEO) as [_ ->].
      intuition discriminate.
    + intros mediaType. destruct (Hcases mediaType) as [-> ->]. tauto.
Qed.

(** ** The queue and the tasks that throw *)

Local Open Scope nat_scope.

Lemma loop_calls its aw se enq :
  Forall (λ t, Queue.onCall t = Queue.ReturnsPromise) aw →
  Forall (λ s, Queue.onCall s.1 = Queue.ThrowsOnCall → s.2 = Queue.Rejected) se →
  Forall (λ t, Queue.onCall t = Queue.ReturnsPromise)
         (Queue.awaiting (Queue.loop its aw se enq))
  ∧ Forall (λ s, Queue.onCall s.1 = Queue.ThrowsOnCall → s.2 = Queue.Rejected)
           (Queue.settled (Queue.loop its aw se enq)).
Proof.
  revert aw se. induction its as [|current rest IH]; intros aw se Haw Hse; [done|].
  simpl. destruct (Queue.onCall current) eqn:Hcall.
  - apply IH; [done|]. apply Forall_app. split; [done|]. by constructor.
  - simpl. split; [|done]. apply Forall_app. split; [done|]. by constructor.
Qed.

Lemma step_calls q e :
  Forall (λ t, Queue.onCall t = Queue.ReturnsPromise) (Queue.awaiting q)
  ∧ Forall (λ s, Queue.onCall s.1 = Queue.ThrowsOnCall → s.2 = Queue.Rejected)
           (Queue.settled q) →
  Forall (λ t, Queue.onCall t = Queue.ReturnsPromise) (Queue.awaiting (Queue.step q e))
  ∧ Forall (λ s, Queue.onCall s.1 = Queue.ThrowsOnCall → s.2 = Queue.Rejected)
           (Queue.settled (Queue.step q e)).
Proof.
  intros [Haw Hse]. destruct e as [t|o]; simpl.
  - unfold Queue.add, Queue.push, Queue.process. cbn [snd Queue.running].
    destruct (Queue.running q); [done|]. by apply loop_calls.
  - unfold Queue.settle. destruct (Queue.awaiting q) as [|current others] eqn:Hawait;
      [by rewrite Hawait|].
    apply Forall_cons in Haw as [Hcurrent Hothers].
    apply loop_calls; [done|]. apply Forall_app. split; [done|].
    constructor; [|done]. simpl. congruence.
Qed.

(** X23.  A task that throws when it is called is rejected on the spot and
    never waited for, so it cannot hold the queue: the task in progress is
    always one that returned a promise, the handle of a task that threw is
    settled as rejected, and such a task added to an idle queue leaves the
    queue idle. *)
Theorem X23_throwing_task_is_rejected_and_skipped (evs : list Queue.event) :
  let q := Queue.run evs in
  Forall (λ t, Queue.onCall t = Queue.ReturnsPromise) (Queue.awaiting q)
  ∧ Forall (λ s, Queue.onCall s.1 = Queue.ThrowsOnCall → s.2 = Queue.Rejected)
           (Queue.settled q)
  ∧ (∀ t, head (Queue.items q) = Some t → Queue.onCall t = Queue.ReturnsPromise)
  ∧ (∀ t, Queue.onCall t = Queue.ThrowsOnCall → Queue.items q = [] →
       Queue.items (Queue.add t q).2 = [] ∧ Queue.running (Queue.add t q).2 = false
       ∧ Queue.settled (Queue.add t q).2 = Queue.settled q ++ [(t, Queue.Rejected)]).
Proof.
  intros q.
  assert (Hcalls : ∀ evs q0,
            Forall (λ t, Queue.onCall t = Queue.ReturnsPromise) (Queue.awaiting q0)
            ∧ Forall (λ s, Queue.onCall s.1 = Queue.ThrowsOnCall → s.2 = Queue.Rejected)
                     (Queue.settled q0) →
            Forall (λ t, Queue.onCall t = Queue.ReturnsPromise)
                   (Queue.awaiting (fold_left Queue.step evs q0))
            ∧ Forall (λ s, Queue.onCall s.1 = Queue.ThrowsOnCall → s.2 = Queue.Rejected)
                     (Queue.settled (fold_left Queue.step evs q0))).
  { clear. induction evs as [|e evs IH]; intros q0 H0; [done|].
    simpl. by apply IH, step_calls. }
  destruct (Hcalls evs Queue.empty) as [Haw Hse]; [by split; constructor|].
  fold (Queue.run evs) in Haw, Hse. fold q in Haw, Hse.
  pose proof (QueueFacts.run_inv evs) as Hinv. fold q in Hinv.
  split_and!; [exact Haw|exact Hse| |].
  - intros t Hhead. rewrite (Queue.inv_awaiting q Hinv) in Haw.
    destruct (Queue.items q) as [|t' its]; [done|]. injection Hhead as ->.
    by apply Forall_cons in Haw as [? _].
  - intros t Hthrow Hidle.
    pose proof (Queue.inv_running q Hinv) as Hrun.
    pose proof (Queue.inv_awaiting q Hinv) as Hawait. rewrite Hidle in Hrun, Hawait.
    unfold Queue.add, Queue.push, Queue.process. cbn [snd Queue.running Queue.items
      Queue.awaiting Queue.settled Queue.enqueued].
    rewrite Hrun, Hidle. simpl. by rewrite Hthrow.
Qed.

Local Open Scope Z_scope.

(** ** Bounded settings *)

(** X24.  [toRangeNumber] yields the floor of a number that lies between
    [min] and [max + 1], the latter excluded, and the fallback for any other
    and for what is no finite number; so with a fallback within the bounds
    its result is within them, as the audio quality is between 0 and 9
    whatever the environment says. *)
Theorem X24_range_number_within_bounds
    (value : option QArith_base.Q) (fallback min max : Z) :
  min <= fallback <= max →
  min <= Range.toRangeNumber value fallback min max <= max
  ∧ (∀ parsed, value = Some parsed →
       let within := QArith_base.Qle (QArith_base.inject_Z min) parsed
                     ∧ QArith_base.Qlt parsed (QArith_base.inject_Z (max + 1)) in
       (within → Range.toRangeNumber value fallback min max = Qround.Qfloor parsed)
       ∧ (¬ within → Range.toRangeNumber value fallback min max = fallback))
  ∧ 0 <= Range.audioQuality value <= 9.
Proof.
  intros Hfallback.
  assert (Hin : ∀ f lo hi, lo <= f <= hi → lo <= Range.toRangeNumber value f lo hi <= hi).
  { intros f lo hi Hf. unfold Range.toRangeNumber. destruct value as [parsed|]; [|done].
    cbv zeta. destruct (Z.ltb_spec (Qround.Qfloor parsed) lo); [done|].
    destruct (Z.gtb_spec (Qround.Qfloor parsed) hi); simpl; lia. }
  split; [by apply Hin|]. split; [|apply Hin; lia].
  intros parsed ->. unfold Range.toRangeNumber. cbv zeta.
  assert (Hlo : QArith_base.Qle (QArith_base.inject_Z min) parsed ↔ min <= Qround.Qfloor parsed).
  { split.
    - intros H. apply Qround.Qfloor_resp_le in H. by rewrite Qround.Qfloor_Z in H.
    - intros H. eapply QArith_base.Qle_trans; [|apply Qround.Qfloor_le].
      by rewrite <- QArith_base.Zle_Qle. }
  assert (Hhi : QArith_base.Qlt parsed (QArith_base.inject_Z (max + 1))
                ↔ Qround.Qfloor parsed <= max).
  { split.
    - intros H. pose proof (Qround.Qfloor_le parsed) as Hle.
      pose proof (QArith_base.Qle_lt_trans _ _ _ Hle H) as Hlt.
      rewrite <- QArith_base.Zlt_Qlt in Hlt. lia.
    - intros H. eapply QArith_base.Qlt_le_trans; [apply Qround.Qlt_floor|].
      rewrite <- QArith_base.Zle_Qle. lia. }
  rewrite Hlo, Hhi.
  destruct (Z.ltb_spec (Qround.Qfloor parsed) min), (Z.gtb_spec (Qround.Qfloor parsed) max);
    simpl; split; intros; try done; lia.
Qed.

Lemma X24_witness :
  0 <= Range.toRangeNumber (Some (QArith_base.Qmake 19 2)) 5 0 9 <= 9.
Proof.
  apply (X24_range_number_within_bounds (Some (QArith_base.Qmake 19 2)) 5 0 9). lia.
Defined.

(** What the duration check throws is not the playlist notice. *)
Lemma assert_not_playlist cfg video m e :
  Bot.assertDurationForMedia cfg video m = Fx.Throw e → Chat.isPlaylistUrlDetected e = false.
Proof.
  unfold Bot.assertDurationForMedia. cbv zeta.
  repeat case_match; intros [= <-]; try done; by destruct m.
Qed.

(** A link, from the [try] block of the handler, once its announcement went
    out. *)
Lemma link_run cfg sv chatId q m s :
  Chat.isLikelyUrl sv q = true → accepts (Chat.answers s) = true →
  let s' := (Chat.try_catch (Chat.handlePlayCommand cfg sv chatId q m) (Chat.replyFailure cfg) s).2 in
  Chat.pendingSelections s'
  = match Chat.getVideoFromInput sv q with
    | Fx.Ok _ => delete chatId (Chat.pendingSelections s)
    | Fx.Throw e =>
      if Chat.isPlaylistUrlDetected e && accepts (tail (Chat.answers s)) then
        match Chat.getPlaylistOptions sv q with
        | Fx.Ok options =>
          <[chatId := Bot.mkPending (Bot.mkPayload Bot.playlist_tracks options m)
                        (Chat.later sv + Config.selectionTimeoutSeconds cfg * 1000)]>
            (Chat.pendingSelections s)
        | Fx.Throw _ => delete chatId (Chat.pendingSelections s)
        end
      else delete chatId (Chat.pendingSelections s)
    end
  ∧ Chat.jobs s'
    = Chat.jobs s
      ++ match Chat.getVideoFromInput sv q with
         | Fx.Ok video =>
           match Bot.assertDurationForMedia cfg video m with
           | Fx.Ok _ => [(video, m)]
           | Fx.Throw _ => []
           end
         | Fx.Throw _ => []
         end.
Proof.
  intros Hurl Haccepts. unfold Chat.handlePlayCommand. rewrite Hurl.
  unfold accepts in *.
  unfold Chat.showPlaylistTracks, Chat.enqueueMediaJob.
  unfold Chat.try_catch, mbind, Chat.M_bind, Chat.bind, Chat.clearPending, Chat.call,
    Chat.setPending, Chat.replyFailure, Chat.throw,
    Chat.replyText, Bot.clearPendingSelection, Bot.setPendingSelection.
  cbn [Chat.set_store Chat.answers Chat.pendingSelections Chat.queue Chat.jobs Chat.replies].
  assert (Hpos : ∀ t, (Queue.add t (Chat.queue s)).1 = S (length (Queue.items (Chat.queue s)))).
  { intros t. unfold Queue.add, Queue.push. cbn [fst]. rewrite length_app. simpl. lia. }
  destruct (head (Chat.answers s)) as [[failure|]|]; [done|..].
  all: destruct (Chat.getVideoFromInput sv q) as [video|e];
    [destruct (Bot.assertDurationForMedia cfg video m) as [[]|e'] eqn:Hassert;
     [|apply assert_not_playlist in Hassert; rewrite Hassert]
    |destruct (Chat.isPlaylistUrlDetected e);
     [destruct (Chat.getPlaylistOptions sv q) as [options|e']|]].
  all: cbn [andb snd Chat.set_store Chat.answers Chat.pendingSelections Chat.queue Chat.jobs
            Chat.replies Chat.isPlaylistUrlDetected Fx.ofTransport Fx.cls].
  all: try match goal with |- context [Queue.add ?t ?q0] =>
             destruct (Queue.add t q0) as [position q'] end.
  all: cbn [andb snd Chat.set_store Chat.answers Chat.pendingSelections Chat.queue Chat.jobs
            Chat.replies Chat.isPlaylistUrlDetected Fx.ofTransport Fx.cls].
  all: try destruct (head (tail (Chat.answers s))) as [[failure'|]|].
  all: cbn [andb snd Chat.set_store Chat.answers Chat.pendingSelections Chat.queue Chat.jobs
            Chat.replies Chat.isPlaylistUrlDetected Fx.ofTransport Fx.cls].
  all: try destruct (head (tail (tail (Chat.answers s)))) as [[failure''|]|].
  all: cbn [andb snd Chat.set_store Chat.answers Chat.pendingSelections Chat.queue Chat.jobs
            Chat.replies Chat.isPlaylistUrlDetected Fx.ofTransport Fx.cls].
  all: try destruct (head (tail (tail (tail (Chat.answers s))))) as [[failure'''|]|].
  all: rewrite ?insert_delete_eq, ?app_nil_r; by split.
Qed.

(** X25.  [/play] or [/video] with a link, once the announcement went out:
    a video is handed to the queue, with the media type of the command, if
    its duration allows that type, and nothing stays pending for the chat; a
    playlist link makes the tracks of the playlist the pending selection,
    if they can be loaded and the notice of it went out; any other failure
    leaves nothing pending and nothing in the queue. *)
Theorem X25_link_enqueues_or_lists_tracks
    (cfg : Config.config) (sv : Chat.services) (chatId : string) (text : Str.jsstring)
    (s : Chat.session) (m : Bot.media) (q : Str.jsstring) :
  Commands.parseCommand (Str.trim text) = search_command m q →
  Chat.isLikelyUrl sv q = true →
  accepts (Chat.answers s) = true →
  let s' := (Chat.handleIncomingCommand cfg sv chatId text s).2 in
  Chat.pendingSelections s'
  = match Chat.getVideoFromInput sv q with
    | Fx.Ok _ => delete chatId (Chat.pendingSelections s)
    | Fx.Throw e =>
      if Chat.isPlaylistUrlDetected e && accepts (tail (Chat.answers s)) then
        match Chat.getPlaylistOptions sv q with
        | Fx.Ok options =>
          <[chatId := Bot.mkPending (Bot.mkPayload Bot.playlist_tracks options m)
                        (Chat.later sv + Config.selectionTimeoutSeconds cfg * 1000)]>
            (Chat.pendingSelections s)
        | Fx.Throw _ => delete chatId (Chat.pendingSelections s)
        end
      else delete chatId (Chat.pendingSelections s)
    end
  ∧ Chat.jobs s'
    = Chat.jobs s
      ++ match Chat.getVideoFromInput sv q with
         | Fx.Ok video =>
           match Bot.assertDurationForMedia cfg video m with
           | Fx.Ok _ => [(video, m)]
           | Fx.Throw _ => []
           end
         | Fx.Throw _ => []
         end.
Proof.
  intros Hparsed Hurl Haccepts s'. subst s'. rewrite (handle_play _ _ _ _ _ _ _ Hparsed).
  destruct (link_run cfg sv chatId q m
              (Chat.set_store (match found sv chatId s with
                               | Some _ => Chat.pendingSelections s
                               | None => delete chatId (Chat.pendingSelections s)
                               end) s) Hurl Haccepts)
    as (Hstore & Hjobs).
  split; [|exact Hjobs].
  rewrite Hstore. cbn [Chat.set_store Chat.answers Chat.pendingSelections].
  rewrite found_store_delete.
  destruct (Chat.getVideoFromInput sv q) as [video|e]; [done|].
  destruct (Chat.isPlaylistUrlDetected e && accepts (tail (Chat.answers s))); [|done].
  destruct (Chat.getPlaylistOptions sv q); [apply found_store_insert|done].
Qed.

Lemma X25_witness :
  let cfg := Config.load (Config.mkEnv None None None None None None None) in
  let song := Bot.mkCandidate Bot.KindVideo "song" "https://youtu.be/x" (Some 100) in
  let sv := Chat.mkServices (λ _, true) (λ _, Fx.Ok song)
              (λ _, Fx.Ok []) (λ _, Fx.Ok []) 1000 2000 in
  let s := Chat.mkSession ∅ Queue.empty [] [] [] in
  Chat.jobs (Chat.handleIncomingCommand cfg sv "chat-1" (Str.str "/play https://youtu.be/x") s).2
  = [(song, Bot.MEDIA_AUDIO)].
Proof.
  intros cfg song sv s.
  assert (Hparsed : Commands.parseCommand (Str.trim (Str.str "/play https://youtu.be/x"))
                    = search_command Bot.MEDIA_AUDIO (Str.str "https://youtu.be/x"))
    by (vm_compute; reflexivity).
  exact (proj2 (X25_link_enqueues_or_lists_tracks cfg sv "chat-1"
                  (Str.str "/play https://youtu.be/x") s Bot.MEDIA_AUDIO
                  (Str.str "https://youtu.be/x") Hparsed eq_refl eq_refl)).
Defined.
